(** * The serializer orchestrator of Prepack ([src/serializer/serializer.js])

    A shallow embedding of class [Serializer]: its constructor, [_execute]
    and [init].  The interpreter, the generator, the logger, the module and
    function collaborators, the heap visitors and the residual-heap
    serializers are other classes of the code base; the orchestrator only
    calls them.  They are therefore kept abstract: every call the orchestrator makes on one of
    them is a constructor of [Call], answered by an arbitrary handler that
    may change the whole world and may throw, and recorded in a call log. *)

From stdpp Require Import base strings list gmap sorting.
From Stdlib Require Import ZArith.

Local Open Scope string_scope.
Local Open Scope list_scope.
Local Open Scope nat_scope.
#[local] Set Warnings "-clear-no-such-hyp".

(** ** Data *)

(** A reference to a JavaScript object owned by a collaborator. *)
Definition Obj := nat.

Inductive HeapGraphFormat := DotLanguage | VISJS.

(** [SerializerOptions] ([options.js]); an absent boolean option reads as
    [false], an absent [heapGraphFormat] or [lazyObjectsRuntime] as [None]. *)
Record SerializerOptions := {
  profile : bool;
  initializeMoreModules : bool;
  inlineExpressions : bool;
  logStatistics : bool;
  heapGraphFormat : option HeapGraphFormat;
  lazyObjectsRuntime : option string;
  internalDebug : bool;
  logModules : bool;
  delayUnsupportedRequires : bool;
  accelerateUnsupportedRequires : bool;
  trace : bool
}.

Record SourceFile := { filePath : string; fileContents : string }.

(** The [code] object returned by [executeSources]: file path to contents. *)
Abbreviation Code := (gmap string string).

(** A Babel node: its [type], its [name] (meaningful on identifiers) and the
    sub-nodes found under its visitor keys, in order. *)
#[warnings="-register-all"]
Inductive Node := mkNode (type : string) (name : string) (children : list Node).

Definition node_type (n : Node) : string := let 'mkNode t _ _ := n in t.
Definition node_name (n : Node) : string := let 'mkNode _ x _ := n in x.
Definition node_children (n : Node) : list Node := let 'mkNode _ _ c := n in c.

(** [t.isIdentifier(node)] *)
Definition isIdentifier (n : Node) : bool := String.eqb (node_type n) "Identifier".

Record SourceLocation := { line : nat; column : nat }.

(** The first component of what [executeSources] returns: an
    [AbruptCompletion] (with its [location]) or a value. *)
Inductive Completion :=
| AbruptCompletion (location : option SourceLocation) (value : Obj)
| NormalValue (value : Obj).

Record CompilerDiagnostic := {
  message : string;
  diag_location : option SourceLocation;
  errorCode : string;
  severity : string
}.

Inductive Exn :=
| FatalError
| InvariantViolation
| JSException (payload : Obj).

(** How a call on a collaborator ends. *)
Inductive Outcome (A : Type) :=
| Returns (a : A)
| Throws (e : Exn).
Arguments Returns {A} a.
Arguments Throws {A} e.

(** How a piece of a method body ends: normally, by an exception, or by
    [return undefined]. *)
Inductive Result (A : Type) :=
| Ok (a : A)
| Throw (e : Exn)
| ReturnUndefined.
Arguments Ok {A} a.
Arguments Throw {A} e.
Arguments ReturnUndefined {A}.

(** [TimingStatistics] ([types.js]): six counters, all zero when created. *)
Record TimingStatistics := {
  totalTime : Z;
  globalCodeTime : Z;
  initializeMoreModulesTime : Z;
  deepTraversalTime : Z;
  referenceCountsTime : Z;
  serializePassTime : Z
}.

Definition new_TimingStatistics : TimingStatistics :=
  {| totalTime := 0; globalCodeTime := 0; initializeMoreModulesTime := 0;
     deepTraversalTime := 0; referenceCountsTime := 0; serializePassTime := 0 |}.

Definition set_totalTime (v : Z) (t : TimingStatistics) : TimingStatistics :=
  {| totalTime := v; globalCodeTime := globalCodeTime t;
     initializeMoreModulesTime := initializeMoreModulesTime t;
     deepTraversalTime := deepTraversalTime t;
     referenceCountsTime := referenceCountsTime t;
     serializePassTime := serializePassTime t |}.

Definition set_globalCodeTime (v : Z) (t : TimingStatistics) : TimingStatistics :=
  {| totalTime := totalTime t; globalCodeTime := v;
     initializeMoreModulesTime := initializeMoreModulesTime t;
     deepTraversalTime := deepTraversalTime t;
     referenceCountsTime := referenceCountsTime t;
     serializePassTime := serializePassTime t |}.

Definition set_initializeMoreModulesTime (v : Z) (t : TimingStatistics) : TimingStatistics :=
  {| totalTime := totalTime t; globalCodeTime := globalCodeTime t;
     initializeMoreModulesTime := v;
     deepTraversalTime := deepTraversalTime t;
     referenceCountsTime := referenceCountsTime t;
     serializePassTime := serializePassTime t |}.

Definition set_deepTraversalTime (v : Z) (t : TimingStatistics) : TimingStatistics :=
  {| totalTime := totalTime t; globalCodeTime := globalCodeTime t;
     initializeMoreModulesTime := initializeMoreModulesTime t;
     deepTraversalTime := v;
     referenceCountsTime := referenceCountsTime t;
     serializePassTime := serializePassTime t |}.

Definition set_referenceCountsTime (v : Z) (t : TimingStatistics) : TimingStatistics :=
  {| totalTime := totalTime t; globalCodeTime := globalCodeTime t;
     initializeMoreModulesTime := initializeMoreModulesTime t;
     deepTraversalTime := deepTraversalTime t;
     referenceCountsTime := v;
     serializePassTime := serializePassTime t |}.

Definition set_serializePassTime (v : Z) (t : TimingStatistics) : TimingStatistics :=
  {| totalTime := totalTime t; globalCodeTime := globalCodeTime t;
     initializeMoreModulesTime := initializeMoreModulesTime t;
     deepTraversalTime := deepTraversalTime t;
     referenceCountsTime := referenceCountsTime t;
     serializePassTime := v |}.

(** What [generate] of babel-generator returns. *)
Record Generated := { gen_code : string; gen_map : option Obj }.

(** [SerializedResult] ([types.js]) *)
Record SerializedResult := {
  result_code : string;
  result_map : option Obj;
  result_reactStatistics : option Obj;
  result_statistics : Obj;
  result_timingStats : option TimingStatistics;
  result_heapGraph : option string
}.

(** The two classes a residual-heap serializer is instantiated from. *)
Inductive SerializerClass := ResidualHeapSerializer | LazyObjectsSerializer.

(** The arguments of [new ResidualHeapSerializer(...)] and of
    [new LazyObjectsSerializer(...)].  [sa_visitor] stands for the nine fields
    of the visitor that are passed ([inspector], [values], [functionInstances],
    [classMethodInstances], [functionInfos], [referencedDeclaredValues],
    [additionalFunctionValueInfos], [declarativeEnvironmentRecordsBindings],
    [generatorParents]). *)
Record SerializerArgs := {
  sa_logger : Obj;
  sa_modules : Obj;
  sa_residualHeapValueIdentifiers : Obj;
  sa_visitor : Obj;
  sa_options : SerializerOptions;
  sa_additionalFunctionValuesAndEffects : Obj;
  sa_statistics : Obj;
  sa_react : Obj;
  sa_referentializer : Obj
}.

(** ** Calls on collaborators

    One constructor per call site kind; the index is the type of the value
    the call returns.  The realm itself is not an argument: it is part of the
    world every call acts on. *)
Inductive Call : Type → Type :=
(* the constructor *)
| New_Generator (name : string) : Call Obj
| New_Logger (internalDebug : bool) : Call Obj
| New_SerializerStatistics : Call Obj
| New_Modules (logger statistics : Obj)
    (logModules delayUnsupportedRequires accelerateUnsupportedRequires : bool) : Call Obj
| New_Functions (modules : Obj) : Call Obj        (* gets modules.moduleTracer *)
| New_LoggingTracer : Call Obj
| New_ReactSerializerState : Call Obj             (* { usedReactElementKeys: new Set() } *)
(* _execute *)
| GlobalEnv_parse (sources : list SourceFile) (sourceType : string) : Call (list Node * Code)
| GlobalEnv_evaluate (asts : list Node) : Call Completion
| New_ExecutionContext : Call Obj
| Realm_pushContext (context : Obj) : Call unit
| Logger_logCompletion (logger : Obj) (res : Completion) : Call unit
| Realm_popContext (context : Obj) : Call unit
| Realm_handleError (diagnostic : CompilerDiagnostic) : Call unit
(* init *)
| Logger_logInformation (logger : Obj) (msg : string) : Call unit
| Modules_resolveInitializedModules (modules : Obj) : Call unit
| Functions_checkThatFunctionsAreIndependent (functions : Obj)
    (environmentRecordIdAfterGlobalCode : nat) : Call unit
| New_ReactStatistics : Call Obj
| Functions_optimizeReactComponentTreeRoots (functions reactStatistics react : Obj)
    (environmentRecordIdAfterGlobalCode : nat) : Call unit
| Modules_initializeMoreModules (modules : Obj) : Call unit
| Functions_getAdditionalFunctionValuesToEffects (functions : Obj) : Call Obj
| PreludeGenerator_createNameGenerator (prefix : string) : Call Obj
| New_Referentializer (options : SerializerOptions)
    (scopeNameGenerator referentializedNameGenerator statistics : Obj) : Call Obj
| New_ResidualHeapVisitor
    (logger modules additionalFunctionValuesAndEffects referentializer : Obj) : Call Obj
| ResidualHeapVisitor_visitRoots (visitor : Obj) : Call unit
| New_ResidualHeapValueIdentifiers (visitor : Obj) : Call Obj  (* gets visitor.values.keys() *)
| New_ResidualHeapRefCounter
    (logger modules additionalFunctionValuesAndEffects referentializer : Obj) : Call Obj
| ResidualHeapRefCounter_visitRoots (counter : Obj) : Call unit
| ResidualHeapRefCounter_getResult (counter : Obj) : Call Obj
| New_ResidualHeapGraphGenerator
    (logger modules additionalFunctionValuesAndEffects residualHeapValueIdentifiers
     refCounts referentializer : Obj) : Call Obj
| ResidualHeapGraphGenerator_visitRoots (graphGenerator : Obj) : Call unit
| ResidualHeapGraphGenerator_generateResult (graphGenerator : Obj)
    (format : HeapGraphFormat) : Call string
| ResidualHeapValueIdentifiers_initPass1 (identifiers : Obj) : Call unit
| ResidualHeapValueIdentifiers_initPass2 (identifiers : Obj) : Call unit
| New_Serializer (class : SerializerClass) (args : SerializerArgs) : Call Obj
| Serializer_serialize (serializer : Obj) : Call Obj
| stripFlowTypeAnnotations (ast : Obj) : Call unit
| generate (ast : Obj) (sourceMaps : bool) (code : Code) : Call Generated
| Statistics_log (statistics : Obj) : Call unit.

(** The places where [init] reads [this.logger.hasErrors()]. *)
Inductive Checkpoint :=
| AfterExecution           (* line 114 *)
| AfterInitializeMoreModules (* line 126 *)
| AfterHeapVisitation      (* line 155 *)
| AfterPass1               (* line 219 *)
| BeforeReturn.            (* line 259, inside an invariant *)

(** What the call log records: a call with its outcome, or the value read
    from [logger.hasErrors()] at a checkpoint. *)
Inductive Event :=
| ECall {R : Type} (c : Call R) (o : Outcome R)
| ECheck (cp : Checkpoint) (b : bool).

(** ** The realm *)

Record ReactRealm := { verbose : bool; enabled : bool }.

Record NameGenerator := { forbiddenNames : gset string }.

Record PreludeGenerator := { nameGenerator : NameGenerator }.

(** The fields of [Realm] the orchestrator reads or writes; [generator] is
    a reference to the generator, absent until one is assigned. *)
Record Realm := {
  useAbstractInterpretation : bool;
  generator : option Obj;
  preludeGenerator : option PreludeGenerator;
  tracers : list Obj;
  realm_react : ReactRealm;
  stripFlow : bool
}.

(** The world: the realm, the static counter [EnvironmentRecord.nextId] and
    everything else (the interpreter's heap and the private state of every
    collaborator object), of a type [Heap] left open. *)
Record World {Heap : Type} := {
  realm : Realm;
  EnvironmentRecord_nextId : nat;
  heap : Heap
}.
Arguments World Heap : clear implicits.

(** The instance fields of a [Serializer]; [this.realm] is the world's realm. *)
Record Serializer := {
  logger : Obj;
  statistics : Obj;
  modules : Obj;
  functions : Obj;
  options : SerializerOptions;
  react : Obj
}.

(** The state a method body runs in: the world, the wall clock (what the
    next calls of [Date.now()] will return, the next one first), the local
    variable [timingStats] of [init], and the call log, oldest event first. *)
Record St {Heap : Type} := {
  world : World Heap;
  clock : nat → Z;
  timingStats : option TimingStatistics;
  log : list Event
}.
Arguments St Heap : clear implicits.

(** ** Kinds of events *)

(** The calls the constructor of [Serializer] makes. *)
Definition constructor_call {R} (c : Call R) : bool :=
  match c with
  | New_Generator _ | New_Logger _ | New_SerializerStatistics | New_Modules _ _ _ _ _
  | New_Functions _ | New_LoggingTracer | New_ReactSerializerState => true
  | _ => false
  end.

(** The events by which source units get parsed and run. *)
Definition executes_sources (e : Event) : bool :=
  match e with
  | ECall (GlobalEnv_parse _ _) _ | ECall (GlobalEnv_evaluate _) _ => true
  | _ => false
  end.

(** The calls by which [_execute] handles an abrupt completion. *)
Definition abrupt_handling (e : Event) : bool :=
  match e with
  | ECall New_ExecutionContext _ | ECall (Realm_pushContext _) _
  | ECall (Logger_logCompletion _ _) _ | ECall (Realm_popContext _) _
  | ECall (Realm_handleError _) _ => true
  | _ => false
  end.

(** A call of [logger.logCompletion]. *)
Definition logs_completion (e : Event) : bool :=
  match e with
  | ECall (Logger_logCompletion _ _) _ => true
  | _ => false
  end.

(** An independence check or a React optimization that gets [cutoff] as the
    identifier that separates the global environment records from the others. *)
Definition uses_cutoff (cutoff : nat) (e : Event) : Prop :=
  match e with
  | ECall (Functions_checkThatFunctionsAreIndependent _ id) _ => id = cutoff
  | ECall (Functions_optimizeReactComponentTreeRoots _ _ _ id) _ => id = cutoff
  | _ => True
  end.

(** A checkpoint at which [logger.hasErrors()] was true. *)
Definition reads_errors (e : Event) : bool :=
  match e with
  | ECheck _ b => b
  | _ => false
  end.

(** One of the four checkpoints of lines 114, 126, 155 and 219, at which
    [logger.hasErrors()] was true. *)
Definition error_checkpoint (e : Event) : bool :=
  match e with
  | ECheck BeforeReturn _ => false
  | ECheck _ b => b
  | _ => false
  end.

(** An event of the two-pass protocol: [initPass1], [initPass2] or the
    checkpoint between them. *)
Definition two_pass_event (e : Event) : bool :=
  match e with
  | ECall (ResidualHeapValueIdentifiers_initPass1 _) _
  | ECall (ResidualHeapValueIdentifiers_initPass2 _) _
  | ECheck AfterPass1 _ => true
  | _ => false
  end.

(** The construction of a residual-heap serializer or a call of its
    [serialize]. *)
Definition serializer_event (e : Event) : bool :=
  match e with
  | ECall (New_Serializer _ _) _ | ECall (Serializer_serialize _) _ => true
  | _ => false
  end.

(** Modelled from the spec: class [ResidualHeapValueIdentifiers] is not among
    the sources.  The spec describes its table as an object with two states
    after the initial one: [initPass1] starts the counting of references,
    [initPass2] freezes the counts.  This is the state of the table
    [identifiers] after the events [evs]. *)
Inductive TableState := Initial | Counting | Finalized.

Definition table_step (identifiers : Obj) (st : TableState) (e : Event) : TableState :=
  match e with
  | ECall (ResidualHeapValueIdentifiers_initPass1 i) (Returns _) =>
      if Nat.eqb i identifiers then Counting else st
  | ECall (ResidualHeapValueIdentifiers_initPass2 i) (Returns _) =>
      if Nat.eqb i identifiers then Finalized else st
  | _ => st
  end.

Definition table_state (identifiers : Obj) (evs : list Event) : TableState :=
  fold_left (table_step identifiers) evs Initial.

(** Modelled from the spec: the naming decision for a value is "inline at its
    use site" when the counts are final and the value is referenced once, and
    "bind once to a generated identifier" otherwise; without final counts every
    value gets a named binding. *)
Inductive NamingDecision := InlineAtUse | BindOnce.

Definition naming_decision (st : TableState) (referenceCount : nat) : NamingDecision :=
  match st with
  | Finalized => if Nat.eqb referenceCount 1 then InlineAtUse else BindOnce
  | _ => BindOnce
  end.

(** The phases of the orchestrator. *)
Inductive Phase :=
| Execute
| ResolveModules
| CheckIndependence
| InitializeMoreModules
| VisitHeap
| VisitCheckpoint
| BuildHeapGraph
| Serialize
| StripTypeAnnotations
| EmitText.

(** The phase an event belongs to, if any. *)
Definition phase_of (e : Event) : option Phase :=
  match e with
  | ECall c _ =>
      match c with
      | GlobalEnv_parse _ _ | GlobalEnv_evaluate _ => Some Execute
      | Modules_resolveInitializedModules _ => Some ResolveModules
      | Functions_checkThatFunctionsAreIndependent _ _
      | Functions_optimizeReactComponentTreeRoots _ _ _ _ => Some CheckIndependence
      | Modules_initializeMoreModules _ => Some InitializeMoreModules
      | New_ResidualHeapVisitor _ _ _ _ | ResidualHeapVisitor_visitRoots _ => Some VisitHeap
      | New_ResidualHeapRefCounter _ _ _ _ | ResidualHeapRefCounter_visitRoots _
      | ResidualHeapRefCounter_getResult _ | New_ResidualHeapGraphGenerator _ _ _ _ _ _
      | ResidualHeapGraphGenerator_visitRoots _
      | ResidualHeapGraphGenerator_generateResult _ _ => Some BuildHeapGraph
      | ResidualHeapValueIdentifiers_initPass1 _ | ResidualHeapValueIdentifiers_initPass2 _
      | New_Serializer _ _ | Serializer_serialize _ => Some Serialize
      | stripFlowTypeAnnotations _ => Some StripTypeAnnotations
      | generate _ _ _ => Some EmitText
      | _ => None
      end
  | ECheck AfterInitializeMoreModules _ => Some InitializeMoreModules
  | ECheck AfterHeapVisitation _ => Some VisitCheckpoint
  | ECheck AfterPass1 _ => Some Serialize
  | ECheck _ _ => None
  end.

(** The order of the phases in the code ... *)
Definition code_order (p : Phase) : nat :=
  match p with
  | Execute => 0
  | ResolveModules => 1
  | CheckIndependence => 2
  | InitializeMoreModules => 3
  | VisitHeap => 4
  | VisitCheckpoint => 5
  | BuildHeapGraph => 6
  | Serialize => 7
  | StripTypeAnnotations => 8
  | EmitText => 9
  end.

(** ... and in the state machine of the spec, where the module
    initialization comes after the heap visitation and its checkpoint. *)
Definition stated_order (p : Phase) : nat :=
  match p with
  | Execute => 0
  | ResolveModules => 1
  | CheckIndependence => 2
  | VisitHeap => 3
  | VisitCheckpoint => 4
  | InitializeMoreModules => 5
  | BuildHeapGraph => 6
  | Serialize => 7
  | StripTypeAnnotations => 8
  | EmitText => 9
  end.

(** The events go through the phases in the order [order]: an event of a
    phase is never followed by an event of an earlier phase. *)
Definition in_order (order : Phase → nat) (evs : list Event) : Prop :=
  StronglySorted le (order <$> omap phase_of evs).

(** A collaborator call that threw. *)
Definition threw (e : Event) : bool :=
  match e with
  | ECall _ (Throws _) => true
  | _ => false
  end.

(** ** A sample world

    A small set of collaborators on which the statements below can be run:
    the heap is a counter of the objects allocated so far together with the
    diagnostics reported so far. *)

Record SampleHeap := { allocated : nat; reported : list string }.

(** Allocating an object: its reference is the value of the counter. *)
Definition sample_alloc (w : World SampleHeap) : Outcome Obj * World SampleHeap :=
  (Returns (allocated (heap w)),
   {| realm := realm w;
      EnvironmentRecord_nextId := EnvironmentRecord_nextId w;
      heap := {| allocated := S (allocated (heap w)); reported := reported (heap w) |} |}).

(** Creating an environment record. *)
Definition sample_new_record (w : World SampleHeap) : World SampleHeap :=
  {| realm := realm w;
     EnvironmentRecord_nextId := S (EnvironmentRecord_nextId w);
     heap := heap w |}.

(** Reporting a diagnostic. *)
Definition sample_report (code : string) (w : World SampleHeap) : World SampleHeap :=
  {| realm := realm w;
     EnvironmentRecord_nextId := EnvironmentRecord_nextId w;
     heap := {| allocated := allocated (heap w); reported := reported (heap w) ++ [code] |} |}.

(** The [code] object of a list of source units: of two units with the
    same path, the later one stands. *)
Definition sample_code (sources : list SourceFile) : Code :=
  fold_left (λ code f, <[filePath f := fileContents f]> code) sources ∅.

(** The collaborators: the parser answers [asts], the interpreter ends the
    global code with [res] after creating an environment record, constructors
    allocate, the heap-graph classes only read, [handleError] reports.  The
    constructor of [Generator] needs the prelude generator of the realm, and
    fails on its invariant when there is none. *)
Definition sample_handle (asts : list Node) (res : Completion) (R : Type) (c : Call R)
    : World SampleHeap → Outcome R * World SampleHeap :=
  match c in Call R return World SampleHeap → Outcome R * World SampleHeap with
  | New_Generator _ =>
      λ w, (if bool_decide (is_Some (preludeGenerator (realm w)))
            then Returns 300 else Throws InvariantViolation, w)
  | GlobalEnv_parse sources _ => λ w, (Returns (asts, sample_code sources), w)
  | GlobalEnv_evaluate _ => λ w, (Returns res, sample_new_record w)
  | Modules_resolveInitializedModules _ => λ w, (Returns tt, sample_new_record w)
  | Realm_handleError diagnostic => λ w, (Returns tt, sample_report (errorCode diagnostic) w)
  | New_ResidualHeapRefCounter _ _ _ _ => λ w, (Returns 100, w)
  | ResidualHeapRefCounter_getResult _ => λ w, (Returns 101, w)
  | New_ResidualHeapGraphGenerator _ _ _ _ _ _ => λ w, (Returns 102, w)
  | ResidualHeapGraphGenerator_generateResult _ format =>
      λ w, (Returns match format with DotLanguage => "digraph{}" | VISJS => "{}" end, w)
  | generate ast sourceMaps _ =>
      λ w, (Returns {| gen_code := "var x = 1;";
                       gen_map := if sourceMaps then Some ast else None |}, w)
  | New_Logger _ | New_SerializerStatistics | New_Modules _ _ _ _ _ | New_Functions _
  | New_LoggingTracer | New_ReactSerializerState | New_ExecutionContext
  | New_ReactStatistics | Functions_getAdditionalFunctionValuesToEffects _
  | PreludeGenerator_createNameGenerator _ | New_Referentializer _ _ _ _
  | New_ResidualHeapVisitor _ _ _ _ | New_ResidualHeapValueIdentifiers _
  | New_Serializer _ _ | Serializer_serialize _ => sample_alloc
  | Realm_pushContext _ | Logger_logCompletion _ _ | Realm_popContext _
  | Logger_logInformation _ _ | Functions_checkThatFunctionsAreIndependent _ _
  | Functions_optimizeReactComponentTreeRoots _ _ _ _ | Modules_initializeMoreModules _
  | ResidualHeapVisitor_visitRoots _ | ResidualHeapRefCounter_visitRoots _
  | ResidualHeapGraphGenerator_visitRoots _ | ResidualHeapValueIdentifiers_initPass1 _
  | ResidualHeapValueIdentifiers_initPass2 _ | stripFlowTypeAnnotations _
  | Statistics_log _ => λ w, (Returns tt, w)
  end.

(** The logger has errors once a diagnostic has been reported. *)
Definition sample_hasErrors (lg : Obj) (w : World SampleHeap) : bool :=
  negb (bool_decide (reported (heap w) = [])).

(** Every residual-heap serializer shares the statistics object the
    constructor of [Serializer] creates second. *)
Definition sample_statistics_of (serializer : Obj) (w : World SampleHeap) : Obj := 1.

(** The tree of [var x: Foo = 1; f(y);]: the type annotation of [x] lies
    below the identifier [x]. *)
Definition sample_ast : Node :=
  mkNode "Program" ""
    [mkNode "VariableDeclaration" ""
       [mkNode "VariableDeclarator" ""
          [mkNode "Identifier" "x"
             [mkNode "TypeAnnotation" ""
                [mkNode "GenericTypeAnnotation" "" [mkNode "Identifier" "Foo" []]]];
           mkNode "NumericLiteral" "" []]];
     mkNode "ExpressionStatement" ""
       [mkNode "CallExpression" ""
          [mkNode "Identifier" "f" []; mkNode "Identifier" "y" []]]].

Definition sample_sources : list SourceFile :=
  [{| filePath := "main.js"; fileContents := "var x: Foo = 1; f(y);" |}].

(** Every optional step is switched on. *)
Definition sample_options : SerializerOptions :=
  {| profile := true; initializeMoreModules := true; inlineExpressions := true;
     logStatistics := true; heapGraphFormat := Some DotLanguage;
     lazyObjectsRuntime := Some "LazyObjectsRuntime"; internalDebug := false;
     logModules := false; delayUnsupportedRequires := false;
     accelerateUnsupportedRequires := false; trace := true |}.

(** Every optional step is switched off. *)
Definition plain_options : SerializerOptions :=
  {| profile := false; initializeMoreModules := false; inlineExpressions := false;
     logStatistics := false; heapGraphFormat := None;
     lazyObjectsRuntime := None; internalDebug := false;
     logModules := false; delayUnsupportedRequires := false;
     accelerateUnsupportedRequires := false; trace := false |}.

Definition sample_realm (abstractInterpretation : bool) : Realm :=
  {| useAbstractInterpretation := abstractInterpretation;
     generator := None;
     preludeGenerator := Some {| nameGenerator := {| forbiddenNames := {[ "eval" ]} |} |};
     tracers := [];
     realm_react := {| verbose := true; enabled := true |};
     stripFlow := true |}.

(** The state before the constructor runs; the wall clock ticks by one. *)
Definition sample_state (abstractInterpretation : bool) : St SampleHeap :=
  {| world := {| realm := sample_realm abstractInterpretation;
                 EnvironmentRecord_nextId := 0;
                 heap := {| allocated := 0; reported := [] |} |};
     clock := Z.of_nat;
     timingStats := None;
     log := [] |}.

(** What the constructor makes of [o] in that state. *)
Definition sample_this (o : SerializerOptions) : Serializer :=
  {| logger := 0; statistics := 1; modules := 2; functions := 3; options := o;
     react := if trace o then 5 else 4 |}.

(** The sample state in a realm that has no prelude generator. *)
Definition bare_state : St SampleHeap :=
  {| world := {| realm := {| useAbstractInterpretation := true;
                             generator := None;
                             preludeGenerator := None;
                             tracers := [];
                             realm_react := {| verbose := true; enabled := true |};
                             stripFlow := true |};
                 EnvironmentRecord_nextId := 0;
                 heap := {| allocated := 6; reported := [] |} |};
     clock := Z.of_nat;
     timingStats := None;
     log := [] |}.

(** The sample state after a diagnostic was reported. *)
Definition failed_state : St SampleHeap :=
  {| world := {| realm := sample_realm true;
                 EnvironmentRecord_nextId := 0;
                 heap := {| allocated := 6; reported := ["PP0001"] |} |};
     clock := Z.of_nat;
     timingStats := None;
     log := [] |}.


(** ** The monad of method bodies *)

Declare Scope js_scope.

Section Serializer.

Context {Heap : Type}.

(** The collaborators: how each call acts on the world and ends ... *)
Variable handle : ∀ R, Call R → World Heap → Outcome R * World Heap.
(** ... what [logger.hasErrors()] reads, ... *)
Variable hasErrors : Obj → World Heap → bool.
(** ... and the [statistics] field of a residual-heap serializer. *)
Variable statistics_of : Obj → World Heap → Obj.

Definition M (A : Type) : Type := St Heap → Result A * St Heap.

Definition ret {A} (a : A) : M A := λ s, (Ok a, s).

Definition bind {A B} (m : M A) (f : A → M B) : M B := λ s,
  match fst (m s) with
  | Ok a => f a (snd (m s))
  | Throw e => (Throw e, snd (m s))
  | ReturnUndefined => (ReturnUndefined, snd (m s))
  end.

Notation "x ← y ; z" := (bind y (λ x, z))
  (at level 20, y at level 100, z at level 200, only parsing) : js_scope.
Notation "x ;; z" := (bind x (λ _, z))
  (at level 100, z at level 200, only parsing, right associativity) : js_scope.
Local Open Scope js_scope.

Definition throw {A} (e : Exn) : M A := λ s, (Throw e, s).

(** [return undefined;] *)
Definition return_undefined {A} : M A := λ s, (ReturnUndefined, s).

(** [invariant(condition)] ([invariant.js]) *)
Definition invariant (condition : bool) : M unit :=
  if condition then ret tt else throw InvariantViolation.

(** [if (condition) body] *)
Definition when (condition : bool) (body : M unit) : M unit :=
  if condition then body else ret tt.

(** Reading a field of the world. *)
Definition gets {A} (f : World Heap → A) : M A := λ s, (Ok (f (world s)), s).

(** Writing the realm. *)
Definition set_realm (f : Realm → Realm) : M unit := λ s,
  (Ok tt,
   {| world := {| realm := f (realm (world s));
                  EnvironmentRecord_nextId := EnvironmentRecord_nextId (world s);
                  heap := heap (world s) |};
      clock := clock s; timingStats := timingStats s; log := log s |}).

(** A call on a collaborator: the handler acts on the world, the call and
    its outcome are logged, and a thrown exception propagates. *)
Definition perform {R} (c : Call R) : M R := λ s,
  let o := fst (handle R c (world s)) in
  (match o with Returns r => Ok r | Throws e => Throw e end,
   {| world := snd (handle R c (world s));
      clock := clock s; timingStats := timingStats s;
      log := log s ++ [ECall c o] |}).

(** [if (this.logger.hasErrors()) return undefined;] at checkpoint [cp] *)
Definition return_if_errors (lg : Obj) (cp : Checkpoint) : M unit := λ s,
  let b := hasErrors lg (world s) in
  (if b then ReturnUndefined else Ok tt,
   {| world := world s; clock := clock s; timingStats := timingStats s;
      log := log s ++ [ECheck cp b] |}).

(** [invariant(!this.logger.hasErrors());] *)
Definition invariant_no_errors (lg : Obj) : M unit := λ s,
  let b := hasErrors lg (world s) in
  (if b then Throw InvariantViolation else Ok tt,
   {| world := world s; clock := clock s; timingStats := timingStats s;
      log := log s ++ [ECheck BeforeReturn b] |}).

(** [let timingStats = this.options.profile ? new TimingStatistics() : undefined;] *)
Definition declare_timingStats (profiling : bool) : M unit := λ s,
  (Ok tt,
   {| world := world s; clock := clock s;
      timingStats := if profiling then Some new_TimingStatistics else None;
      log := log s |}).

(** [if (timingStats !== undefined) timingStats.f = ... Date.now() ...;]:
    [update now t] is [t] with the assignment done, [now] being what this
    call of [Date.now()] returns. *)
Definition stamp (update : Z → TimingStatistics → TimingStatistics) : M unit := λ s,
  match timingStats s with
  | None => (Ok tt, s)
  | Some t =>
      (Ok tt,
       {| world := world s; clock := λ n, clock s (S n);
          timingStats := Some (update (clock s 0) t); log := log s |})
  end.

(** Reading the local variable [timingStats]. *)
Definition get_timingStats : M (option TimingStatistics) := λ s, (Ok (timingStats s), s).

(** [try { body } finally { cleanup }]: the cleanup always runs; when it
    ends normally the body's completion stands, otherwise its own does. *)
Definition try_finally {A} (body : M A) (cleanup : M unit) : M A := λ s,
  let r := body s in
  let c := cleanup (snd r) in
  (match fst c with
   | Ok _ => fst r
   | Throw e => Throw e
   | ReturnUndefined => ReturnUndefined
   end, snd c).

(** What the boundary of a function makes of the way its body ends:
    [return undefined] makes the call return [undefined]. *)
Definition at_boundary {A} (r : Result (option A)) : Result (option A) :=
  match r with
  | ReturnUndefined => Ok None
  | _ => r
  end.

(** The boundary of a function whose body may [return undefined]. *)
Definition function_body {A} (body : M (option A)) : M (option A) := λ s,
  (at_boundary (fst (body s)), snd (body s)).

(** [for (let x of xs) body(x)] *)
Fixpoint for_each {A} (xs : list A) (body : A → M unit) : M unit :=
  match xs with
  | [] => ret tt
  | x :: xs' => body x ;; for_each xs' body
  end.

(** ** Reserving the identifiers of the sources *)

(** Modelled from the spec: [traverseFast] ([utils/traverse-fast.js]) is not
    among the sources.  It walks a tree in pre-order, calling [enter] on each
    node it reaches; the boolean [enter] returns says whether the walk stops
    at that node, in which case the node's sub-nodes are not visited.  This
    is the protocol the callback in [_execute] is written against (it answers
    [true] exactly on identifiers), and it is why the spec speaks of the
    top-level identifiers only. *)
Fixpoint traverseFast (node : Node) (enter : Node → M bool) : M unit :=
  stop ← enter node;
  if stop then ret tt
  else
    (fix traverse_all (nodes : list Node) : M unit :=
       match nodes with
       | [] => ret tt
       | n :: rest => traverseFast n enter ;; traverse_all rest
       end) (node_children node).

(** [occurs_in n ast]: node [n] is [ast] or lies somewhere below it. *)
Inductive occurs_in (n : Node) : Node → Prop :=
| occurs_here : occurs_in n n
| occurs_below t x kids k :
    k ∈ kids → occurs_in n k → occurs_in n (mkNode t x kids).

(** [outermost_in n ast]: node [n] occurs in [ast] and no node strictly
    above it is an identifier. *)
Inductive outermost_in (n : Node) : Node → Prop :=
| outermost_here : outermost_in n n
| outermost_below t x kids k :
    isIdentifier (mkNode t x kids) = false →
    k ∈ kids → outermost_in n k → outermost_in n (mkNode t x kids).

(** The names of the identifiers the walk of [_execute] reaches in a tree:
    those with no identifier above them. *)
Fixpoint reached_identifiers (node : Node) : gset string :=
  if isIdentifier node then {[ node_name node ]}
  else
    (fix reached_all (nodes : list Node) : gset string :=
       match nodes with
       | [] => ∅
       | n :: rest => reached_identifiers n ∪ reached_all rest
       end) (node_children node).

(** [forbiddenNames.add(name)] on the name generator of the realm's prelude
    generator (nothing to add to when there is none). *)
Definition add_forbiddenName (name : string) (r : Realm) : Realm :=
  {| useAbstractInterpretation := useAbstractInterpretation r;
     generator := generator r;
     preludeGenerator :=
       match preludeGenerator r with
       | Some p =>
           Some {| nameGenerator :=
                     {| forbiddenNames := {[ name ]} ∪ forbiddenNames (nameGenerator p) |} |}
       | None => None
       end;
     tracers := tracers r;
     realm_react := realm_react r;
     stripFlow := stripFlow r |}.

(** The function [_execute] hands to [traverseFast] (lines 78-83). *)
Definition reserve_node (node : Node) : M bool :=
  if negb (isIdentifier node) then ret false
  else
    set_realm (add_forbiddenName (node_name node)) ;;
    ret true.

(** The callback [_execute] hands to [executeSources] (lines 74-84). *)
Definition reserve_identifiers (ast : Node) : M unit :=
  realmPreludeGenerator ← gets (λ w, preludeGenerator (realm w));
  invariant (bool_decide (is_Some realmPreludeGenerator)) ;;
  traverseFast ast reserve_node.

(** Modelled from the spec: [executeSources] ([environment.js]) is not among
    the sources.  It parses the source units, hands each parsed tree to the
    callback, then runs the program and returns its completion together with
    the [code] object. *)
Definition executeSources (sources : list SourceFile) (sourceType : string)
    (onParse : Node → M unit) : M (Completion * Code) :=
  parsed ← perform (GlobalEnv_parse sources sourceType);
  for_each (fst parsed) onParse ;;
  res ← perform (GlobalEnv_evaluate (fst parsed));
  ret (res, snd parsed).

(** ** Class [Serializer] *)

(** [realm.generator = g] *)
Definition set_generator (g : Obj) (r : Realm) : Realm :=
  {| useAbstractInterpretation := useAbstractInterpretation r;
     generator := Some g;
     preludeGenerator := preludeGenerator r;
     tracers := tracers r;
     realm_react := realm_react r;
     stripFlow := stripFlow r |}.

(** [realm.tracers.push(t)] *)
Definition push_tracer (t : Obj) (r : Realm) : Realm :=
  {| useAbstractInterpretation := useAbstractInterpretation r;
     generator := generator r;
     preludeGenerator := preludeGenerator r;
     tracers := tracers r ++ [t];
     realm_react := realm_react r;
     stripFlow := stripFlow r |}.

(** [constructor(realm, serializerOptions)] (lines 39-62) *)
Definition new_Serializer (serializerOptions : SerializerOptions) : M Serializer :=
  abstract ← gets (λ w, useAbstractInterpretation (realm w));
  invariant abstract ;;
  (* Start tracking mutations *)
  realm_generator ← perform (New_Generator "main");
  set_realm (set_generator realm_generator) ;;
  this_logger ← perform (New_Logger (internalDebug serializerOptions));
  this_statistics ← perform New_SerializerStatistics;
  this_modules ← perform (New_Modules this_logger this_statistics
                    (logModules serializerOptions)
                    (delayUnsupportedRequires serializerOptions)
                    (accelerateUnsupportedRequires serializerOptions));
  this_functions ← perform (New_Functions this_modules);
  when (trace serializerOptions)
    (tracer ← perform New_LoggingTracer; set_realm (push_tracer tracer)) ;;
  this_react ← perform New_ReactSerializerState;
  ret {| logger := this_logger; statistics := this_statistics;
         modules := this_modules; functions := this_functions;
         options := serializerOptions; react := this_react |}.

(** The diagnostic of line 94. *)
Definition abrupt_diagnostic (location : option SourceLocation) : CompilerDiagnostic :=
  {| message := "Global code may end abruptly"; diag_location := location;
     errorCode := "PP0016"; severity := "FatalError" |}.

(** [_execute(sources)] (lines 72-99) *)
Definition _execute (this : Serializer) (sources : list SourceFile) : M Code :=
  res_code ← executeSources sources "script" reserve_identifiers;
  match fst res_code with
  | AbruptCompletion location _ =>
      context ← perform New_ExecutionContext;
      perform (Realm_pushContext context) ;;
      try_finally
        (perform (Logger_logCompletion (logger this) (fst res_code)))
        (perform (Realm_popContext context)) ;;
      perform (Realm_handleError (abrupt_diagnostic location)) ;;
      throw FatalError
  | NormalValue _ => ret (snd res_code)
  end.

(** The arguments both serializer constructions of [init] pass. *)
Definition serializer_args (this : Serializer)
    (residualHeapValueIdentifiers residualHeapVisitor
     additionalFunctionValuesAndEffects referentializer : Obj) : SerializerArgs :=
  {| sa_logger := logger this;
     sa_modules := modules this;
     sa_residualHeapValueIdentifiers := residualHeapValueIdentifiers;
     sa_visitor := residualHeapVisitor;
     sa_options := options this;
     sa_additionalFunctionValuesAndEffects := additionalFunctionValuesAndEffects;
     sa_statistics := statistics this;
     sa_react := react this;
     sa_referentializer := referentializer |}.

(** Line 226: the class of the serializer of the final pass. *)
Definition TargetSerializer (o : SerializerOptions) : SerializerClass :=
  match lazyObjectsRuntime o with
  | Some _ => LazyObjectsSerializer
  | None => ResidualHeapSerializer
  end.

(** Lines 168-191: the optional heap graph. *)
Definition build_heapGraph (this : Serializer)
    (additionalFunctionValuesAndEffects referentializer
     residualHeapValueIdentifiers : Obj) : M (option string) :=
  match heapGraphFormat (options this) with
  | Some format =>
      heapRefCounter ← perform (New_ResidualHeapRefCounter (logger this) (modules this)
                          additionalFunctionValuesAndEffects referentializer);
      perform (ResidualHeapRefCounter_visitRoots heapRefCounter) ;;
      refCounts ← perform (ResidualHeapRefCounter_getResult heapRefCounter);
      heapGraphGenerator ← perform (New_ResidualHeapGraphGenerator (logger this)
                              (modules this) additionalFunctionValuesAndEffects
                              residualHeapValueIdentifiers refCounts referentializer);
      perform (ResidualHeapGraphGenerator_visitRoots heapGraphGenerator) ;;
      invariant (bool_decide (is_Some (heapGraphFormat (options this)))) ;;
      graph ← perform (ResidualHeapGraphGenerator_generateResult heapGraphGenerator format);
      ret (Some graph)
  | None => ret None
  end.

(** Lines 196-222: the dry run that gathers reference counts. *)
Definition reference_counts_pass (this : Serializer)
    (residualHeapValueIdentifiers residualHeapVisitor
     additionalFunctionValuesAndEffects referentializer : Obj) : M unit :=
  when (inlineExpressions (options this))
    (stamp set_referenceCountsTime ;;
     perform (ResidualHeapValueIdentifiers_initPass1 residualHeapValueIdentifiers) ;;
     dryRun ← perform (New_Serializer ResidualHeapSerializer
                  (serializer_args this residualHeapValueIdentifiers residualHeapVisitor
                     additionalFunctionValuesAndEffects referentializer));
     perform (Serializer_serialize dryRun) ;;
     return_if_errors (logger this) AfterPass1 ;;
     stamp (λ now t, set_referenceCountsTime (now - referenceCountsTime t) t) ;;
     perform (ResidualHeapValueIdentifiers_initPass2 residualHeapValueIdentifiers)).

(** Lines 225-268: the final pass, the text emitter and the result. *)
Definition serialize_pass (this : Serializer) (code : Code) (sourceMaps : bool)
    (reactStatistics : option Obj) (heapGraph : option string)
    (residualHeapValueIdentifiers residualHeapVisitor
     additionalFunctionValuesAndEffects referentializer : Obj)
    : M (option SerializedResult) :=
  stamp set_serializePassTime ;;
  residualHeapSerializer ← perform (New_Serializer (TargetSerializer (options this))
                  (serializer_args this residualHeapValueIdentifiers residualHeapVisitor
                     additionalFunctionValuesAndEffects referentializer));
  ast ← perform (Serializer_serialize residualHeapSerializer);
  strip ← gets (λ w, stripFlow (realm w));
  when strip (perform (stripFlowTypeAnnotations ast)) ;;
  generated ← perform (generate ast sourceMaps code);
  stamp (λ now t, set_serializePassTime (now - serializePassTime t) t) ;;
  stamp (λ now t, set_totalTime (now - totalTime t) t) ;;
  invariant_no_errors (logger this) ;;
  when (logStatistics (options this))
    (toLog ← gets (statistics_of residualHeapSerializer);
     perform (Statistics_log toLog)) ;;
  serializerStatistics ← gets (statistics_of residualHeapSerializer);
  timing ← get_timingStats;
  ret (Some {| result_code := gen_code generated;
               result_map := gen_map generated;
               result_reactStatistics := reactStatistics;
               result_statistics := serializerStatistics;
               result_timingStats := timing;
               result_heapGraph := heapGraph |}).

(** Lines 113-268: what [init] does once it has recorded the value of the
    counter of environment records. *)
Definition init_with_cutoff (this : Serializer) (code : Code) (sourceMaps : bool)
    (environmentRecordIdAfterGlobalCode : nat) : M (option SerializedResult) :=
  stamp (λ now t, set_globalCodeTime (now - globalCodeTime t) t) ;;
  return_if_errors (logger this) AfterExecution ;;
  perform (Modules_resolveInitializedModules (modules this)) ;;
  perform (Functions_checkThatFunctionsAreIndependent (functions this)
             environmentRecordIdAfterGlobalCode) ;;
  reactEnabled ← gets (λ w, enabled (realm_react (realm w)));
  reactStatistics ←
    (if reactEnabled then
       created ← perform New_ReactStatistics;
       perform (Functions_optimizeReactComponentTreeRoots (functions this) created
                  (react this) environmentRecordIdAfterGlobalCode) ;;
       ret (Some created)
     else ret None);
  when (initializeMoreModules (options this))
    (stamp set_initializeMoreModulesTime ;;
     perform (Modules_initializeMoreModules (modules this)) ;;
     return_if_errors (logger this) AfterInitializeMoreModules ;;
     stamp (λ now t, set_initializeMoreModulesTime (now - initializeMoreModulesTime t) t)) ;;
  additionalFunctionValuesAndEffects ←
    perform (Functions_getAdditionalFunctionValuesToEffects (functions this));
  (* Deep traversal of the heap to identify the necessary scope of residual functions *)
  stamp set_deepTraversalTime ;;
  preludeGenerator' ← gets (λ w, preludeGenerator (realm w));
  invariant (bool_decide (is_Some preludeGenerator')) ;;
  scopeNameGenerator ← perform (PreludeGenerator_createNameGenerator "__scope_");
  referentializedNameGenerator ← perform (PreludeGenerator_createNameGenerator "$");
  referentializer ← perform (New_Referentializer (options this) scopeNameGenerator
                      referentializedNameGenerator (statistics this));
  verbose1 ← gets (λ w, verbose (realm_react (realm w)));
  when verbose1
    (perform (Logger_logInformation (logger this) "Visiting evaluated nodes...")) ;;
  residualHeapVisitor ← perform (New_ResidualHeapVisitor (logger this) (modules this)
                           additionalFunctionValuesAndEffects referentializer);
  perform (ResidualHeapVisitor_visitRoots residualHeapVisitor) ;;
  return_if_errors (logger this) AfterHeapVisitation ;;
  stamp (λ now t, set_deepTraversalTime (now - deepTraversalTime t) t) ;;
  verbose2 ← gets (λ w, verbose (realm_react (realm w)));
  when verbose2
    (perform (Logger_logInformation (logger this) "Serializing evaluated nodes...")) ;;
  realmPreludeGenerator ← gets (λ w, preludeGenerator (realm w));
  invariant (bool_decide (is_Some realmPreludeGenerator)) ;;
  residualHeapValueIdentifiers ←
    perform (New_ResidualHeapValueIdentifiers residualHeapVisitor);
  heapGraph ← build_heapGraph this additionalFunctionValuesAndEffects referentializer
                residualHeapValueIdentifiers;
  (* Phase 2: Let's serialize the heap and generate code. *)
  reference_counts_pass this residualHeapValueIdentifiers residualHeapVisitor
    additionalFunctionValuesAndEffects referentializer ;;
  serialize_pass this code sourceMaps reactStatistics heapGraph
    residualHeapValueIdentifiers residualHeapVisitor
    additionalFunctionValuesAndEffects referentializer.

(** Lines 112-268: what [init] does once [_execute] has returned [code]. *)
Definition init_after_execute (this : Serializer) (code : Code) (sourceMaps : bool)
    : M (option SerializedResult) :=
  environmentRecordIdAfterGlobalCode ← gets EnvironmentRecord_nextId;
  init_with_cutoff this code sourceMaps environmentRecordIdAfterGlobalCode.

(** Lines 103-110: what [init] does before it calls [_execute]. *)
Definition init_before_execute (this : Serializer) : M unit :=
  (* Phase 1: Let's interpret. *)
  declare_timingStats (profile (options this)) ;;
  stamp set_totalTime ;;
  stamp set_globalCodeTime ;;
  verbose0 ← gets (λ w, verbose (realm_react (realm w)));
  when verbose0
    (perform (Logger_logInformation (logger this) "Evaluating initialization path...")).

(** [init(sources, sourceMaps)] (lines 101-269) *)
Definition init (this : Serializer) (sources : list SourceFile) (sourceMaps : bool)
    : M (option SerializedResult) :=
  function_body
    (init_before_execute this ;;
     code ← _execute this sources;
     init_after_execute this code sourceMaps).

(** ** Vocabulary of the statements *)

(** How a call on a collaborator ends, seen from the method body. *)
Definition result_of {R} (o : Outcome R) : Result R :=
  match o with Returns r => Ok r | Throws e => Throw e end.

(** [emits m Φ]: whatever the state, [m] only appends to the call log, and
    the events it appends and the way it ends satisfy [Φ]. *)
Definition emits {A} (m : M A) (Φ : list Event → Result A → Prop) : Prop :=
  ∀ s, ∃ evs, log (snd (m s)) = log s ++ evs ∧ Φ evs (fst (m s)).

(** [silent m]: [m] leaves the call log alone. *)
Definition silent {A} (m : M A) : Prop := ∀ s, log (snd (m s)) = log s.

(** A property of (events, result) is compositional when it holds of a
    piece of code as soon as it holds of its parts. *)
Class Compositional (J : ∀ A, list Event → Result A → Prop) := {
  comp_nil : ∀ A (r : Result A), J A [] r;
  comp_seq : ∀ A B e1 (a : A) e2 (r : Result B),
    J A e1 (Ok a) → J B e2 r → J B (e1 ++ e2) r;
  comp_throw : ∀ A B e1 e, J A e1 (Throw e) → J B e1 (Throw e);
  comp_return : ∀ A B e1, J A e1 ReturnUndefined → J B e1 ReturnUndefined
}.

(** [sat J m]: [m] satisfies the compositional property [J]. *)
Definition sat (J : ∀ A, list Event → Result A → Prop) {A} (m : M A) : Prop :=
  emits m (J A).

(** How [try { perform c1 } finally { perform c2 }] ends. *)
Definition finally_result {A} (o1 : Outcome A) (o2 : Outcome unit) : Result A :=
  match o2 with
  | Returns _ => result_of o1
  | Throws e => Throw e
  end.

(** The compositional property "every event is [good]". *)
Definition Every (good : Event → Prop) : ∀ A, list Event → Result A → Prop :=
  λ A evs _, Forall good evs.

(** The names in the forbidden set of the realm's prelude generator. *)
Definition forbiddenNames_of (w : World Heap) : gset string :=
  match preludeGenerator (realm w) with
  | Some p => forbiddenNames (nameGenerator p)
  | None => ∅
  end.

Definition keeps (P : World Heap → Prop) {A} (m : M A) : Prop :=
  ∀ s, P (world s) → P (world (snd (m s))).

(** What the protocol of lines 86-97 demands of the events [evs] logged
    after the interpreter returned the abrupt completion [res], and of the
    exception [e] that ends [_execute]. *)
Definition abrupt_protocol (this : Serializer) (res : Completion)
    (location : option SourceLocation) (evs : list Event) (e : Exn) : Prop :=
  Forall (λ ev, abrupt_handling ev = true) evs ∧
  (Forall (λ ev, logs_completion ev = false) evs ∨
   ∃ context o o' rest,
     evs = ECall New_ExecutionContext (Returns context)
           :: ECall (Realm_pushContext context) (Returns tt)
           :: ECall (Logger_logCompletion (logger this) res) o
           :: ECall (Realm_popContext context) o' :: rest) ∧
  (Forall (λ ev, threw ev = false) evs →
     e = FatalError ∧
     ∃ context,
       evs = [ECall New_ExecutionContext (Returns context);
              ECall (Realm_pushContext context) (Returns tt);
              ECall (Logger_logCompletion (logger this) res) (Returns tt);
              ECall (Realm_popContext context) (Returns tt);
              ECall (Realm_handleError
                       {| message := "Global code may end abruptly";
                          diag_location := location;
                          errorCode := "PP0016";
                          severity := "FatalError" |}) (Returns tt)]).

(** [yields m Φ]: when [m] ends normally with value [a], the events [evs]
    it appended to the log satisfy [Φ a evs]. *)
Definition yields {A} (m : M A) (Φ : A → list Event → Prop) : Prop :=
  ∀ s a, fst (m s) = Ok a →
    ∃ evs, log (snd (m s)) = log s ++ evs ∧ Φ a evs.

(** The events of an optional step. *)
Definition optional (b : bool) (evs : list Event) : list Event :=
  if b then evs else [].

(** Lines 118-121. *)
Definition react_calls (this : Serializer) (cutoff : nat) (reactStatistics : option Obj)
    : list Event :=
  match reactStatistics with
  | Some created =>
      [ECall New_ReactStatistics (Returns created);
       ECall (Functions_optimizeReactComponentTreeRoots (functions this) created
                (react this) cutoff) (Returns tt)]
  | None => []
  end.

(** Lines 169-191. *)
Definition heapGraph_calls (this : Serializer) (afve rf ids : Obj)
    (format : HeapGraphFormat) (counter refCounts graphGenerator : Obj) (graph : string)
    : list Event :=
  [ECall (New_ResidualHeapRefCounter (logger this) (modules this) afve rf) (Returns counter);
   ECall (ResidualHeapRefCounter_visitRoots counter) (Returns tt);
   ECall (ResidualHeapRefCounter_getResult counter) (Returns refCounts);
   ECall (New_ResidualHeapGraphGenerator (logger this) (modules this) afve ids refCounts rf)
     (Returns graphGenerator);
   ECall (ResidualHeapGraphGenerator_visitRoots graphGenerator) (Returns tt);
   ECall (ResidualHeapGraphGenerator_generateResult graphGenerator format) (Returns graph)].

Definition heapGraph_post (this : Serializer) (afve rf ids : Obj)
    (heapGraph : option string) (evs : list Event) : Prop :=
  match heapGraphFormat (options this) with
  | Some format =>
      ∃ counter refCounts graphGenerator graph,
        evs = heapGraph_calls this afve rf ids format counter refCounts graphGenerator graph ∧
        heapGraph = Some graph
  | None => evs = [] ∧ heapGraph = None
  end.

(** Lines 197-221. *)
Definition pass1_calls (this : Serializer) (ids vis afve rf : Obj) (dryRun dryAst : Obj)
    : list Event :=
  [ECall (ResidualHeapValueIdentifiers_initPass1 ids) (Returns tt);
   ECall (New_Serializer ResidualHeapSerializer (serializer_args this ids vis afve rf))
     (Returns dryRun);
   ECall (Serializer_serialize dryRun) (Returns dryAst);
   ECheck AfterPass1 false;
   ECall (ResidualHeapValueIdentifiers_initPass2 ids) (Returns tt)].

Definition pass1_post (this : Serializer) (ids vis afve rf : Obj) (evs : list Event) : Prop :=
  if inlineExpressions (options this)
  then ∃ dryRun dryAst, evs = pass1_calls this ids vis afve rf dryRun dryAst
  else evs = [].

(** Lines 227-260. *)
Definition pass2_calls (this : Serializer) (code : Code) (sourceMaps : bool)
    (ids vis afve rf : Obj) (serializer ast : Obj) (strip : bool) (generated : Generated)
    (logged : Obj) : list Event :=
  [ECall (New_Serializer (TargetSerializer (options this))
            (serializer_args this ids vis afve rf)) (Returns serializer);
   ECall (Serializer_serialize serializer) (Returns ast)] ++
  optional strip [ECall (stripFlowTypeAnnotations ast) (Returns tt)] ++
  [ECall (generate ast sourceMaps code) (Returns generated);
   ECheck BeforeReturn false] ++
  optional (logStatistics (options this)) [ECall (Statistics_log logged) (Returns tt)].

Definition pass2_post (this : Serializer) (code : Code) (sourceMaps : bool)
    (reactStatistics : option Obj) (heapGraph : option string) (ids vis afve rf : Obj)
    (result : option SerializedResult) (evs : list Event) : Prop :=
  ∃ serializer ast strip generated logged serializerStatistics timing,
    evs = pass2_calls this code sourceMaps ids vis afve rf serializer ast strip
            generated logged ∧
    result = Some {| result_code := gen_code generated;
                     result_map := gen_map generated;
                     result_reactStatistics := reactStatistics;
                     result_statistics := serializerStatistics;
                     result_timingStats := timing;
                     result_heapGraph := heapGraph |}.

(** Lines 113-268: the events of a run of [init_with_cutoff] that ends
    normally, and its result. *)
Definition pipeline_post (this : Serializer) (code : Code) (sourceMaps : bool)
    (cutoff : nat) (result : option SerializedResult) (evs : list Event) : Prop :=
  ∃ reactStatistics afve scopeNames referentializedNames rf verbose1 vis verbose2 ids
    heapGraph graphEvents pass1Events pass2Events,
    evs =
      [ECheck AfterExecution false;
       ECall (Modules_resolveInitializedModules (modules this)) (Returns tt);
       ECall (Functions_checkThatFunctionsAreIndependent (functions this) cutoff)
         (Returns tt)] ++
      react_calls this cutoff reactStatistics ++
      optional (initializeMoreModules (options this))
        [ECall (Modules_initializeMoreModules (modules this)) (Returns tt);
         ECheck AfterInitializeMoreModules false] ++
      [ECall (Functions_getAdditionalFunctionValuesToEffects (functions this))
         (Returns afve);
       ECall (PreludeGenerator_createNameGenerator "__scope_") (Returns scopeNames);
       ECall (PreludeGenerator_createNameGenerator "$") (Returns referentializedNames);
       ECall (New_Referentializer (options this) scopeNames referentializedNames
                (statistics this)) (Returns rf)] ++
      optional verbose1
        [ECall (Logger_logInformation (logger this) "Visiting evaluated nodes...")
           (Returns tt)] ++
      [ECall (New_ResidualHeapVisitor (logger this) (modules this) afve rf) (Returns vis);
       ECall (ResidualHeapVisitor_visitRoots vis) (Returns tt);
       ECheck AfterHeapVisitation false] ++
      optional verbose2
        [ECall (Logger_logInformation (logger this) "Serializing evaluated nodes...")
           (Returns tt)] ++
      [ECall (New_ResidualHeapValueIdentifiers vis) (Returns ids)] ++
      graphEvents ++ pass1Events ++ pass2Events ∧
    heapGraph_post this afve rf ids heapGraph graphEvents ∧
    pass1_post this ids vis afve rf pass1Events ∧
    pass2_post this code sourceMaps reactStatistics heapGraph ids vis afve rf
      result pass2Events.

(** Lines 101-269: the events of a run of [init] that returns [result]. *)
Definition init_post (this : Serializer) (sources : list SourceFile) (sourceMaps : bool)
    (result : option SerializedResult) (evs : list Event) : Prop :=
  ∃ verbose0 asts value code cutoff pipeline,
    evs =
      optional verbose0
        [ECall (Logger_logInformation (logger this) "Evaluating initialization path...")
           (Returns tt)] ++
      [ECall (GlobalEnv_parse sources "script") (Returns (asts, code));
       ECall (GlobalEnv_evaluate asts) (Returns (NormalValue value))] ++
      pipeline ∧
    pipeline_post this code sourceMaps cutoff result pipeline.

(** Compositional: a true error checkpoint ends the body by
    [return undefined], and no body that read errors ends normally. *)
Definition Checked : ∀ A, list Event → Result A → Prop := λ A evs r,
  (Exists (λ e, error_checkpoint e = true) evs → r = ReturnUndefined) ∧
  (Exists (λ e, reads_errors e = true) evs → ∀ a, r ≠ Ok a).

(** [ends_clean lg m]: when [m] returns a result, the logger has no error
    in the state it ends in. *)
Definition ends_clean (lg : Obj) (m : M (option SerializedResult)) : Prop :=
  ∀ s res, fst (m s) = Ok (Some res) → hasErrors lg (world (snd (m s))) = false.

(** No event of the two-pass protocol, no serializer. *)
Definition before_passes (e : Event) : Prop :=
  two_pass_event e = false ∧ serializer_event e = false.

(** Sorted, and within bounds. *)
Definition between (lo hi : nat) (l : list nat) : Prop :=
  StronglySorted le l ∧ Forall (λ r, lo ≤ r ≤ hi) l.

(** [ranked lo hi m]: the phases of the events of [m] come in the order of
    the code and lie between [lo] and [hi]. *)
Definition ranked (lo hi : nat) {A} (m : M A) : Prop :=
  lo ≤ hi ∧ emits m (λ evs _, between lo hi (code_order <$> omap phase_of evs)).

(** Both runs profile, or neither does. *)
Definition same_profiling (t1 t2 : option TimingStatistics) : Prop :=
  match t1, t2 with
  | Some _, Some _ | None, None => True
  | _, _ => False
  end.

(** Two states with the same world; when [exact], also with the same clock
    and the same timing statistics, otherwise only both profiling or both
    not.  The call logs are left out. *)
Definition same_setting (exact : bool) (s1 s2 : St Heap) : Prop :=
  world s1 = world s2 ∧
  if exact then clock s1 = clock s2 ∧ timingStats s1 = timingStats s2
  else same_profiling (timingStats s1) (timingStats s2).

(** Two ways of ending that agree, up to [RA] on the values. *)
Definition result_rel {A} (RA : A → A → Prop) (r1 r2 : Result A) : Prop :=
  match r1, r2 with
  | Ok a1, Ok a2 => RA a1 a2
  | Throw e1, Throw e2 => e1 = e2
  | ReturnUndefined, ReturnUndefined => True
  | _, _ => False
  end.

(** [related exact RA m1 m2]: from states with the same setting, [m1] and
    [m2] end the same way, up to [RA], in states with the same setting. *)
Definition related (exact : bool) {A} (RA : A → A → Prop) (m1 m2 : M A) : Prop :=
  ∀ s1 s2, same_setting exact s1 s2 →
    result_rel RA (fst (m1 s1)) (fst (m2 s2)) ∧
    same_setting exact (snd (m1 s1)) (snd (m2 s2)).

(** A result without its timing statistics. *)
Definition without_timing (res : SerializedResult) : SerializedResult :=
  {| result_code := result_code res;
     result_map := result_map res;
     result_reactStatistics := result_reactStatistics res;
     result_statistics := result_statistics res;
     result_timingStats := None;
     result_heapGraph := result_heapGraph res |}.

(** The same optional result, but for the timing statistics. *)
Definition same_but_timing (o1 o2 : option SerializedResult) : Prop :=
  without_timing <$> o1 = without_timing <$> o2.

(** The source text [init] returns, if it returns a result. *)
Definition emitted_text (r : Result (option SerializedResult)) : option string :=
  match r with
  | Ok (Some res) => Some (result_code res)
  | _ => None
  end.

(** The state in which a run starts: a world, a wall clock, an empty log. *)
Definition start (w : World Heap) (c : nat → Z) : St Heap :=
  {| world := w; clock := c; timingStats := None; log := [] |}.




(** The calls of lines 170-190. *)
Definition heapGraph_call {R} (c : Call R) : bool :=
  match c with
  | New_ResidualHeapRefCounter _ _ _ _ | ResidualHeapRefCounter_visitRoots _
  | ResidualHeapRefCounter_getResult _ | New_ResidualHeapGraphGenerator _ _ _ _ _ _
  | ResidualHeapGraphGenerator_visitRoots _
  | ResidualHeapGraphGenerator_generateResult _ _ => true
  | _ => false
  end.




(** The exception a collaborator call ended by, if it threw. *)
Definition thrown_by (e : Event) : option Exn :=
  match e with
  | ECall _ (Throws y) => Some y
  | _ => None
  end.

(** A call of [realm.popContext]. *)
Definition pops_context (e : Event) : bool :=
  match e with
  | ECall (Realm_popContext _) _ => true
  | _ => false
  end.

(** Compositional: an event that read errors is the last one, and the body
    does not end normally. *)
Definition StopsAtErrors : ∀ A, list Event → Result A → Prop := λ A evs r,
  ∀ pre e post, evs = pre ++ e :: post → reads_errors e = true →
    post = [] ∧ ∀ a, r ≠ Ok a.

(** Compositional: after a call that threw, the body calls nothing but
    [realm.popContext], and it ends by an exception: the one of the last
    call that threw. *)
Definition NeverCatches : ∀ A, list Event → Result A → Prop := λ A evs r,
  ∀ pre e post y, evs = pre ++ e :: post → thrown_by e = Some y →
    Forall (λ e', pops_context e' = true) post ∧
    ∃ x, r = Throw x ∧ (Forall (λ e', thrown_by e' = None) post → x = y).

(** [triple P Q X m Φ]: from a state that meets [P], when [m] ends normally
    the state meets [Q] and the value meets [Φ]; when it ends by an exception
    [e] the state meets [X (Some e)], and by [return undefined], [X None]. *)
Definition triple (P Q : St Heap → Prop) (X : option Exn → St Heap → Prop)
    {A} (m : M A) (Φ : A → Prop) : Prop :=
  ∀ s, P s →
    match fst (m s) with
    | Ok a => Q (snd (m s)) ∧ Φ a
    | Throw e => X (Some e) (snd (m s))
    | ReturnUndefined => X None (snd (m s))
    end.

(** The state after a collaborator call that ended by [o] in world [w]. *)
Definition called {R} (s : St Heap) (c : Call R) (o : Outcome R) (w : World Heap)
    : St Heap :=
  {| world := w; clock := clock s; timingStats := timingStats s;
     log := log s ++ [ECall c o] |}.

(** The state after [hasErrors()] read [b] at checkpoint [cp]. *)
Definition checked (s : St Heap) (cp : Checkpoint) (b : bool) : St Heap :=
  {| world := world s; clock := clock s; timingStats := timingStats s;
     log := log s ++ [ECheck cp b] |}.

(** The state after [Date.now()] was read into the timing statistics. *)
Definition stamped (s : St Heap) (t : TimingStatistics) : St Heap :=
  {| world := world s; clock := λ n, clock s (S n);
     timingStats := Some t; log := log s |}.

(** The world [w] once [g] has been assigned to [realm.generator]. *)
Definition installed (g : Obj) (w : World Heap) : World Heap :=
  {| realm := set_generator g (realm w);
     EnvironmentRecord_nextId := EnvironmentRecord_nextId w;
     heap := heap w |}.

(** The state with the realm replaced. *)
Definition with_realm (s : St Heap) (r : Realm) : St Heap :=
  {| world := {| realm := r;
                 EnvironmentRecord_nextId := EnvironmentRecord_nextId (world s);
                 heap := heap (world s) |};
     clock := clock s; timingStats := timingStats s; log := log s |}.

(** [at_time c k t]: [k] readings of the clock [c] have been made, and the
    timing statistics are [t]. *)
Definition at_time (c : nat → Z) (k : nat) (t : TimingStatistics) : St Heap → Prop :=
  λ s, (∀ n, clock s n = c (k + n)) ∧ timingStats s = Some t.

(** No condition on the state an exception or [return undefined] leaves. *)
Definition anyhow : option Exn → St Heap → Prop := λ _ _, True.

(** [since s0 J]: the log is that of [s0] with events [evs] appended, and
    [J] holds of the state and [evs]. *)
Definition since (s0 : St Heap) (J : St Heap → list Event → Prop) : St Heap → Prop :=
  λ s, ∃ evs, log s = log s0 ++ evs ∧ J s evs.

(** The last event of [evs] is [e]. *)
Definition ends_with (evs : list Event) (e : Event) : Prop :=
  ∃ pre, evs = pre ++ [e].

(** The ways [init] can end by an exception [x] after the events [evs], in
    world [w]: [FatalError] right after the diagnostic of line 94 was
    reported; an invariant violation, for want of a prelude generator or
    because the logger has errors at line 259; or what a collaborator threw. *)
Definition thrown_because (x : Exn) (w : World Heap) (evs : list Event) : Prop :=
  (x = FatalError ∧
   ∃ location, ends_with evs (ECall (Realm_handleError (abrupt_diagnostic location))
                                (Returns tt))) ∨
  (x = InvariantViolation ∧
   (preludeGenerator (realm w) = None ∨ ends_with evs (ECheck BeforeReturn true))) ∨
  Exists (λ e, thrown_by e = Some x) evs.

(** An evaluation of a program of at least one tree. *)
Definition evaluates_a_tree (e : Event) : bool :=
  match e with
  | ECall (GlobalEnv_evaluate (_ :: _)) _ => true
  | _ => false
  end.

(** The calls [init] makes after the check of line 136. *)
Definition after_prelude_check (e : Event) : bool :=
  match e with
  | ECall c _ =>
      match c with
      | PreludeGenerator_createNameGenerator _ | New_Referentializer _ _ _ _
      | New_ResidualHeapVisitor _ _ _ _ | ResidualHeapVisitor_visitRoots _
      | New_ResidualHeapValueIdentifiers _
      | New_ResidualHeapRefCounter _ _ _ _ | ResidualHeapRefCounter_visitRoots _
      | ResidualHeapRefCounter_getResult _ | New_ResidualHeapGraphGenerator _ _ _ _ _ _
      | ResidualHeapGraphGenerator_visitRoots _
      | ResidualHeapGraphGenerator_generateResult _ _
      | ResidualHeapValueIdentifiers_initPass1 _ | ResidualHeapValueIdentifiers_initPass2 _
      | New_Serializer _ _ | Serializer_serialize _ | stripFlowTypeAnnotations _
      | generate _ _ _ | Statistics_log _ => true
      | _ => false
      end
  | ECheck AfterHeapVisitation _ | ECheck AfterPass1 _ | ECheck BeforeReturn _ => true
  | ECheck _ _ => false
  end.

(** The tracers a list of events created. *)
Definition logged_tracers (evs : list Event) : list Obj :=
  omap (λ e, match e with
             | ECall New_LoggingTracer (Returns tracer) => Some tracer
             | _ => None
             end) evs.

(** The calls of a constructor call that returns [this] (lines 42-61), in
    order; [realm_generator] is the generator it installs and [tracer] the
    logging tracer, if one was asked for. *)
Definition constructor_calls (serializerOptions : SerializerOptions) (this : Serializer)
    (realm_generator tracer : Obj) : list Event :=
  [ECall (New_Generator "main") (Returns realm_generator);
   ECall (New_Logger (internalDebug serializerOptions)) (Returns (logger this));
   ECall New_SerializerStatistics (Returns (statistics this));
   ECall (New_Modules (logger this) (statistics this)
            (logModules serializerOptions)
            (delayUnsupportedRequires serializerOptions)
            (accelerateUnsupportedRequires serializerOptions)) (Returns (modules this));
   ECall (New_Functions (modules this)) (Returns (functions this))] ++
  optional (trace serializerOptions) [ECall New_LoggingTracer (Returns tracer)] ++
  [ECall New_ReactSerializerState (Returns (react this))].

(** An event of the heap-graph build of lines 169-191. *)
Definition builds_heapGraph (e : Event) : bool :=
  match e with
  | ECall c _ => heapGraph_call c
  | ECheck _ _ => false
  end.

(** [inside evs part Φ]: [part] is a run of consecutive events of [evs], and
    [Φ] holds of the events before and after it. *)
Definition inside (evs part : list Event) (Φ : list Event → list Event → Prop) : Prop :=
  ∃ before after, evs = before ++ part ++ after ∧ Φ before after.

(** Lines 131-143: the effects of the additional functions are fetched, the
    two name generators are created, and the referentializer gets them. *)
Definition referentializer_calls (this : Serializer)
    (afve scopeNames referentializedNames rf : Obj) : list Event :=
  [ECall (Functions_getAdditionalFunctionValuesToEffects (functions this)) (Returns afve);
   ECall (PreludeGenerator_createNameGenerator "__scope_") (Returns scopeNames);
   ECall (PreludeGenerator_createNameGenerator "$") (Returns referentializedNames);
   ECall (New_Referentializer (options this) scopeNames referentializedNames
            (statistics this)) (Returns rf)].

(** Two states that differ at most in the forbidden names, of which the
    second has at least those of the first. *)
Definition only_more_forbiddenNames (s s' : St Heap) : Prop :=
  log s' = log s ∧ clock s' = clock s ∧ timingStats s' = timingStats s ∧
  heap (world s') = heap (world s) ∧
  EnvironmentRecord_nextId (world s') = EnvironmentRecord_nextId (world s) ∧
  useAbstractInterpretation (realm (world s')) =
    useAbstractInterpretation (realm (world s)) ∧
  generator (realm (world s')) = generator (realm (world s)) ∧
  tracers (realm (world s')) = tracers (realm (world s)) ∧
  realm_react (realm (world s')) = realm_react (realm (world s)) ∧
  stripFlow (realm (world s')) = stripFlow (realm (world s)) ∧
  (is_Some (preludeGenerator (realm (world s'))) ↔
   is_Some (preludeGenerator (realm (world s)))) ∧
  forbiddenNames_of (world s) ⊆ forbiddenNames_of (world s').

(** An event of the optional step of lines 123-129. *)
Definition initializes_more_modules (e : Event) : bool :=
  match e with
  | ECall (Modules_initializeMoreModules _) _ | ECheck AfterInitializeMoreModules _ => true
  | _ => false
  end.

(** A call of [statistics.log()]. *)
Definition logs_statistics (e : Event) : bool :=
  match e with
  | ECall (Statistics_log _) _ => true
  | _ => false
  end.

(** A call of [stripFlowTypeAnnotations]. *)
Definition strips_types (e : Event) : bool :=
  match e with
  | ECall (stripFlowTypeAnnotations _) _ => true
  | _ => false
  end.

(** A call of [logger.logInformation]. *)
Definition logs_information (e : Event) : bool :=
  match e with
  | ECall (Logger_logInformation _ _) _ => true
  | _ => false
  end.

(** A call of the React step of lines 118-121. *)
Definition optimizes_react (e : Event) : bool :=
  match e with
  | ECall New_ReactStatistics _
  | ECall (Functions_optimizeReactComponentTreeRoots _ _ _ _) _ => true
  | _ => false
  end.

(** The events [evs] respect the flags of the realm: no type stripping
    unless [strip], no message unless [verbose0], no React step unless
    [enabled0]. *)
Definition respects_flags (strip verbose0 enabled0 : bool) (evs : list Event) : Prop :=
  (strip = false → Forall (λ e, strips_types e = false) evs) ∧
  (verbose0 = false → Forall (λ e, logs_information e = false) evs) ∧
  (enabled0 = false → Forall (λ e, optimizes_react e = false) evs).






(** ** Running a sequence *)

Lemma bind_Ok {A B} (m : M A) (f : A → M B) s a s1 :
  m s = (Ok a, s1) → bind m f s = f a s1.
Proof. intros Hm. unfold bind. by rewrite Hm. Qed.

Lemma bind_perform {R B} (c : Call R) (f : R → M B) s :
  bind (perform c) f s =
    match fst (handle R c (world s)) with
    | Returns r => f r (called s c (Returns r) (snd (handle R c (world s))))
    | Throws e => (Throw e, called s c (Throws e) (snd (handle R c (world s))))
    end.
Proof.
  unfold bind, perform, called. simpl.
  by destruct (fst (handle R c (world s))).
Qed.

Lemma bind_Throw {A B} (m : M A) (f : A → M B) s e s1 :
  m s = (Throw e, s1) → bind m f s = (Throw e, s1).
Proof. intros Hm. unfold bind. by rewrite Hm. Qed.

Lemma bind_ReturnUndefined {A B} (m : M A) (f : A → M B) s s1 :
  m s = (ReturnUndefined, s1) → bind m f s = (ReturnUndefined, s1).
Proof. intros Hm. unfold bind. by rewrite Hm. Qed.

(** ** Reasoning about call logs *)

Lemma emits_weaken {A} (m : M A) (Φ Ψ : list Event → Result A → Prop) :
  emits m Φ → (∀ evs r, Φ evs r → Ψ evs r) → emits m Ψ.
Proof.
  intros Hm Himp s. destruct (Hm s) as (evs & Hlog & HΦ). eauto.
Qed.

Lemma emits_bind {A B} (m : M A) (f : A → M B)
    (Φ : list Event → Result A → Prop) (Ψ Ξ : list Event → Result B → Prop) :
  emits m Φ → (∀ a, emits (f a) Ψ) →
  (∀ e1 a e2 r, Φ e1 (Ok a) → Ψ e2 r → Ξ (e1 ++ e2) r) →
  (∀ e1 e, Φ e1 (Throw e) → Ξ e1 (Throw e)) →
  (∀ e1, Φ e1 ReturnUndefined → Ξ e1 ReturnUndefined) →
  emits (bind m f) Ξ.
Proof.
  intros Hm Hf Hseq Hthrow Hreturn s.
  destruct (Hm s) as (e1 & Hlog1 & HΦ). unfold bind.
  destruct (fst (m s)) as [a| e |].
  - destruct (Hf a (snd (m s))) as (e2 & Hlog2 & HΨ).
    exists (e1 ++ e2). split; [ | by eauto].
    by rewrite Hlog2, Hlog1, app_assoc.
  - exists e1. eauto.
  - exists e1. eauto.
Qed.

Lemma emits_silent {A} (m : M A) (Φ : list Event → Result A → Prop) :
  silent m → (∀ r, Φ [] r) → emits m Φ.
Proof.
  intros Hm HΦ s. exists []. by rewrite Hm, app_nil_r.
Qed.

Lemma emits_perform {R} (c : Call R) (Φ : list Event → Result R → Prop) :
  (∀ o, Φ [ECall c o] (result_of o)) → emits (perform c) Φ.
Proof. intros HΦ s. eexists. split; [reflexivity | apply HΦ]. Qed.

Lemma emits_return_if_errors lg cp (Φ : list Event → Result unit → Prop) :
  (∀ b : bool, Φ [ECheck cp b] (if b then ReturnUndefined else Ok tt)) →
  emits (return_if_errors lg cp) Φ.
Proof. intros HΦ s. eexists. split; [reflexivity | apply HΦ]. Qed.

Lemma emits_invariant_no_errors lg (Φ : list Event → Result unit → Prop) :
  (∀ b : bool, Φ [ECheck BeforeReturn b] (if b then Throw InvariantViolation else Ok tt)) →
  emits (invariant_no_errors lg) Φ.
Proof. intros HΦ s. eexists. split; [reflexivity | apply HΦ]. Qed.

(** The code that never touches the log. *)
Lemma silent_ret {A} (a : A) : silent (ret a).
Proof. done. Qed.

Lemma silent_throw {A} e : silent (@throw A e).
Proof. done. Qed.

Lemma silent_return_undefined {A} : silent (@return_undefined A).
Proof. done. Qed.

Lemma silent_gets {A} (f : World Heap → A) : silent (gets f).
Proof. done. Qed.

Lemma silent_set_realm f : silent (set_realm f).
Proof. done. Qed.

Lemma silent_invariant b : silent (invariant b).
Proof. by destruct b. Qed.

Lemma silent_declare_timingStats b : silent (declare_timingStats b).
Proof. done. Qed.

Lemma silent_stamp u : silent (stamp u).
Proof. intros s. unfold stamp. by destruct (timingStats s). Qed.

Lemma silent_get_timingStats : silent get_timingStats.
Proof. done. Qed.

Lemma silent_bind {A B} (m : M A) (f : A → M B) :
  silent m → (∀ a, silent (f a)) → silent (bind m f).
Proof.
  intros Hm Hf s. unfold bind. destruct (fst (m s)); simpl; [ | done..].
  by rewrite Hf.
Qed.

Lemma silent_when b m : silent m → silent (when b m).
Proof. by destruct b. Qed.

Lemma silent_for_each {A} (xs : list A) (body : A → M unit) :
  (∀ x, silent (body x)) → silent (for_each xs body).
Proof.
  intros Hbody. induction xs as [|x xs IH]; simpl; [done|].
  by apply silent_bind.
Qed.

(** Induction on a tree that reaches the sub-nodes. *)
Lemma Node_deep_ind (P : Node → Prop) :
  (∀ t x kids, Forall P kids → P (mkNode t x kids)) → ∀ n, P n.
Proof.
  intros Hnode. fix IH 1. intros [t x kids]. apply Hnode.
  induction kids as [|k kids IHkids]; constructor; [apply IH | apply IHkids].
Qed.

Lemma silent_traverseFast node (enter : Node → M bool) :
  (∀ n, silent (enter n)) → silent (traverseFast node enter).
Proof.
  intros Henter. induction node as [t x kids IH] using Node_deep_ind.
  simpl. apply silent_bind; [done|]. intros [|]; [done|].
  induction IH as [|k kids Hk _ IHkids]; [done|].
  apply silent_bind; [done | by intros _].
Qed.

Lemma silent_reserve_identifiers ast : silent (reserve_identifiers ast).
Proof.
  apply silent_bind; [done|]. intros p.
  apply silent_bind; [apply silent_invariant|]. intros _.
  apply silent_traverseFast. intros n. unfold reserve_node.
  destruct (negb (isIdentifier n)); [done|].
  apply silent_bind; [done | by intros _].
Qed.

Section Compositional.

Context (J : ∀ A, list Event → Result A → Prop) `{!Compositional J}.

Local Abbreviation sat := (sat J).

Lemma sat_silent {A} (m : M A) : silent m → sat m.
Proof. intros Hm. apply emits_silent; [done | apply comp_nil]. Qed.

Lemma sat_bind {A B} (m : M A) (f : A → M B) :
  sat m → (∀ a, sat (f a)) → sat (bind m f).
Proof.
  intros Hm Hf. eapply emits_bind; [exact Hm | exact Hf | ..].
  - intros e1 a e2 r. apply comp_seq.
  - intros e1 e. apply comp_throw.
  - intros e1. apply comp_return.
Qed.

Lemma sat_when b m : sat m → sat (when b m).
Proof. destruct b; [done|]. intros _. by apply sat_silent. Qed.

Lemma sat_perform {R} (c : Call R) :
  (∀ o, J R [ECall c o] (result_of o)) → sat (perform c).
Proof. apply emits_perform. Qed.

Lemma sat_return_if_errors lg cp :
  (∀ b : bool, J unit [ECheck cp b] (if b then ReturnUndefined else Ok tt)) →
  sat (return_if_errors lg cp).
Proof. apply emits_return_if_errors. Qed.

Lemma sat_invariant_no_errors lg :
  (∀ b : bool, J unit [ECheck BeforeReturn b]
                 (if b then Throw InvariantViolation else Ok tt)) →
  sat (invariant_no_errors lg).
Proof. apply emits_invariant_no_errors. Qed.

Lemma sat_for_each {A} (xs : list A) (body : A → M unit) :
  (∀ x, sat (body x)) → sat (for_each xs body).
Proof.
  intros Hbody. induction xs as [|x xs IH]; simpl.
  - by apply sat_silent.
  - by apply sat_bind.
Qed.

Lemma emits_try_finally_perform {A} (c1 : Call A) (c2 : Call unit)
    (Φ : list Event → Result A → Prop) :
  (∀ o1 o2, Φ [ECall c1 o1; ECall c2 o2] (finally_result o1 o2)) →
  emits (try_finally (perform c1) (perform c2)) Φ.
Proof.
  intros HΦ s.
  exists [ECall c1 (fst (handle A c1 (world s)));
          ECall c2 (fst (handle unit c2 (snd (handle A c1 (world s)))))].
  split.
  - unfold try_finally. simpl. by rewrite <- app_assoc.
  - unfold try_finally. simpl.
    specialize (HΦ (fst (handle A c1 (world s)))
                   (fst (handle unit c2 (snd (handle A c1 (world s)))))).
    by destruct (fst (handle unit c2 _)).
Qed.

Lemma sat_try_finally_perform {A} (c1 : Call A) (c2 : Call unit) :
  (∀ o1 o2, J A [ECall c1 o1; ECall c2 o2] (finally_result o1 o2)) →
  sat (try_finally (perform c1) (perform c2)).
Proof. apply emits_try_finally_perform. Qed.

End Compositional.

#[global] Instance Every_compositional good : Compositional (Every good).
Proof.
  split; unfold Every.
  - by constructor.
  - intros A B e1 a e2 r H1 H2. by apply Forall_app.
  - done.
  - done.
Qed.

Create HintDb silent.
#[local] Hint Resolve silent_ret silent_throw silent_return_undefined silent_gets
  silent_set_realm silent_invariant silent_declare_timingStats silent_stamp
  silent_get_timingStats silent_reserve_identifiers : silent.

(** Walks through a method body, leaving one goal per event it may log;
    [blocks] is tried first. *)
Ltac sat_step blocks :=
  first
    [ progress (intros; cbv beta)
    | blocks
    | lazymatch goal with
      | |- sat _ (bind _ _) => apply sat_bind; [exact _ | | ]
      | |- sat _ (when _ _) => apply sat_when; [exact _ | ]
      | |- sat _ (for_each _ _) => apply sat_for_each; [exact _ | ]
      | |- sat _ (perform _) => apply sat_perform
      | |- sat _ (return_if_errors _ _) => apply sat_return_if_errors
      | |- sat _ (invariant_no_errors _) => apply sat_invariant_no_errors
      | |- sat _ (try_finally _ _) => apply sat_try_finally_perform
      | |- sat _ (if ?b then _ else _) => destruct b
      | |- sat _ (match ?o with Some _ => _ | None => _ end) => destruct o
      | |- sat _ (match ?c with AbruptCompletion _ _ => _ | NormalValue _ => _ end) =>
          destruct c
      | |- sat _ _ => apply sat_silent; [exact _ | solve [auto with silent] ]
      end ].

Ltac sat_walk_with blocks := repeat sat_step blocks.

Ltac sat_walk := sat_walk_with fail.

(** ** The identifiers [_execute] reserves *)

Lemma traverseFast_eq node (enter : Node → M bool) s :
  traverseFast node enter s =
  match fst (enter node s) with
  | Ok true => (Ok tt, snd (enter node s))
  | Ok false =>
      for_each (node_children node) (λ n, traverseFast n enter) (snd (enter node s))
  | Throw e => (Throw e, snd (enter node s))
  | ReturnUndefined => (ReturnUndefined, snd (enter node s))
  end.
Proof.
  destruct node as [t x kids]. cbn [traverseFast node_children]. unfold bind at 1.
  destruct (fst (enter (mkNode t x kids) s)) as [[|]| |]; try done.
  generalize (snd (enter (mkNode t x kids) s)). clear s.
  induction kids as [|k kids IHkids]; intros s; [done|].
  cbn [for_each]. unfold bind. destruct (fst (traverseFast k enter s)); try done.
Qed.

Lemma reserve_node_identifier node s :
  isIdentifier node = true →
  reserve_node node s = (Ok true, snd (set_realm (add_forbiddenName (node_name node)) s)).
Proof. intros Hid. unfold reserve_node. by rewrite Hid. Qed.

Lemma reserve_node_other node s :
  isIdentifier node = false → reserve_node node s = (Ok false, s).
Proof. intros Hid. unfold reserve_node. by rewrite Hid. Qed.

Lemma traverseFast_reserves node s :
  is_Some (preludeGenerator (realm (world s))) →
  fst (traverseFast node reserve_node s) = Ok tt ∧
  is_Some (preludeGenerator (realm (world (snd (traverseFast node reserve_node s))))) ∧
  forbiddenNames_of (world (snd (traverseFast node reserve_node s))) =
    forbiddenNames_of (world s) ∪ reached_identifiers node.
Proof.
  revert s. induction node as [t x kids IH] using Node_deep_ind. intros s Hp.
  rewrite traverseFast_eq. cbn [reached_identifiers].
  destruct (isIdentifier (mkNode t x kids)) eqn:Hid.
  - (* an identifier: its name is added and the walk stops *)
    rewrite reserve_node_identifier by done. simpl.
    destruct Hp as [p Hp]. unfold forbiddenNames_of. simpl. rewrite Hp. simpl.
    split_and!; [done | by eexists | set_solver].
  - (* any other node: the walk goes through its sub-nodes *)
    rewrite reserve_node_other by done. cbn [fst snd node_children]. clear Hid.
    revert s Hp. induction IH as [|k kids Hk _ IHkids]; intros s Hp.
    + simpl. split_and!; [done | done | set_solver].
    + cbn [for_each]. unfold bind. destruct (Hk s Hp) as (Hok & Hp' & Hnames).
      rewrite Hok.
      destruct (IHkids _ Hp') as (Hok2 & Hp2 & Hnames2).
      split_and!; [done | done | ].
      rewrite Hnames2, Hnames. set_solver.
Qed.

Lemma outermost_occurs n ast : outermost_in n ast → occurs_in n ast.
Proof. induction 1; [constructor | by econstructor]. Qed.

Lemma reached_identifiers_spec ast x :
  x ∈ reached_identifiers ast ↔
  ∃ n, outermost_in n ast ∧ isIdentifier n = true ∧ node_name n = x.
Proof.
  induction ast as [t y kids IH] using Node_deep_ind.
  cbn [reached_identifiers].
  destruct (isIdentifier (mkNode t y kids)) eqn:Hid.
  - rewrite elem_of_singleton. split.
    + intros ->. exists (mkNode t y kids). split_and!; [constructor | done | done].
    + intros (n & Hn & Hidn & <-). inversion Hn; subst; [done | congruence].
  - cbn [node_children].
    (* the names reached below a node that is not an identifier *)
    transitivity (∃ k n, k ∈ kids ∧ outermost_in n k ∧ isIdentifier n = true ∧
                         node_name n = x).
    + clear Hid. induction IH as [|k kids Hk _ IHkids]; [set_solver|].
      rewrite elem_of_union, Hk, IHkids. split.
      * intros [(n & ?)|(k' & n & ? & ?)];
          [exists k, n | exists k', n]; (split; [set_solver | done]).
      * intros (k' & n & [->|Hin]%elem_of_cons & ?); [left | right]; eauto.
    + split.
      * intros (k & n & Hk & Hn & ?). exists n. split; [ | done].
        by eapply outermost_below.
      * intros (n & Hn & Hidn & ?). inversion Hn; subst; [congruence|]. eauto 10.
Qed.

Lemma for_each_reserves asts s :
  is_Some (preludeGenerator (realm (world s))) →
  fst (for_each asts reserve_identifiers s) = Ok tt ∧
  is_Some (preludeGenerator (realm (world (snd (for_each asts reserve_identifiers s))))) ∧
  ∀ x, x ∈ forbiddenNames_of (world (snd (for_each asts reserve_identifiers s))) ↔
       x ∈ forbiddenNames_of (world s) ∨ ∃ ast, ast ∈ asts ∧ x ∈ reached_identifiers ast.
Proof.
  revert s. induction asts as [|ast asts IH]; intros s Hp.
  - simpl. split_and!; [done | done | set_solver].
  - cbn [for_each]. unfold bind.
    assert (reserve_identifiers ast s = traverseFast ast reserve_node s) as ->.
    { unfold reserve_identifiers, bind, gets. simpl.
      rewrite bool_decide_eq_true_2 by done. done. }
    destruct (traverseFast_reserves ast s Hp) as (Hok & Hp' & Hnames).
    rewrite Hok. destruct (IH _ Hp') as (Hok2 & Hp2 & Hnames2).
    split_and!; [done | done | ].
    intros x. rewrite Hnames2, Hnames. set_solver.
Qed.

(** C10 (as amended): when the realm has a prelude generator, the callback of
    [_execute] runs to completion on the trees it is given and adds to the
    forbidden names exactly the names of the identifiers of each tree that
    have no identifier above them, at whatever depth they lie; the names
    already forbidden stay. The walk does not go below an identifier. *)
Theorem reserve_identifiers_outermost asts s :
  is_Some (preludeGenerator (realm (world s))) →
  fst (for_each asts reserve_identifiers s) = Ok tt ∧
  ∀ x, x ∈ forbiddenNames_of (world (snd (for_each asts reserve_identifiers s))) ↔
       x ∈ forbiddenNames_of (world s) ∨
       ∃ ast n, ast ∈ asts ∧ outermost_in n ast ∧ isIdentifier n = true ∧ node_name n = x.
Proof.
  intros Hp. destruct (for_each_reserves asts s Hp) as (Hok & _ & Hnames).
  split; [done|]. intros x. rewrite Hnames.
  setoid_rewrite reached_identifiers_spec. naive_solver.
Qed.

(** ** Properties of the world that a piece of code keeps *)

Lemma keeps_bind P {A B} (m : M A) (f : A → M B) :
  keeps P m → (∀ a, keeps P (f a)) → keeps P (bind m f).
Proof.
  intros Hm Hf s HP. unfold bind. specialize (Hm s HP).
  destruct (fst (m s)); simpl; [by apply Hf | done..].
Qed.

Lemma keeps_world P {A} (m : M A) :
  (∀ s, world (snd (m s)) = world s) → keeps P m.
Proof. intros Hm s HP. by rewrite Hm. Qed.

Lemma keeps_when P b m : keeps P m → keeps P (when b m).
Proof. destruct b; [done|]. by intros _ s HP. Qed.

Lemma keeps_perform P {R} (c : Call R) :
  (∀ w, P w → P (snd (handle R c w))) → keeps P (perform c).
Proof. intros Hc s HP. by apply Hc. Qed.

Lemma keeps_set_realm P f :
  (∀ r n h, P {| realm := r; EnvironmentRecord_nextId := n; heap := h |} →
            P {| realm := f r; EnvironmentRecord_nextId := n; heap := h |}) →
  keeps P (set_realm f).
Proof. intros Hf [[r n h] c t l] HP. by apply Hf. Qed.

Lemma world_stamp u s : world (snd (stamp u s)) = world s.
Proof. unfold stamp. by destruct (timingStats s). Qed.

Lemma world_invariant b s : world (snd (invariant b s)) = world s.
Proof. by destruct b. Qed.

(** ** The constructor *)

Lemma new_Serializer_events serializerOptions :
  sat (Every (λ e, executes_sources e = false)) (new_Serializer serializerOptions).
Proof.
  unfold new_Serializer. sat_walk; by repeat constructor.
Qed.

(** C9: on a realm without abstract interpretation the constructor fails on
    its invariant and has no effect at all.  On a realm with it the
    constructor first calls [new Generator(realm, "main")].  When that call
    throws, the constructor throws the same exception and has done nothing
    else: no generator is installed.  When it returns a generator, that one
    is installed at once: the next call, the construction of the logger, is
    made in a world whose [realm.generator] it is; the constructor executes
    no source; and with collaborator constructors that leave
    [realm.generator] alone, it is the realm's generator when the constructor
    ends. *)
Theorem constructor_installs_generator serializerOptions s :
  (useAbstractInterpretation (realm (world s)) = false →
   new_Serializer serializerOptions s = (Throw InvariantViolation, s)) ∧
  (useAbstractInterpretation (realm (world s)) = true →
   match fst (handle Obj (New_Generator "main") (world s)) with
   | Throws e =>
       new_Serializer serializerOptions s =
         (Throw e, called s (New_Generator "main") (Throws e)
                     (snd (handle Obj (New_Generator "main") (world s))))
   | Returns g =>
       ∃ evs,
         log (snd (new_Serializer serializerOptions s)) =
           log s ++
           ECall (New_Generator "main") (Returns g) ::
           ECall (New_Logger (internalDebug serializerOptions))
             (fst (handle Obj (New_Logger (internalDebug serializerOptions))
                     (installed g (snd (handle Obj (New_Generator "main") (world s)))))) ::
           evs ∧
         Forall (λ e, executes_sources e = false) evs ∧
         ((∀ R (c : Call R) w, constructor_call c = true →
             generator (realm (snd (handle R c w))) = generator (realm w)) →
          generator (realm (world (snd (new_Serializer serializerOptions s)))) = Some g)
   end).
Proof.
  split.
  - intros Hno. unfold new_Serializer, bind, gets. simpl. by rewrite Hno.
  - intros Hyes.
    destruct (handle Obj (New_Generator "main") (world s)) as [o w] eqn:Hgen.
    cbn [fst snd].
    destruct o as [g|e].
    2: { unfold new_Serializer. unfold bind at 1 2, gets. simpl. rewrite Hyes. simpl.
         by rewrite bind_perform, Hgen. }
    eassert (new_Serializer serializerOptions s =
             bind (perform (New_Logger (internalDebug serializerOptions))) _
               (with_realm (called s (New_Generator "main") (Returns g) w)
                  (set_generator g (realm w)))) as ->.
    { unfold new_Serializer. unfold bind at 1 2, gets. simpl. rewrite Hyes. simpl.
      rewrite bind_perform, Hgen. cbn [fst snd]. reflexivity. }
    match goal with |- context [bind (perform ?c) ?f ?s1] =>
      set (after := f); set (rest := bind (perform c) after); set (installed_state := s1)
    end.
    assert (∀ lg, sat (Every (λ e, executes_sources e = false)) (after lg)) as Hafter.
    { intros lg. subst after. cbv beta. sat_walk; by repeat constructor. }
    assert (∃ evs, log (snd (rest installed_state)) =
                     log installed_state ++
                     ECall (New_Logger (internalDebug serializerOptions))
                       (fst (handle Obj (New_Logger (internalDebug serializerOptions))
                               (world installed_state))) :: evs ∧
                   Forall (λ e, executes_sources e = false) evs) as (evs & Hlog & Hevs).
    { subst rest. rewrite bind_perform.
      destruct (fst (handle Obj (New_Logger _) (world installed_state))) as [lg|e].
      - destruct (Hafter lg (called installed_state (New_Logger (internalDebug serializerOptions))
                               (Returns lg)
                               (snd (handle Obj (New_Logger (internalDebug serializerOptions))
                                       (world installed_state)))))
          as (evs & Hlog & Hevs).
        exists evs. split; [ | done]. rewrite Hlog. simpl. by rewrite <- app_assoc.
      - exists []. by split. }
    exists evs. split_and!.
    + rewrite Hlog. subst installed_state. simpl. by rewrite <- app_assoc.
    + done.
    + intros Hframe.
      set (P := λ w : World Heap, generator (realm w) = Some g).
      assert (∀ R (c : Call R), constructor_call c = true → keeps P (perform c)) as Hcall.
      { intros R c Hc. apply keeps_perform. intros w' Hw. unfold P.
        by rewrite Hframe. }
      cut (keeps P rest); [intros Hkeeps; by apply Hkeeps | ].
      subst rest.
      repeat first
        [ apply keeps_bind; [ | intros ?]
        | apply keeps_when
        | apply Hcall; reflexivity
        | apply keeps_set_realm; by intros
        | apply keeps_world; reflexivity ].
Qed.

(** ** Abrupt completion of the global code *)

(** Case analysis on the next collaborator call of a run. *)
Ltac next_call :=
  match goal with
  | |- context [handle ?R ?c ?w] =>
      first [ is_var w | match w with world ?s => is_var s end ];
      destruct (handle R c w) as [[?|?] ?]; simpl
  end.

Lemma init_run this sources sm s :
  fst (init_before_execute this s) = Ok tt →
  init this sources sm s =
    function_body (bind (_execute this sources) (λ code, init_after_execute this code sm))
      (snd (init_before_execute this s)).
Proof.
  intros Hbefore. unfold init, function_body.
  by rewrite (bind_Ok _ _ s tt (snd (init_before_execute this s)))
    by (by destruct (init_before_execute this s); simplify_eq/=).
Qed.

Lemma _execute_abrupt this sources s location value code s1 :
  executeSources sources "script" reserve_identifiers s =
    (Ok (AbruptCompletion location value, code), s1) →
  ∃ e evs,
    fst (_execute this sources s) = Throw e ∧
    log (snd (_execute this sources s)) = log s1 ++ evs ∧
    abrupt_protocol this (AbruptCompletion location value) location evs e.
Proof.
  intros Hexec. unfold _execute. rewrite (bind_Ok _ _ _ _ _ Hexec). cbn [fst snd].
  unfold abrupt_protocol, bind, perform, try_finally, throw, abrupt_diagnostic. simpl.
  repeat next_call;
    repeat match goal with u : unit |- _ => destruct u end;
    eexists; eexists;
    (split; [reflexivity|]);
    (split; [rewrite <- ?app_assoc; reflexivity|]); simpl;
    (split; [by repeat constructor|]);
    (split; [first [left; by repeat constructor | right; by eauto 10] | ]);
    rewrite ?Forall_cons; simpl;
    (intros Hthrew; first [by intuition discriminate | by eauto]).
Qed.

(** C2: when the interpreter returns an abrupt completion, [init] ends by an
    exception, in the state in which [_execute] ended: no result is produced
    and nothing of the pipeline runs after the execution.  All [_execute] does
    then is handling the completion: it creates and pushes an execution
    context, logs the completion, and, once logging has been called, pops the
    context whether logging returned or threw; when these calls return, it reports the diagnostic
    with code PP0016 and severity FatalError at the completion's location
    and, when that returns, throws [FatalError]. *)
Theorem abrupt_completion_is_fatal this sources sm s location value code s1 :
  fst (init_before_execute this s) = Ok tt →
  executeSources sources "script" reserve_identifiers (snd (init_before_execute this s)) =
    (Ok (AbruptCompletion location value, code), s1) →
  ∃ e evs,
    fst (init this sources sm s) = Throw e ∧
    snd (init this sources sm s) =
      snd (_execute this sources (snd (init_before_execute this s))) ∧
    log (snd (init this sources sm s)) = log s1 ++ evs ∧
    abrupt_protocol this (AbruptCompletion location value) location evs e.
Proof.
  intros Hbefore Hexec. rewrite (init_run _ _ _ _ Hbefore).
  destruct (_execute_abrupt this _ _ _ _ _ _ Hexec) as (e & evs & Hthrow & Hlog & Hproto).
  exists e, evs. unfold function_body, bind. rewrite Hthrow. by simpl.
Qed.

(** ** Runs that end normally *)

Lemma yields_bind {A B} (m : M A) (f : A → M B)
    (Φ : A → list Event → Prop) (Ψ : A → B → list Event → Prop) :
  yields m Φ → (∀ a, yields (f a) (Ψ a)) →
  yields (bind m f) (λ b evs, ∃ a e1 e2, evs = e1 ++ e2 ∧ Φ a e1 ∧ Ψ a b e2).
Proof.
  intros Hm Hf s b. unfold bind.
  destruct (fst (m s)) as [a| |] eqn:Hms; [ | done..].
  intros Hfs. destruct (Hm s a Hms) as (e1 & Hlog1 & HΦ).
  destruct (Hf a _ b Hfs) as (e2 & Hlog2 & HΨ).
  exists (e1 ++ e2). split; [by rewrite Hlog2, Hlog1, app_assoc | eauto 10].
Qed.

Lemma yields_silent {A} (m : M A) : silent m → yields m (λ _ evs, evs = []).
Proof. intros Hm s a _. exists []. by rewrite Hm, app_nil_r. Qed.

Lemma yields_gets {A} (f : World Heap → A) :
  yields (gets f) (λ _ evs, evs = []).
Proof. by apply yields_silent. Qed.

Lemma yields_ret {A} (a : A) : yields (ret a) (λ a' evs, a' = a ∧ evs = []).
Proof. intros s a' [= <-]. exists []. by rewrite app_nil_r. Qed.

Lemma yields_perform {R} (c : Call R) :
  yields (perform c) (λ r evs, evs = [ECall c (Returns r)]).
Proof.
  intros s r. unfold perform. simpl.
  destruct (fst (handle R c (world s))); [ | done]. intros [= <-]. eauto.
Qed.

Lemma yields_return_if_errors lg cp :
  yields (return_if_errors lg cp) (λ _ evs, evs = [ECheck cp false]).
Proof.
  intros s r. unfold return_if_errors. simpl.
  destruct (hasErrors lg (world s)); [done|]. eauto.
Qed.

Lemma yields_invariant_no_errors lg :
  yields (invariant_no_errors lg) (λ _ evs, evs = [ECheck BeforeReturn false]).
Proof.
  intros s r. unfold invariant_no_errors. simpl.
  destruct (hasErrors lg (world s)); [done|]. eauto.
Qed.

Lemma yields_when b m (Φ : unit → list Event → Prop) :
  yields m Φ → yields (when b m) (λ u evs, if b then Φ u evs else evs = []).
Proof. destruct b; [done|]. intros _. by apply yields_silent. Qed.

Lemma yields_weaken {A} (m : M A) (Φ Ψ : A → list Event → Prop) :
  yields m Φ → (∀ a evs, Φ a evs → Ψ a evs) → yields m Ψ.
Proof.
  intros Hm Himp s a Ha. destruct (Hm s a Ha) as (evs & ? & ?). eauto.
Qed.

Lemma yields_when_perform b (c : Call unit) :
  yields (when b (perform c)) (λ _ evs, evs = if b then [ECall c (Returns tt)] else []).
Proof.
  eapply yields_weaken; [apply yields_when, yields_perform | ].
  intros [] evs. by destruct b.
Qed.

Lemma yields_if {A} (b : bool) (m1 m2 : M A) (Φ1 Φ2 : A → list Event → Prop) :
  yields m1 Φ1 → yields m2 Φ2 →
  yields (if b then m1 else m2) (λ a evs, if b then Φ1 a evs else Φ2 a evs).
Proof. by destruct b. Qed.

(** Computes what a method body yields; [blocks] is tried first. *)
Ltac yields_step blocks :=
  first
    [ progress (intros; cbv beta)
    | blocks
    | lazymatch goal with
      | |- yields (bind _ _) _ => eapply yields_bind
      | |- yields (when _ (perform _)) _ => eapply yields_when_perform
      | |- yields (when _ _) _ => eapply yields_when
      | |- yields (perform _) _ => eapply yields_perform
      | |- yields (return_if_errors _ _) _ => eapply yields_return_if_errors
      | |- yields (invariant_no_errors _) _ => eapply yields_invariant_no_errors
      | |- yields (ret _) _ => eapply yields_ret
      | |- yields (if _ then _ else _) _ => eapply yields_if
      | |- yields _ _ => eapply yields_silent; solve [auto with silent]
      end ].

Ltac yields_walk_with blocks := repeat yields_step blocks.

Ltac yields_walk := yields_walk_with fail.

(** ** The calls of a run that returns a result *)

(** Takes apart what [yields_walk] computed. *)
Ltac unpack :=
  repeat match goal with
  | H : ∃ _, _ |- _ => destruct H
  | H : _ ∧ _ |- _ => destruct H
  | H : if ?b then _ else _ |- _ => destruct b
  | u : unit |- _ => destruct u
  end; simplify_eq/=.

Lemma build_heapGraph_yields this afve rf ids :
  yields (build_heapGraph this afve rf ids) (heapGraph_post this afve rf ids).
Proof.
  unfold build_heapGraph, heapGraph_post.
  destruct (heapGraphFormat (options this)) as [format|].
  - eapply yields_weaken; [yields_walk | ].
    intros hg evs Hevs. simpl in Hevs. unpack. eauto 10.
  - eapply yields_weaken; [yields_walk | ].
    intros hg evs Hevs. simpl in Hevs. by unpack.
Qed.

Lemma reference_counts_pass_yields this ids vis afve rf :
  yields (reference_counts_pass this ids vis afve rf) (λ _, pass1_post this ids vis afve rf).
Proof.
  unfold reference_counts_pass, pass1_post.
  eapply yields_weaken; [yields_walk | ].
  intros u evs Hevs. simpl in Hevs.
  destruct (inlineExpressions (options this)); [ | done]. unpack. eauto.
Qed.

Lemma serialize_pass_yields this code sm reactStatistics heapGraph ids vis afve rf :
  yields (serialize_pass this code sm reactStatistics heapGraph ids vis afve rf)
    (pass2_post this code sm reactStatistics heapGraph ids vis afve rf).
Proof.
  unfold serialize_pass, pass2_post, pass2_calls.
  eapply yields_weaken; [yields_walk | ].
  intros r evs Hevs. simpl in Hevs.
  destruct (logStatistics (options this)); unpack.
  - do 7 eexists. split; reflexivity.
  - do 4 eexists. exists 0. do 2 eexists. split; reflexivity.
Qed.

Lemma init_with_cutoff_yields this code sm cutoff :
  yields (init_with_cutoff this code sm cutoff) (pipeline_post this code sm cutoff).
Proof.
  unfold init_with_cutoff.
  eapply yields_weaken.
  { yields_walk_with ltac:(first
      [ eapply build_heapGraph_yields
      | eapply reference_counts_pass_yields
      | eapply serialize_pass_yields ]). }
  intros r evs Hevs. simpl in Hevs. unfold pipeline_post. unpack.
  all: do 13 eexists; (split_and!; [ | eassumption..]); reflexivity.
Qed.

Lemma yields_never {A} (m : M A) :
  (∀ s a, fst (m s) ≠ Ok a) → yields m (λ _ _, False).
Proof. intros Hm s a Ha. by destruct (Hm s a). Qed.

Lemma abrupt_never_returns (this : Serializer) (res : Completion) location :
  yields
    (bind (perform New_ExecutionContext) (λ context,
     bind (perform (Realm_pushContext context)) (λ _,
     bind (try_finally (perform (Logger_logCompletion (logger this) res))
             (perform (Realm_popContext context))) (λ _,
     bind (perform (Realm_handleError (abrupt_diagnostic location))) (λ _,
     throw FatalError)))) : M Code)
    (λ _ _, False).
Proof.
  apply yields_never. intros s a.
  unfold bind, perform, try_finally, throw. simpl.
  repeat next_call; done.
Qed.

Lemma _execute_yields this sources :
  yields (_execute this sources)
    (λ code evs, ∃ asts value,
       evs = [ECall (GlobalEnv_parse sources "script") (Returns (asts, code));
              ECall (GlobalEnv_evaluate asts) (Returns (NormalValue value))]).
Proof.
  unfold _execute, executeSources.
  assert (∀ res_code : Completion * Code,
    yields
      (match fst res_code with
       | AbruptCompletion location _ =>
           bind (perform New_ExecutionContext) (λ context,
           bind (perform (Realm_pushContext context)) (λ _,
           bind (try_finally (perform (Logger_logCompletion (logger this) (fst res_code)))
                   (perform (Realm_popContext context))) (λ _,
           bind (perform (Realm_handleError (abrupt_diagnostic location))) (λ _,
           throw FatalError))))
       | NormalValue _ => ret (snd res_code)
       end)
      (λ code evs, ∃ value, fst res_code = NormalValue value ∧
                            code = snd res_code ∧ evs = [])) as Htail.
  { intros [[location value|value] code]; simpl.
    - eapply yields_weaken; [apply abrupt_never_returns | done].
    - eapply yields_weaken; [apply yields_ret | ]. naive_solver. }
  eapply yields_weaken.
  { yields_walk_with ltac:(first
      [ eapply Htail
      | eapply yields_silent; apply silent_for_each; intros; apply silent_reserve_identifiers ]). }
  intros code evs Hevs. simpl in Hevs. unpack.
  repeat match goal with p : (_ * _)%type |- _ => destruct p end. simplify_eq/=. eauto.
Qed.

Lemma init_body_yields this sources sm :
  yields (bind (init_before_execute this) (λ _,
          bind (_execute this sources) (λ code, init_after_execute this code sm)))
    (init_post this sources sm).
Proof.
  unfold init_before_execute, init_after_execute.
  eapply yields_weaken.
  { yields_walk_with ltac:(first
      [ eapply _execute_yields | eapply init_with_cutoff_yields ]). }
  intros r evs Hevs. simpl in Hevs. unfold init_post. unpack.
  do 6 eexists. split; [ | eassumption]. reflexivity.
Qed.

(** A run of [init] that returns a result made the calls of [init_post]. *)
Lemma init_success this sources sm s res :
  fst (init this sources sm s) = Ok (Some res) →
  ∃ evs, log (snd (init this sources sm s)) = log s ++ evs ∧
         init_post this sources sm (Some res) evs.
Proof.
  unfold init, function_body. cbn [fst snd]. intros Hres.
  apply init_body_yields.
  by destruct (fst (bind (init_before_execute this) _ s)) as [[?|]| |].
Qed.

(** ** Properties of every run of [init] *)

Lemma emits_init (J : ∀ A, list Event → Result A → Prop) `{!Compositional J}
    this sources sm :
  sat J (init_before_execute this) →
  sat J (_execute this sources) →
  (∀ code cutoff, sat J (init_with_cutoff this code sm cutoff)) →
  emits (init this sources sm) (λ evs r, ∃ r0, J _ evs r0 ∧ r = at_boundary r0).
Proof.
  intros Hbefore Hexec Hafter s.
  assert (sat J (bind (init_before_execute this) (λ _,
            bind (_execute this sources) (λ code, init_after_execute this code sm))))
    as Hbody.
  { apply sat_bind; [exact _ | done | ]. intros _.
    apply sat_bind; [exact _ | done | ]. intros code.
    unfold init_after_execute.
    apply sat_bind; [exact _ | by apply sat_silent | ]. intros cutoff.
    apply Hafter. }
  destruct (Hbody s) as (evs & Hlog & HJ).
  exists evs. split; [done|]. eexists. split; [exact HJ|].
  by unfold init, function_body.
Qed.

Lemma init_after _this sources sm s code s1 :
  fst (init_before_execute _this s) = Ok tt →
  _execute _this sources (snd (init_before_execute _this s)) = (Ok code, s1) →
  fst (init _this sources sm s) =
    at_boundary (fst (init_with_cutoff _this code sm (EnvironmentRecord_nextId (world s1)) s1)) ∧
  snd (init _this sources sm s) =
    snd (init_with_cutoff _this code sm (EnvironmentRecord_nextId (world s1)) s1).
Proof.
  intros Hbefore Hexec. rewrite (init_run _ _ _ _ Hbefore).
  unfold function_body. rewrite (bind_Ok _ _ _ _ _ Hexec).
  by unfold init_after_execute, bind, gets.
Qed.

Lemma init_with_cutoff_uses_cutoff this code sm cutoff :
  sat (Every (uses_cutoff cutoff)) (init_with_cutoff this code sm cutoff).
Proof.
  unfold init_with_cutoff, build_heapGraph, reference_counts_pass, serialize_pass.
  sat_walk; by repeat constructor.
Qed.

(** C5: [init] reads the counter of environment records in the very state
    in which [_execute] returned; every independence check and every React
    optimization of the run gets the value read there, whatever the module
    resolution or anything later does to the counter; and a run that returns
    a result has made the independence check with it and, when it returns
    React statistics, the React optimization with it. *)
Theorem cutoff_recorded_after_execution this sources sm s code s1 :
  fst (init_before_execute this s) = Ok tt →
  _execute this sources (snd (init_before_execute this s)) = (Ok code, s1) →
  ∃ evs,
    log (snd (init this sources sm s)) = log s1 ++ evs ∧
    Forall (uses_cutoff (EnvironmentRecord_nextId (world s1))) evs ∧
    ∀ res, fst (init this sources sm s) = Ok (Some res) →
      ECall (Functions_checkThatFunctionsAreIndependent (functions this)
               (EnvironmentRecord_nextId (world s1))) (Returns tt) ∈ evs ∧
      ∀ created, result_reactStatistics res = Some created →
        ECall (Functions_optimizeReactComponentTreeRoots (functions this) created
                 (react this) (EnvironmentRecord_nextId (world s1))) (Returns tt) ∈ evs.
Proof.
  intros Hbefore Hexec.
  destruct (init_after this sources sm s code s1 Hbefore Hexec) as [Hfst Hsnd].
  set (cutoff := EnvironmentRecord_nextId (world s1)) in *.
  destruct (init_with_cutoff_uses_cutoff this code sm cutoff s1) as (evs & Hlog & Hevs).
  exists evs. rewrite Hsnd. split_and!; [done | done | ].
  intros res Hres. rewrite Hfst in Hres.
  assert (fst (init_with_cutoff this code sm cutoff s1) = Ok (Some res)) as Hok.
  { by destruct (fst (init_with_cutoff this code sm cutoff s1)) as [|?|]. }
  destruct (init_with_cutoff_yields this code sm cutoff s1 _ Hok)
    as (evs' & Hlog' & Hpost).
  assert (evs' = evs) as ->.
  { apply (app_inv_head (log s1)). by rewrite <- Hlog, <- Hlog'. }
  destruct Hpost as (rs & afve & ? & ? & rf & ? & vis & ? & ids & hg & ? & ? & ?
                     & -> & _ & _ & Hpass2).
  destruct Hpass2 as (? & ? & ? & ? & ? & ? & ? & _ & [= ->]).
  split; [set_solver|].
  intros created Hcreated. simpl in Hcreated. subst rs. simpl. set_solver.
Qed.

(** ** Errors and results *)

#[global] Instance Checked_compositional : Compositional Checked.
Proof.
  split; unfold Checked.
  - intros A r. split; by intros ?%Exists_nil.
  - intros A B e1 a e2 r [H1 H1'] [H2 H2'].
    split; intros [?|?]%Exists_app; naive_solver.
  - intros A B e1 e [H1 H1']. split; [naive_solver | done].
  - intros A B e1 [H1 H1']. done.
Qed.

(** Closes the goal of [sat_walk] for an event that reads no error, or for
    a checkpoint. *)
Ltac checked_event :=
  unfold Checked;
  repeat match goal with
  | |- context [ECheck _ ?b] => is_var b; destruct b
  | |- context [result_of ?o] => is_var o; destruct o
  | |- context [finally_result ?o _] => is_var o; destruct o
  | |- context [finally_result _ ?o] => is_var o; destruct o
  end;
  simpl; rewrite ?Exists_cons, ?Exists_nil; simpl; naive_solver.

Lemma init_checked this sources sm :
  emits (init this sources sm) (λ evs r, ∃ r0, Checked _ evs r0 ∧ r = at_boundary r0).
Proof.
  apply emits_init; [exact _ | ..].
  - unfold init_before_execute. sat_walk; checked_event.
  - unfold _execute, executeSources. sat_walk; checked_event.
  - intros code cutoff.
    unfold init_with_cutoff, build_heapGraph, reference_counts_pass, serialize_pass.
    sat_walk; checked_event.
Qed.

Lemma ends_clean_bind lg {A} (m : M A) (f : A → M (option SerializedResult)) :
  (∀ a, ends_clean lg (f a)) → ends_clean lg (bind m f).
Proof.
  intros Hf s res. unfold bind. destruct (fst (m s)); [apply Hf | done..].
Qed.

Lemma ends_clean_checked lg (k : M (option SerializedResult)) :
  keeps (λ w, hasErrors lg w = false) k →
  ends_clean lg (bind (invariant_no_errors lg) (λ _, k)).
Proof.
  intros Hk s res. unfold bind, invariant_no_errors. cbn [fst snd].
  destruct (hasErrors lg (world s)) eqn:Herrors; [done|].
  intros _. by apply Hk.
Qed.

Lemma init_ends_clean this sources sm :
  (∀ st w, hasErrors (logger this) (snd (handle unit (Statistics_log st) w)) =
           hasErrors (logger this) w) →
  ends_clean (logger this) (init this sources sm).
Proof.
  intros Hlog.
  assert (ends_clean (logger this)
            (bind (init_before_execute this) (λ _,
             bind (_execute this sources) (λ code, init_after_execute this code sm))))
    as Hbody.
  { unfold init_after_execute, init_with_cutoff, serialize_pass.
    repeat first
      [ apply ends_clean_checked
      | apply ends_clean_bind; intros ? ].
    repeat first
      [ apply keeps_bind; [ | intros ?]
      | apply keeps_when
      | apply keeps_perform; intros w Hw; by rewrite Hlog
      | apply keeps_world; reflexivity ]. }
  intros s res. unfold init, function_body. cbn [fst snd]. intros Hres.
  apply (Hbody s res). by destruct (fst _) as [|?|].
Qed.

(** C3: in any run of [init], if [logger.hasErrors()] is true at one of the
    four checkpoints (after the execution, after the optional module
    initialization, after the heap visitation, after the dry run), [init]
    returns [undefined]; and when [init] returns a result, no checkpoint of
    the run has read an error and, [statistics.log()] leaving the logger's
    errors alone, the logger has no error in the state [init] returns in. *)
Theorem errors_mean_no_result this sources sm s :
  ∃ evs,
    log (snd (init this sources sm s)) = log s ++ evs ∧
    (Exists (λ e, error_checkpoint e = true) evs →
     fst (init this sources sm s) = Ok None) ∧
    ∀ res, fst (init this sources sm s) = Ok (Some res) →
      Forall (λ e, reads_errors e = false) evs ∧
      ((∀ st w, hasErrors (logger this) (snd (handle unit (Statistics_log st) w)) =
                hasErrors (logger this) w) →
       hasErrors (logger this) (world (snd (init this sources sm s))) = false).
Proof.
  destruct (init_checked this sources sm s) as (evs & Hlog & r0 & [Hcp Hread] & Hr).
  exists evs. split_and!; [done | | ].
  - intros Hexists. rewrite Hr, (Hcp Hexists). done.
  - intros res Hres. split.
    + apply Forall_forall. intros e He. destruct (reads_errors e) eqn:Hread_e; [ | done].
      exfalso. rewrite Hr in Hres.
      destruct r0 as [a| |]; simplify_eq/=.
      eapply (Hread ltac:(apply Exists_exists; eauto)). done.
    + intros Hframe. by eapply init_ends_clean.
Qed.

(** ** The two passes *)

Lemma heapGraph_post_before_passes this afve rf ids heapGraph evs :
  heapGraph_post this afve rf ids heapGraph evs → Forall before_passes evs.
Proof.
  unfold heapGraph_post. destruct (heapGraphFormat (options this)).
  - intros (? & ? & ? & ? & -> & _). by repeat constructor.
  - intros [-> _]. constructor.
Qed.

(** The passes of a run of [init] that returns a result: the events are
    those before the passes, those of the dry run, the construction of the
    final serializer and its [serialize], and the rest. *)
Lemma init_success_passes this sources sm s res :
  fst (init this sources sm s) = Ok (Some res) →
  ∃ before pass1 after code afve scopeNames referentializedNames rf vis ids
    serializer ast generated,
    log (snd (init this sources sm s)) =
      log s ++ before ++ pass1 ++
      [ECall (New_Serializer (TargetSerializer (options this))
                (serializer_args this ids vis afve rf)) (Returns serializer);
       ECall (Serializer_serialize serializer) (Returns ast)] ++ after ∧
    Forall before_passes before ∧
    Forall before_passes after ∧
    pass1_post this ids vis afve rf pass1 ∧
    ECall (generate ast sm code) (Returns generated) ∈ after ∧
    result_code res = gen_code generated ∧
    ECall (Functions_getAdditionalFunctionValuesToEffects (functions this))
      (Returns afve) ∈ before ∧
    ECall (New_Referentializer (options this) scopeNames referentializedNames
             (statistics this)) (Returns rf) ∈ before ∧
    ECall (New_ResidualHeapVisitor (logger this) (modules this) afve rf)
      (Returns vis) ∈ before ∧
    ECall (New_ResidualHeapValueIdentifiers vis) (Returns ids) ∈ before.
Proof.
  intros Hres. destruct (init_success _ _ _ _ _ Hres) as (evs & Hlog & Hpost).
  destruct Hpost as (verbose0 & asts & value & code & cutoff & pipeline & -> & Hpost).
  destruct Hpost as (rs & afve & scopeNames & referentializedNames & rf & verbose1 & vis
                     & verbose2 & ids & hg & graphEvents & pass1 & pass2
                     & -> & Hgraph & Hpass1 & Hpass2).
  destruct Hpass2 as (serializer & ast & strip & generated & logged & st & timing
                      & -> & [= ->]).
  apply heapGraph_post_before_passes in Hgraph.
  unfold pass2_calls in Hlog.
  match type of Hlog with
  | _ = _ ++ ?a1 ++ ?a2 ++ ?a3 ++ ?a4 ++ ?a5 ++ ?a6 ++ ?a7 ++ ?a8 ++ ?a9 ++ ?a10
            ++ graphEvents ++ pass1 ++ ?final ++ ?rest =>
      exists (a1 ++ a2 ++ a3 ++ a4 ++ a5 ++ a6 ++ a7 ++ a8 ++ a9 ++ a10 ++ graphEvents),
        pass1, rest
  end.
  exists code, afve, scopeNames, referentializedNames, rf, vis, ids,
    serializer, ast, generated.
  split_and!.
  - rewrite Hlog. rewrite <- !app_assoc. reflexivity.
  - rewrite !Forall_app. split_and!; try done;
      unfold optional, react_calls; repeat (case_match; simpl); by repeat constructor.
  - rewrite !Forall_app. split_and!;
      unfold optional; repeat (case_match; simpl); by repeat constructor.
  - done.
  - set_solver.
  - done.
  - set_solver.
  - set_solver.
  - set_solver.
  - set_solver.
Qed.

Lemma table_state_untouched identifiers evs :
  Forall (λ e, two_pass_event e = false) evs → table_state identifiers evs = Initial.
Proof.
  unfold table_state. intros Hevs. generalize Initial.
  induction Hevs as [|e evs He _ IH]; intros st; simpl; [done|].
  rewrite IH. destruct e as [R c o|cp b]; [ | done].
  by destruct c, o.
Qed.

Lemma reference_counts_pass_skipped this ids vis afve rf :
  inlineExpressions (options this) = false →
  reference_counts_pass this ids vis afve rf = ret tt.
Proof. intros Hoff. unfold reference_counts_pass. by rewrite Hoff. Qed.

Lemma init_without_two_passes this sources sm :
  inlineExpressions (options this) = false →
  emits (init this sources sm)
    (λ evs r, ∃ r0, Every (λ e, two_pass_event e = false) _ evs r0 ∧ r = at_boundary r0).
Proof.
  intros Hoff. apply emits_init; [exact _ | ..].
  - unfold init_before_execute. sat_walk; by repeat constructor.
  - unfold _execute, executeSources. sat_walk; by repeat constructor.
  - intros code cutoff.
    unfold init_with_cutoff, build_heapGraph, serialize_pass.
    sat_walk_with ltac:(rewrite reference_counts_pass_skipped by done);
      by repeat constructor.
Qed.

(** C4: with [inlineExpressions] disabled no run of [init] makes a call of
    the two-pass protocol, so the identifier table stays in its initial state
    and every value gets a named binding; and in a run that returns a result
    the events are: those before the passes, the dry run (when the option is
    enabled: [initPass1], the construction of a [ResidualHeapSerializer], its
    [serialize], whose tree goes nowhere, the checkpoint and [initPass2];
    nothing when it is disabled), the construction of the final serializer
    and its [serialize], whose tree is the one the text emitter gets, and the
    rest; the protocol has run exactly when the option is enabled. *)
Theorem two_passes_iff_inlineExpressions this sources sm s :
  ∃ evs,
    log (snd (init this sources sm s)) = log s ++ evs ∧
    (inlineExpressions (options this) = false →
     Forall (λ e, two_pass_event e = false) evs ∧
     ∀ identifiers referenceCount,
       naming_decision (table_state identifiers evs) referenceCount = BindOnce) ∧
    ∀ res, fst (init this sources sm s) = Ok (Some res) →
      (Exists (λ e, two_pass_event e = true) evs ↔
       inlineExpressions (options this) = true) ∧
      ∃ before pass1 after code afve rf vis ids serializer ast generated,
        evs = before ++ pass1 ++
              [ECall (New_Serializer (TargetSerializer (options this))
                        (serializer_args this ids vis afve rf)) (Returns serializer);
               ECall (Serializer_serialize serializer) (Returns ast)] ++ after ∧
        Forall (λ e, two_pass_event e = false ∧ serializer_event e = false) before ∧
        Forall (λ e, two_pass_event e = false ∧ serializer_event e = false) after ∧
        (if inlineExpressions (options this)
         then ∃ dryRun dryAst,
                pass1 =
                  [ECall (ResidualHeapValueIdentifiers_initPass1 ids) (Returns tt);
                   ECall (New_Serializer ResidualHeapSerializer
                            (serializer_args this ids vis afve rf)) (Returns dryRun);
                   ECall (Serializer_serialize dryRun) (Returns dryAst);
                   ECheck AfterPass1 false;
                   ECall (ResidualHeapValueIdentifiers_initPass2 ids) (Returns tt)]
         else pass1 = []) ∧
        ECall (generate ast sm code) (Returns generated) ∈ after ∧
        result_code res = gen_code generated.
Proof.
  destruct (init_checked this sources sm s) as (evs & Hlog & _).
  exists evs. split_and!; [done | | ].
  - intros Hoff.
    destruct (init_without_two_passes this sources sm Hoff s)
      as (evs' & Hlog' & r0 & Hevs & _).
    assert (evs' = evs) as ->.
    { apply (app_inv_head (log s)). by rewrite <- Hlog, <- Hlog'. }
    split; [done|]. intros identifiers referenceCount.
    by rewrite table_state_untouched.
  - intros res Hres.
    destruct (init_success_passes _ _ _ _ _ Hres)
      as (before & pass1 & after & code & afve & ? & ? & rf & vis & ids & serializer
          & ast & generated & Hlog' & Hbefore & Hafter & Hpass1 & Hgen & Hcode & _).
    assert (evs = before ++ pass1 ++
              [ECall (New_Serializer (TargetSerializer (options this))
                        (serializer_args this ids vis afve rf)) (Returns serializer);
               ECall (Serializer_serialize serializer) (Returns ast)] ++ after) as ->.
    { apply (app_inv_head (log s)). by rewrite <- Hlog, <- Hlog'. }
    split.
    + unfold pass1_post in Hpass1. destruct (inlineExpressions (options this)) eqn:Hon.
      * destruct Hpass1 as (dryRun & dryAst & ->). split; [done|]. intros _.
        apply Exists_app. right. apply Exists_app. left. by constructor.
      * subst pass1. split; [ | done]. intros Hex. exfalso.
        rewrite !Exists_app in Hex. destruct Hex as [Hex|[Hex|[Hex|Hex]]].
        -- apply Exists_exists in Hex as (e & He & Hyes).
           eapply Forall_forall in Hbefore as [? _]; [ | done]. congruence.
        -- by apply Exists_nil in Hex.
        -- rewrite !Exists_cons, Exists_nil in Hex. naive_solver.
        -- apply Exists_exists in Hex as (e & He & Hyes).
           eapply Forall_forall in Hafter as [? _]; [ | done]. congruence.
    + exists before, pass1, after, code, afve, rf, vis, ids, serializer, ast, generated.
      split_and!; done.
Qed.

(** ** The class of the final serializer *)

(** C8: in a run of [init] that returns a result, the serializer constructed
    last, whose tree the text emitter gets, is a [LazyObjectsSerializer]
    exactly when [lazyObjectsRuntime] is not null and a
    [ResidualHeapSerializer] otherwise.  Whatever its class, it is constructed
    with the logger, the modules, the options, the statistics and the React
    state of [this], and with what four earlier calls of the run returned:
    the effects of the additional functions, the referentializer made for the
    options, the visitor made of these two, and the identifier table made of
    the visitor.  A serializer constructed before it (the dry run) is a
    [ResidualHeapSerializer] with the very same arguments. *)
Theorem final_serializer_class this sources sm s res :
  fst (init this sources sm s) = Ok (Some res) →
  (TargetSerializer (options this) = LazyObjectsSerializer ↔
   lazyObjectsRuntime (options this) ≠ None) ∧
  (TargetSerializer (options this) = ResidualHeapSerializer ↔
   lazyObjectsRuntime (options this) = None) ∧
  ∃ before pass1 after code afve scopeNames referentializedNames rf vis ids
    serializer ast generated,
    log (snd (init this sources sm s)) =
      log s ++ before ++ pass1 ++
      [ECall (New_Serializer
                (match lazyObjectsRuntime (options this) with
                 | Some _ => LazyObjectsSerializer
                 | None => ResidualHeapSerializer
                 end)
                {| sa_logger := logger this;
                   sa_modules := modules this;
                   sa_residualHeapValueIdentifiers := ids;
                   sa_visitor := vis;
                   sa_options := options this;
                   sa_additionalFunctionValuesAndEffects := afve;
                   sa_statistics := statistics this;
                   sa_react := react this;
                   sa_referentializer := rf |}) (Returns serializer);
       ECall (Serializer_serialize serializer) (Returns ast)] ++ after ∧
    Forall (λ e, serializer_event e = false) before ∧
    Forall (λ e, serializer_event e = false) after ∧
    (pass1 = [] ∨
     ∃ dryRun dryAst,
       pass1 =
         [ECall (ResidualHeapValueIdentifiers_initPass1 ids) (Returns tt);
          ECall (New_Serializer ResidualHeapSerializer
                   {| sa_logger := logger this;
                      sa_modules := modules this;
                      sa_residualHeapValueIdentifiers := ids;
                      sa_visitor := vis;
                      sa_options := options this;
                      sa_additionalFunctionValuesAndEffects := afve;
                      sa_statistics := statistics this;
                      sa_react := react this;
                      sa_referentializer := rf |}) (Returns dryRun);
          ECall (Serializer_serialize dryRun) (Returns dryAst);
          ECheck AfterPass1 false;
          ECall (ResidualHeapValueIdentifiers_initPass2 ids) (Returns tt)]) ∧
    ECall (generate ast sm code) (Returns generated) ∈ after ∧
    result_code res = gen_code generated ∧
    ECall (Functions_getAdditionalFunctionValuesToEffects (functions this))
      (Returns afve) ∈ before ∧
    ECall (New_Referentializer (options this) scopeNames referentializedNames
             (statistics this)) (Returns rf) ∈ before ∧
    ECall (New_ResidualHeapVisitor (logger this) (modules this) afve rf)
      (Returns vis) ∈ before ∧
    ECall (New_ResidualHeapValueIdentifiers vis) (Returns ids) ∈ before.
Proof.
  intros Hres. split_and!.
  - unfold TargetSerializer. by destruct (lazyObjectsRuntime (options this)).
  - unfold TargetSerializer. by destruct (lazyObjectsRuntime (options this)).
  - destruct (init_success_passes _ _ _ _ _ Hres)
      as (before & pass1 & after & code & afve & scopeNames & referentializedNames & rf
          & vis & ids & serializer & ast & generated & Hlog & Hbefore & Hafter & Hpass1
          & Hrest).
    exists before, pass1, after, code, afve, scopeNames, referentializedNames, rf, vis,
      ids, serializer, ast, generated.
    split_and!; try apply Hrest.
    + exact Hlog.
    + eapply Forall_impl; [exact Hbefore | by intros ? []].
    + eapply Forall_impl; [exact Hafter | by intros ? []].
    + unfold pass1_post in Hpass1. destruct (inlineExpressions (options this)).
      * destruct Hpass1 as (dryRun & dryAst & ->). right. by exists dryRun, dryAst.
      * by left.
Qed.

(** ** The order of the phases *)

Lemma between_nil lo hi : between lo hi [].
Proof. split; constructor. Qed.

Lemma between_app lo mid hi l1 l2 :
  mid ≤ hi → lo ≤ mid → between lo mid l1 → between mid hi l2 → between lo hi (l1 ++ l2).
Proof.
  intros Hhi Hlo [Hs1 Hb1] [Hs2 Hb2]. split.
  - apply StronglySorted_app_2; [ | done..].
    intros x1 x2 Hx1 Hx2.
    eapply Forall_forall in Hb1; [ | done]. eapply Forall_forall in Hb2; [ | done]. lia.
  - apply Forall_app. split; (eapply Forall_impl; [done|]); simpl; lia.
Qed.

Lemma ranked_bind lo mid hi {A B} (m : M A) (f : A → M B) :
  ranked lo mid m → (∀ a, ranked mid hi (f a)) → mid ≤ hi → ranked lo hi (bind m f).
Proof.
  intros [Hlo Hm] Hf Hhi. split; [lia|].
  eapply emits_bind; [exact Hm | intros a'; apply (Hf a') | ..].
  - intros e1 a e2 r H1 H2. rewrite omap_app, fmap_app. by eapply between_app.
  - intros e1 e [Hs Hb]. split; [done|].
    eapply Forall_impl; [done|]. simpl. lia.
  - intros e1 [Hs Hb]. split; [done|].
    eapply Forall_impl; [done|]. simpl. lia.
Qed.

Lemma ranked_weaken lo hi hi' {A} (m : M A) :
  hi ≤ hi' → ranked lo hi m → ranked lo hi' m.
Proof.
  intros Hhi [Hlo Hm]. split; [lia|].
  eapply emits_weaken; [done|]. intros evs r [Hs Hb]. split; [done|].
  eapply Forall_impl; [done|]. simpl. lia.
Qed.

Lemma ranked_silent lo {A} (m : M A) : silent m → ranked lo lo m.
Proof.
  intros Hm. split; [done|]. apply emits_silent; [done|]. intros _. apply between_nil.
Qed.

Lemma ranked_perform lo {R} (c : Call R) p :
  (∀ o, phase_of (ECall c o) = Some p) → lo ≤ code_order p →
  ranked lo (code_order p) (perform c).
Proof.
  intros Hp Hlo. split; [done|]. apply emits_perform. intros o.
  cbn -[phase_of]. rewrite Hp. split; repeat constructor; lia.
Qed.

Lemma ranked_perform_none lo {R} (c : Call R) :
  (∀ o, phase_of (ECall c o) = None) → ranked lo lo (perform c).
Proof.
  intros Hp. split; [done|]. apply emits_perform. intros o.
  cbn -[phase_of]. rewrite Hp. apply between_nil.
Qed.

Lemma ranked_return_if_errors lo lg cp p :
  (∀ b, phase_of (ECheck cp b) = Some p) → lo ≤ code_order p →
  ranked lo (code_order p) (return_if_errors lg cp).
Proof.
  intros Hp Hlo. split; [done|]. apply emits_return_if_errors. intros b.
  cbn -[phase_of]. rewrite Hp. split; repeat constructor; lia.
Qed.

Lemma ranked_return_if_errors_none lo lg cp :
  (∀ b, phase_of (ECheck cp b) = None) → ranked lo lo (return_if_errors lg cp).
Proof.
  intros Hp. split; [done|]. apply emits_return_if_errors. intros b.
  cbn -[phase_of]. rewrite Hp. apply between_nil.
Qed.

Lemma ranked_invariant_no_errors lo lg : ranked lo lo (invariant_no_errors lg).
Proof.
  split; [done|]. apply emits_invariant_no_errors. intros b. apply between_nil.
Qed.

Lemma ranked_when lo hi b m : ranked lo hi m → ranked lo hi (when b m).
Proof.
  destruct b; [done|]. intros [Hlo _].
  eapply ranked_weaken; [exact Hlo | by apply ranked_silent].
Qed.

Lemma ranked_unranked lo {A} (m : M A) :
  sat (Every (λ e, phase_of e = None)) m → ranked lo lo m.
Proof.
  intros Hm. split; [done|]. eapply emits_weaken; [exact Hm|].
  intros evs r Hevs. unfold Every in Hevs.
  assert (omap phase_of evs = []) as ->; [ | apply between_nil].
  induction Hevs as [|e evs He _ IH]; [done|]. cbn -[phase_of]. by rewrite He.
Qed.

(** Follows the phases through a method body. *)
Ltac ranked_leaf tac :=
  first [ tac | eapply ranked_weaken; [ | tac ]; simpl; lia ].

Ltac ranked_step :=
  first
    [ progress (intros; cbv beta)
    | lazymatch goal with
      | |- ranked _ _ (bind _ _) => eapply ranked_bind
      | |- ranked _ _ (when _ _) => eapply ranked_when
      | |- ranked _ _ (perform _) =>
          first [ ranked_leaf ltac:(eapply ranked_perform; [reflexivity | simpl; lia])
                | ranked_leaf ltac:(eapply ranked_perform_none; reflexivity) ]
      | |- ranked _ _ (return_if_errors _ _) =>
          first [ ranked_leaf ltac:(eapply ranked_return_if_errors; [reflexivity | simpl; lia])
                | ranked_leaf ltac:(eapply ranked_return_if_errors_none; reflexivity) ]
      | |- ranked _ _ (invariant_no_errors _) =>
          ranked_leaf ltac:(eapply ranked_invariant_no_errors)
      | |- ranked _ _ (if ?b then _ else _) => destruct b
      | |- ranked _ _ (match ?o with Some _ => _ | None => _ end) => destruct o
      | |- ranked _ _ _ => ranked_leaf ltac:(eapply ranked_silent; solve [auto with silent])
      | |- _ ≤ _ => simpl; lia
      end ].

Ltac ranked_walk := repeat ranked_step.

Lemma init_with_cutoff_ranked this code sm cutoff :
  ranked 0 9 (init_with_cutoff this code sm cutoff).
Proof.
  unfold init_with_cutoff, build_heapGraph, reference_counts_pass, serialize_pass.
  ranked_walk.
Qed.

Lemma _execute_ranked this sources : ranked 0 0 (_execute this sources).
Proof.
  unfold _execute, executeSources.
  eapply ranked_bind; [ | | reflexivity].
  - eapply ranked_bind; [ | | reflexivity].
    + by eapply (ranked_perform 0 _ Execute).
    + intros parsed. eapply ranked_bind; [ | | reflexivity].
      * eapply ranked_silent, silent_for_each. intros. apply silent_reserve_identifiers.
      * intros _. eapply ranked_bind; [ | | reflexivity].
        -- by eapply (ranked_perform 0 _ Execute).
        -- intros res. by eapply ranked_silent.
  - intros res_code. apply ranked_unranked.
    destruct (fst res_code); sat_walk; by repeat constructor.
Qed.

Lemma init_before_execute_ranked this : ranked 0 0 (init_before_execute this).
Proof.
  apply ranked_unranked. unfold init_before_execute. sat_walk; by repeat constructor.
Qed.

(** C6 (as amended): in every run of [init] the events go through the phases
    in this order: execution, resolution of the initialized modules,
    independence check (with the React optimization), the optional
    initialization of more modules with its checkpoint, heap visitation,
    its checkpoint, the optional heap graph, the serialization passes, the
    optional stripping of type annotations, the emission of the text.  The
    initialization of more modules thus runs before the heap is visited. *)
Theorem phases_in_code_order this sources sm s :
  ∃ evs, log (snd (init this sources sm s)) = log s ++ evs ∧ in_order code_order evs.
Proof.
  assert (ranked 0 9
            (bind (init_before_execute this) (λ _,
             bind (_execute this sources) (λ code, init_after_execute this code sm))))
    as [_ Hbody].
  { eapply ranked_bind; [apply init_before_execute_ranked | | lia]. intros _.
    eapply ranked_bind; [apply _execute_ranked | | lia]. intros code.
    unfold init_after_execute.
    eapply ranked_bind; [by apply ranked_silent | | lia]. intros cutoff.
    apply init_with_cutoff_ranked. }
  destruct (Hbody s) as (evs & Hlog & Hsorted & _).
  exists evs. split; [ | done]. by unfold init, function_body.
Qed.

(** ** Two runs side by side *)

Section Related.

Context (exact : bool).

Lemma related_bind {A B} (RA : A → A → Prop) (RB : B → B → Prop)
    (m1 m2 : M A) (f1 f2 : A → M B) :
  related exact RA m1 m2 →
  (∀ a1 a2, RA a1 a2 → related exact RB (f1 a1) (f2 a2)) →
  related exact RB (bind m1 f1) (bind m2 f2).
Proof.
  intros Hm Hf s1 s2 Hs. destruct (Hm s1 s2 Hs) as [Hr Hs']. unfold bind.
  destruct (fst (m1 s1)) as [a1|e1|], (fst (m2 s2)) as [a2|e2|]; try done.
  by apply Hf.
Qed.

Lemma related_ret {A} (RA : A → A → Prop) a1 a2 :
  RA a1 a2 → related exact RA (ret a1) (ret a2).
Proof. by intros Ha s1 s2 Hs. Qed.

Lemma related_ret_eq {A} (a : A) : related exact eq (ret a) (ret a).
Proof. by apply related_ret. Qed.

Lemma related_throw {A} (RA : A → A → Prop) e :
  related exact RA (throw e) (throw e).
Proof. by intros s1 s2 Hs. Qed.

Lemma related_gets {A} (f : World Heap → A) : related exact eq (gets f) (gets f).
Proof. intros s1 s2 Hs. split; [ | done]. simpl. by destruct Hs as [-> _]. Qed.

Lemma related_invariant b : related exact eq (invariant b) (invariant b).
Proof. by destruct b; intros s1 s2 Hs. Qed.

Lemma related_set_realm f : related exact eq (set_realm f) (set_realm f).
Proof.
  intros s1 s2 [Hw Ht]. split; [done|]. split; [ | done]. simpl. by rewrite Hw.
Qed.

Lemma related_perform_same {R} (c1 c2 : Call R) :
  (∀ w, handle R c1 w = handle R c2 w) →
  related exact eq (perform c1) (perform c2).
Proof.
  intros Hc s1 s2 [Hw Ht]. unfold perform. simpl. rewrite Hw, Hc. split; [ | done].
  by destruct (fst (handle R c2 (world s2))).
Qed.

Lemma related_perform {R} (c : Call R) : related exact eq (perform c) (perform c).
Proof. by apply related_perform_same. Qed.

Lemma related_return_if_errors lg cp :
  related exact eq (return_if_errors lg cp) (return_if_errors lg cp).
Proof.
  intros s1 s2 [Hw Ht]. unfold return_if_errors. simpl. rewrite Hw. split; [ | done].
  by destruct (hasErrors lg (world s2)).
Qed.

Lemma related_invariant_no_errors lg :
  related exact eq (invariant_no_errors lg) (invariant_no_errors lg).
Proof.
  intros s1 s2 [Hw Ht]. unfold invariant_no_errors. simpl. rewrite Hw. split; [ | done].
  by destruct (hasErrors lg (world s2)).
Qed.

Lemma related_declare_timingStats b :
  related exact eq (declare_timingStats b) (declare_timingStats b).
Proof.
  intros s1 s2 [Hw Ht]. split; [done|]. split; [done|]. simpl.
  destruct exact; [by destruct Ht | by destruct b].
Qed.

Lemma related_stamp u : related exact eq (stamp u) (stamp u).
Proof.
  intros s1 s2 [Hw Ht]. unfold stamp, same_setting. destruct exact.
  - destruct Ht as [Hc Ht]. rewrite Ht, Hc.
    destruct (timingStats s2) eqn:Ht2; simpl; split_and!; congruence.
  - destruct (timingStats s1) eqn:Ht1, (timingStats s2) eqn:Ht2;
      simpl in *; rewrite ?Ht1, ?Ht2; try done.
Qed.

Lemma related_when b m1 m2 :
  related exact eq m1 m2 → related exact eq (when b m1) (when b m2).
Proof. destruct b; [done|]. intros _. by apply related_ret. Qed.

Lemma related_if {A} (RA : A → A → Prop) (b : bool) (m1 m2 n1 n2 : M A) :
  related exact RA m1 m2 → related exact RA n1 n2 →
  related exact RA (if b then m1 else n1) (if b then m2 else n2).
Proof. by destruct b. Qed.

Lemma related_try_finally {A} (m1 m2 : M A) (c1 c2 : M unit) :
  related exact eq m1 m2 → related exact eq c1 c2 →
  related exact eq (try_finally m1 c1) (try_finally m2 c2).
Proof.
  intros Hm Hc s1 s2 Hs. unfold try_finally. cbn [fst snd].
  destruct (Hm s1 s2 Hs) as [Hr Hs']. destruct (Hc _ _ Hs') as [Hr' Hs''].
  split; [ | done].
  destruct (fst (c1 _)), (fst (c2 _)); try done.
Qed.

Lemma related_for_each {A} (xs : list A) (body : A → M unit) :
  (∀ x, related exact eq (body x) (body x)) →
  related exact eq (for_each xs body) (for_each xs body).
Proof.
  intros Hbody. induction xs as [|x xs IH]; simpl.
  - by apply related_ret.
  - eapply related_bind; [apply Hbody | by intros]. 
Qed.

Lemma related_traverseFast node (enter : Node → M bool) :
  (∀ n, related exact eq (enter n) (enter n)) →
  related exact eq (traverseFast node enter) (traverseFast node enter).
Proof.
  intros Henter. induction node as [t x kids IH] using Node_deep_ind.
  simpl. eapply related_bind; [apply Henter|]. intros stop ? <-.
  destruct stop; [by apply related_ret|].
  induction IH as [|k kids Hk _ IHkids]; [by apply related_ret|].
  eapply related_bind; [exact Hk | by intros].
Qed.

Lemma related_reserve_identifiers ast :
  related exact eq (reserve_identifiers ast) (reserve_identifiers ast).
Proof.
  unfold reserve_identifiers.
  eapply related_bind; [apply related_gets|]. intros p ? <-.
  eapply related_bind; [apply related_invariant|]. intros _ _ _.
  apply related_traverseFast. intros n. unfold reserve_node.
  destruct (negb (isIdentifier n)); [by apply related_ret|].
  eapply related_bind; [apply related_set_realm|]. intros _ _ _. by apply related_ret.
Qed.

Lemma related_function_body {A} (RA : option A → option A → Prop)
    (m1 m2 : M (option A)) :
  RA None None →
  related exact RA m1 m2 →
  related exact RA (function_body m1) (function_body m2).
Proof.
  intros Hnone Hm s1 s2 Hs. destruct (Hm s1 s2 Hs) as [Hr Hs']. split; [ | done].
  unfold function_body. cbn [fst].
  by destruct (fst (m1 s1)), (fst (m2 s2)).
Qed.

End Related.

(** Walks through two method bodies in step. *)
Ltac related_step blocks :=
  first
    [ progress (intros; cbv beta in *;
                repeat match goal with
                | H : ?a = ?b |- _ => is_var b; subst b
                | H : ?a = ?b |- _ => is_var a; subst a
                end)
    | blocks
    | lazymatch goal with
      | |- related _ _ (bind _ _) (bind _ _) => eapply related_bind
      | |- related _ _ (ret ?a) (ret ?a) =>
          first [ eapply related_ret_eq | eapply related_ret; reflexivity ]
      | |- related _ _ (throw _) (throw _) => eapply related_throw
      | |- related _ _ (perform _) (perform _) => eapply related_perform
      | |- related _ _ (gets _) (gets _) => eapply related_gets
      | |- related _ _ (invariant _) (invariant _) => eapply related_invariant
      | |- related _ _ (set_realm _) (set_realm _) => eapply related_set_realm
      | |- related _ _ (return_if_errors _ _) (return_if_errors _ _) =>
          eapply related_return_if_errors
      | |- related _ _ (invariant_no_errors _) (invariant_no_errors _) =>
          eapply related_invariant_no_errors
      | |- related _ _ (declare_timingStats _) (declare_timingStats _) =>
          eapply related_declare_timingStats
      | |- related _ _ (stamp _) (stamp _) => eapply related_stamp
      | |- related _ _ (when _ _) (when _ _) => eapply related_when
      | |- related _ _ (try_finally _ _) (try_finally _ _) => eapply related_try_finally
      | |- related _ _ (for_each _ reserve_identifiers) (for_each _ reserve_identifiers) =>
          eapply related_for_each; intros; eapply related_reserve_identifiers
      | |- related _ _ (if _ then _ else _) (if _ then _ else _) => eapply related_if
      | |- related _ _ (match ?c with AbruptCompletion _ _ => _ | NormalValue _ => _ end) _ =>
          destruct c
      end ].

Ltac related_walk_with blocks := repeat related_step blocks.

(** ** The wall clock is only observed *)

Lemma related_get_timingStats :
  related false same_profiling get_timingStats get_timingStats.
Proof. intros s1 s2 [Hw Ht]. by split. Qed.

Lemma init_related this sources sm :
  related false same_but_timing (init this sources sm) (init this sources sm).
Proof.
  unfold init. apply related_function_body; [done|].
  unfold init_before_execute, _execute, executeSources, init_after_execute,
    init_with_cutoff, build_heapGraph, reference_counts_pass, serialize_pass.
  related_walk_with ltac:(first
    [ eapply related_get_timingStats
    | lazymatch goal with
      | |- related _ _ (match heapGraphFormat ?o with Some _ => _ | None => _ end) _ =>
          destruct (heapGraphFormat o)
      | |- related _ same_but_timing (ret _) (ret _) => by eapply related_ret
      end ]).
Qed.

(** X18: what [Date.now()] returns reaches nothing but the timing
    statistics.  Two runs of [init] by the same serializer on the same source
    units from the same world end the same way, whatever the wall clock shows
    during each: both return a result, with the same source text and the same
    components but for the timing statistics, or both return [undefined], or
    both throw the same exception; and they leave the same world. *)
Theorem clock_is_only_observed this sources sm (w : World Heap) (clock1 clock2 : nat → Z) :
  emitted_text (fst (init this sources sm (start w clock1))) =
    emitted_text (fst (init this sources sm (start w clock2))) ∧
  result_rel same_but_timing
    (fst (init this sources sm (start w clock1)))
    (fst (init this sources sm (start w clock2))) ∧
  world (snd (init this sources sm (start w clock1))) =
    world (snd (init this sources sm (start w clock2))).
Proof.
  destruct (init_related this sources sm (start w clock1) (start w clock2))
    as [Hr [Hw _]]; [done|].
  split_and!; [ | done | done].
  destruct (fst (init this sources sm (start w clock1))) as [[r1|]| |],
           (fst (init this sources sm (start w clock2))) as [[r2|]| |];
    try done; simpl in *; unfold same_but_timing in Hr; simplify_eq/=; congruence.
Qed.

(** ** The heap graph *)

Section RelatedUnless.

Context (exact : bool) (D : Exn → St Heap → Prop).




End RelatedUnless.






(** ** What a run does after an error or an exception *)

(** Splits a list of events [e1 ++ e2 = pre ++ e :: post] at [e]. *)
Lemma app_eq_middle {X} (e1 e2 pre post : list X) (e : X) :
  e1 ++ e2 = pre ++ e :: post →
  (∃ post1, e1 = pre ++ e :: post1 ∧ post = post1 ++ e2) ∨
  (∃ pre2, e2 = pre2 ++ e :: post ∧ pre = e1 ++ pre2).
Proof.
  intros Heq. apply app_eq_app in Heq as [k [[-> Hk]|[-> ->]]].
  - destruct k as [|x k]; simplify_eq/=.
    + right. exists []. by rewrite !app_nil_r.
    + left. by exists k.
  - right. by exists k.
Qed.

#[global] Instance StopsAtErrors_compositional : Compositional StopsAtErrors.
Proof.
  split; unfold StopsAtErrors.
  - intros A r pre e post Heq. by destruct pre.
  - intros A B e1 a e2 r H1 H2 pre e post Heq He.
    apply app_eq_middle in Heq as [(post1 & -> & ->)|(pre2 & -> & ->)].
    + destruct (H1 _ _ _ eq_refl He) as [_ Hr]. by destruct (Hr a).
    + by apply (H2 _ _ _ eq_refl).
  - intros A B e1 x H1 pre e post Heq He.
    destruct (H1 _ _ _ Heq He) as [-> _]. done.
  - intros A B e1 H1 pre e post Heq He.
    destruct (H1 _ _ _ Heq He) as [-> _]. done.
Qed.

#[global] Instance NeverCatches_compositional : Compositional NeverCatches.
Proof.
  split; unfold NeverCatches.
  - intros A r pre e post y Heq. by destruct pre.
  - intros A B e1 a e2 r H1 H2 pre e post y Heq He.
    apply app_eq_middle in Heq as [(post1 & -> & ->)|(pre2 & -> & ->)].
    + by destruct (H1 _ _ _ _ eq_refl He) as (_ & x & ? & _).
    + by apply (H2 _ _ _ _ eq_refl).
  - intros A B e1 x H1 pre e post y Heq He.
    destruct (H1 _ _ _ _ Heq He) as (Hpost & x' & ? & Hx); simplify_eq. eauto.
  - intros A B e1 H1 pre e post y Heq He.
    by destruct (H1 _ _ _ _ Heq He) as (_ & x' & ? & _).
Qed.

(** Closes the goal of [sat_walk] for a one-event or two-event leaf of a
    property about the events that follow a given one. *)
Ltac last_event :=
  intros;
  match goal with
  | Heq : _ = ?pre ++ _ :: _ |- _ =>
      destruct pre as [|? [|? pre]]; simplify_eq/=; try (by destruct pre)
  end;
  repeat match goal with
  | H : context [ECheck _ ?b] |- _ => is_var b; destruct b
  | |- context [result_of ?o] => is_var o; destruct o
  | |- context [finally_result ?o _] => is_var o; destruct o
  | |- context [finally_result _ ?o] => is_var o; destruct o
  | |- context [if ?b then _ else _] => is_var b; destruct b
  end;
  simplify_eq/=; repeat split; eauto;
  try (eexists; split; [done|];
       let Hall := fresh in intros Hall; by inversion Hall; simplify_eq/=).

(** X1: a reading of [hasErrors()] that finds errors is the last thing a run
    of [init] does. *)
Theorem errors_stop_the_run this sources sm s :
  ∃ evs,
    log (snd (init this sources sm s)) = log s ++ evs ∧
    ∀ pre e post, evs = pre ++ e :: post → reads_errors e = true →
      post = [] ∧ ∀ res, fst (init this sources sm s) ≠ Ok (Some res).
Proof.
  assert (Hinit : emits (init this sources sm)
            (λ evs r, ∃ r0, StopsAtErrors _ evs r0 ∧ r = at_boundary r0)).
  { apply emits_init; [exact _ | ..].
    - unfold init_before_execute. sat_walk; unfold StopsAtErrors; last_event.
    - unfold _execute, executeSources. sat_walk; unfold StopsAtErrors; last_event.
    - intros code cutoff.
      unfold init_with_cutoff, build_heapGraph, reference_counts_pass, serialize_pass.
      sat_walk; unfold StopsAtErrors; last_event. }
  destruct (Hinit s) as (evs & Hlog & r0 & Hstops & Hr).
  exists evs. split; [done|]. intros pre e post Heq He.
  destruct (Hstops _ _ _ Heq He) as [-> Hr0]. split; [done|].
  intros res. rewrite Hr. destruct r0; simpl; [apply Hr0 | done | done].
Qed.

(** X2: [init] catches no exception.  After a collaborator call that threw,
    [init] calls nothing but [realm.popContext] (the [finally] of line 92),
    and it ends by an exception: the one of the last call that threw. *)
Theorem exceptions_are_not_caught this sources sm s :
  ∃ evs,
    log (snd (init this sources sm s)) = log s ++ evs ∧
    ∀ pre e post y, evs = pre ++ e :: post → thrown_by e = Some y →
      Forall (λ e', pops_context e' = true) post ∧
      ∃ x, fst (init this sources sm s) = Throw x ∧
           (Forall (λ e', thrown_by e' = None) post → x = y).
Proof.
  assert (Hinit : emits (init this sources sm)
            (λ evs r, ∃ r0, NeverCatches _ evs r0 ∧ r = at_boundary r0)).
  { apply emits_init; [exact _ | ..].
    - unfold init_before_execute. sat_walk; unfold NeverCatches; last_event.
    - unfold _execute, executeSources. sat_walk; unfold NeverCatches; last_event.
    - intros code cutoff.
      unfold init_with_cutoff, build_heapGraph, reference_counts_pass, serialize_pass.
      sat_walk; unfold NeverCatches; last_event. }
  destruct (Hinit s) as (evs & Hlog & r0 & Hcatch & Hr).
  exists evs. split; [done|]. intros pre e post y Heq He.
  destruct (Hcatch _ _ _ _ Heq He) as (Hpost & x & -> & Hx).
  split; [done|]. exists x. by rewrite Hr.
Qed.

(** ** Assertions on the states of a run *)

Lemma triple_bind (P R Q : St Heap → Prop) X {A B} (m : M A) (f : A → M B)
    (Φ1 : A → Prop) (Φ : B → Prop) :
  triple P R X m Φ1 → (∀ a, Φ1 a → triple R Q X (f a) Φ) → triple P Q X (bind m f) Φ.
Proof.
  intros Hm Hf s HP. specialize (Hm s HP). unfold bind.
  destruct (fst (m s)) as [a| |]; [|done..].
  destruct Hm as [HR Ha]. by apply Hf.
Qed.

Lemma triple_weaken (P Q : St Heap → Prop) X {A} (m : M A) (Φ Ψ : A → Prop) :
  triple P Q X m Φ → (∀ a, Φ a → Ψ a) → triple P Q X m Ψ.
Proof.
  intros Hm Himp s HP. specialize (Hm s HP).
  destruct (fst (m s)); [|done..]. naive_solver.
Qed.

Lemma triple_ret (P Q : St Heap → Prop) X {A} (a : A) (Φ : A → Prop) :
  (∀ s, P s → Q s) → Φ a → triple P Q X (ret a) Φ.
Proof. intros HPQ Ha s HP. simpl. auto. Qed.

Lemma triple_throw (P Q : St Heap → Prop) X {A} (e : Exn) (Φ : A → Prop) :
  (∀ s, P s → X (Some e) s) → triple P Q X (throw e) Φ.
Proof. intros HX s HP. simpl. auto. Qed.

Lemma triple_invariant (P : St Heap → Prop) X (b : bool) :
  (b = false → ∀ s, P s → X (Some InvariantViolation) s) →
  triple P P X (invariant b) (λ _, b = true).
Proof. intros HX s HP. destruct b; simpl; auto. Qed.

Lemma triple_gets (P : St Heap → Prop) X {A} (g : World Heap → A) :
  triple P P X (gets g) (λ a, ∃ s, P s ∧ a = g (world s)).
Proof. intros s HP. simpl. eauto. Qed.

Lemma triple_get_timingStats (P : St Heap → Prop) X :
  triple P P X get_timingStats (λ a, ∃ s, P s ∧ a = timingStats s).
Proof. intros s HP. simpl. eauto. Qed.

Lemma triple_set_realm (P Q : St Heap → Prop) X (f : Realm → Realm) :
  (∀ s, P s → Q (with_realm s (f (realm (world s))))) →
  triple P Q X (set_realm f) (λ _, True).
Proof. intros HQ s HP. simpl. split; [by apply HQ | done]. Qed.

Lemma triple_perform (P Q : St Heap → Prop) X {R} (c : Call R) :
  (∀ s o w, P s → handle R c (world s) = (o, w) →
     match o with
     | Returns _ => Q (called s c o w)
     | Throws e => X (Some e) (called s c o w)
     end) →
  triple P Q X (perform c) (λ _, True).
Proof.
  intros Hc s HP. specialize (Hc s _ _ HP (surjective_pairing _)).
  unfold perform. simpl. by destruct (fst (handle R c (world s))).
Qed.

Lemma triple_return_if_errors (P Q : St Heap → Prop) X lg cp :
  (∀ s b, P s → b = hasErrors lg (world s) →
     if b then X None (checked s cp b) else Q (checked s cp b)) →
  triple P Q X (return_if_errors lg cp) (λ _, True).
Proof.
  intros Hcp s HP. specialize (Hcp s _ HP eq_refl).
  unfold return_if_errors. simpl. by destruct (hasErrors lg (world s)).
Qed.

Lemma triple_invariant_no_errors (P Q : St Heap → Prop) X lg :
  (∀ s b, P s → b = hasErrors lg (world s) →
     if b then X (Some InvariantViolation) (checked s BeforeReturn b)
     else Q (checked s BeforeReturn b)) →
  triple P Q X (invariant_no_errors lg) (λ _, True).
Proof.
  intros Hcp s HP. specialize (Hcp s _ HP eq_refl).
  unfold invariant_no_errors. simpl. by destruct (hasErrors lg (world s)).
Qed.

Lemma triple_declare_timingStats (P Q : St Heap → Prop) X (profiling : bool) :
  (∀ s, P s →
     Q {| world := world s; clock := clock s;
          timingStats := if profiling then Some new_TimingStatistics else None;
          log := log s |}) →
  triple P Q X (declare_timingStats profiling) (λ _, True).
Proof. intros HQ s HP. simpl. split; [by apply HQ | done]. Qed.

Lemma triple_stamp (P Q : St Heap → Prop) X update :
  (∀ s, P s → timingStats s = None → Q s) →
  (∀ s t, P s → timingStats s = Some t → Q (stamped s (update (clock s 0) t))) →
  triple P Q X (stamp update) (λ _, True).
Proof.
  intros Hnone Hsome s HP. unfold stamp.
  destruct (timingStats s) as [t|] eqn:Ht; simpl; split; auto.
  by apply Hsome.
Qed.

Lemma triple_when (P : St Heap → Prop) X (b : bool) (m : M unit) :
  (b = true → triple P P X m (λ _, True)) → triple P P X (when b m) (λ _, True).
Proof. intros Hm. destruct b; [by apply Hm | by intros s HP]. Qed.

Lemma triple_for_each_Forall (P : St Heap → Prop) X {A} (xs : list A)
    (body : A → M unit) :
  Forall (λ x, triple P P X (body x) (λ _, True)) xs →
  triple P P X (for_each xs body) (λ _, True).
Proof.
  induction 1 as [|x xs Hx _ IH]; simpl.
  - by intros s HP.
  - eapply triple_bind; [apply Hx | by intros _ _].
Qed.

Lemma triple_for_each (P : St Heap → Prop) X {A} (xs : list A) (body : A → M unit) :
  (∀ x, triple P P X (body x) (λ _, True)) → triple P P X (for_each xs body) (λ _, True).
Proof. intros Hbody. apply triple_for_each_Forall. by apply Forall_forall. Qed.

Lemma triple_traverseFast (P : St Heap → Prop) X node (enter : Node → M bool) :
  (∀ n, triple P P X (enter n) (λ _, True)) →
  triple P P X (traverseFast node enter) (λ _, True).
Proof.
  intros Henter. induction node as [t x kids IH] using Node_deep_ind.
  intros s HP. rewrite traverseFast_eq. specialize (Henter (mkNode t x kids) s HP).
  destruct (fst (enter (mkNode t x kids) s)) as [[|]| |]; [by destruct Henter | | done..].
  destruct Henter as [HP' _]. simpl.
  by apply triple_for_each_Forall.
Qed.

Lemma triple_try_finally_perform (P Q : St Heap → Prop) X {A} (c1 : Call A)
    (c2 : Call unit) :
  (∀ s o1 w1 o2 w2, P s → handle A c1 (world s) = (o1, w1) →
     handle unit c2 w1 = (o2, w2) →
     match finally_result o1 o2 with
     | Ok _ => Q (called (called s c1 o1 w1) c2 o2 w2)
     | Throw e => X (Some e) (called (called s c1 o1 w1) c2 o2 w2)
     | ReturnUndefined => True
     end) →
  triple P Q X (try_finally (perform c1) (perform c2)) (λ _, True).
Proof.
  intros Hc s HP.
  specialize (Hc s _ _ _ _ HP (surjective_pairing _) (surjective_pairing _)).
  unfold try_finally, perform, called in *. simpl in *.
  destruct (fst (handle unit c2 _)), (fst (handle A c1 _)); simpl in *; auto.
Qed.

(** Walks through a method body, leaving the conditions on the states. *)
Ltac triple_step blocks :=
  first
    [ progress (intros; cbv beta)
    | blocks
    | lazymatch goal with
      | |- triple _ _ _ (bind (gets _) _) _ => eapply triple_bind; [apply triple_gets|]
      | |- triple _ _ _ (bind get_timingStats _) _ =>
          eapply triple_bind; [apply triple_get_timingStats|]
      | |- triple _ _ _ (bind (invariant _) _) _ =>
          eapply triple_bind; [apply triple_invariant|]
      | |- triple ?P _ _ (bind _ _) _ => eapply (triple_bind P P) with (Φ1 := λ _, True)
      | |- triple _ _ _ (when _ _) _ => apply triple_when
      | |- triple _ _ _ (for_each _ _) _ => apply triple_for_each
      | |- triple _ _ _ (traverseFast _ _) _ => apply triple_traverseFast
      | |- triple _ _ _ (perform _) _ => apply triple_perform
      | |- triple _ _ _ (return_if_errors _ _) _ => apply triple_return_if_errors
      | |- triple _ _ _ (invariant_no_errors _) _ => apply triple_invariant_no_errors
      | |- triple _ _ _ (try_finally _ _) _ => apply triple_try_finally_perform
      | |- triple _ _ _ (stamp _) _ => apply triple_stamp
      | |- triple _ _ _ (declare_timingStats _) _ => apply triple_declare_timingStats
      | |- triple _ _ _ (set_realm _) _ => apply triple_set_realm
      | |- triple _ _ _ (throw _) _ => apply triple_throw
      | |- triple _ _ _ (ret _) _ => apply triple_ret
      | |- triple _ _ _ (if ?b then _ else _) _ => destruct b eqn:?
      | |- triple _ _ _ (match ?o with Some _ => _ | None => _ end) _ => destruct o eqn:?
      | |- triple _ _ _ (match ?c with AbruptCompletion _ _ => _ | NormalValue _ => _ end) _ =>
          destruct c eqn:?
      end ].

Ltac triple_walk_with blocks := repeat triple_step blocks.

Ltac triple_walk := triple_walk_with fail.

(** From an assertion on the body of [init] to [init] itself. *)
Lemma triple_init (P Q : St Heap → Prop) X this sources sm
    (Φ : option SerializedResult → Prop) :
  triple P Q X
    (bind (init_before_execute this) (λ _,
     bind (_execute this sources) (λ code,
     init_after_execute this code sm))) Φ →
  ∀ s, P s →
    match fst (init this sources sm s) with
    | Ok (Some res) => Q (snd (init this sources sm s)) ∧ Φ (Some res)
    | Ok None =>
        X None (snd (init this sources sm s)) ∨
        (Q (snd (init this sources sm s)) ∧ Φ None)
    | Throw e => X (Some e) (snd (init this sources sm s))
    | ReturnUndefined => False
    end.
Proof.
  intros Hbody s HP. specialize (Hbody s HP).
  unfold init, function_body. simpl.
  destruct (fst (bind _ _ s)) as [[res|]| |]; simpl; auto.
Qed.

(** Closes a condition on states that holds by computation. *)
Ltac state_condition :=
  intros; unfold called, checked, stamped, with_realm in *; simpl in *;
  repeat case_match; simplify_eq/=; naive_solver.

(** ** The timing statistics *)

(** X3: the result carries timing statistics exactly when [profile] is set,
    and without [profile] a run of [init] never reads the clock. *)
Theorem timing_only_when_profiling this sources sm s :
  (profile (options this) = false → clock (snd (init this sources sm s)) = clock s) ∧
  ∀ res, fst (init this sources sm s) = Ok (Some res) →
    (is_Some (result_timingStats res) ↔ profile (options this) = true).
Proof.
  destruct (profile (options this)) eqn:Hprofile.
  - split; [done|]. intros res Hres. split; [done|]. intros _.
    pose (Inv := λ s' : St Heap, is_Some (timingStats s')).
    assert (Hbody : triple (λ _, True) Inv (λ _ _, True)
              (bind (init_before_execute this) (λ _,
               bind (_execute this sources) (λ code,
               init_after_execute this code sm)))
              (λ a, ∀ res, a = Some res → is_Some (result_timingStats res))).
    { unfold init_before_execute, _execute, executeSources, reserve_identifiers,
        reserve_node, init_after_execute, init_with_cutoff, build_heapGraph,
        reference_counts_pass, serialize_pass.
      rewrite Hprofile.
      triple_walk_with ltac:(
        idtac; lazymatch goal with
        | |- triple (λ _, True) _ _ (bind _ _) _ =>
            eapply (triple_bind _ Inv) with (Φ1 := λ _, True)
        end); subst Inv; state_condition. }
    apply (λ H, triple_init _ _ _ _ _ _ _ H s I) in Hbody.
    rewrite Hres in Hbody. destruct Hbody as [_ Hbody]. by apply Hbody.
  - pose (Inv := λ s' : St Heap, timingStats s' = None ∧ clock s' = clock s).
    assert (Hbody : triple (λ s', clock s' = clock s) Inv (λ _, Inv)
              (bind (init_before_execute this) (λ _,
               bind (_execute this sources) (λ code,
               init_after_execute this code sm)))
              (λ a, ∀ res, a = Some res → result_timingStats res = None)).
    { unfold init_before_execute, _execute, executeSources, reserve_identifiers,
        reserve_node, init_after_execute, init_with_cutoff, build_heapGraph,
        reference_counts_pass, serialize_pass.
      rewrite Hprofile.
      triple_walk_with ltac:(
        idtac; lazymatch goal with
        | |- triple (λ s', clock s' = _) _ _ (bind _ _) _ =>
            eapply (triple_bind _ Inv) with (Φ1 := λ _, True)
        end); subst Inv; state_condition. }
    apply (λ H, triple_init (λ s', clock s' = clock s) _ _ _ _ _ _ H s eq_refl) in Hbody.
    split.
    + intros _. destruct (fst (init this sources sm s)) as [[res|]| |];
        subst Inv; naive_solver.
    + intros res Hres. rewrite Hres in Hbody. destruct Hbody as [_ Hbody].
      rewrite (Hbody res eq_refl). split; [by intros [? ?] | done].
Qed.

Section Timed.

Context (c : nat → Z).

Lemma timed_perform k t {R} (call : Call R) :
  triple (at_time c k t) (at_time c k t) anyhow (perform call) (λ _, True).
Proof. apply triple_perform. intros s o w Hs _. by destruct o. Qed.

Lemma timed_return_if_errors k t lg cp :
  triple (at_time c k t) (at_time c k t) anyhow (return_if_errors lg cp) (λ _, True).
Proof. apply triple_return_if_errors. intros s b Hs _. by destruct b. Qed.

Lemma timed_invariant_no_errors k t lg :
  triple (at_time c k t) (at_time c k t) anyhow (invariant_no_errors lg) (λ _, True).
Proof. apply triple_invariant_no_errors. intros s b Hs _. by destruct b. Qed.

Lemma timed_set_realm k t f :
  triple (at_time c k t) (at_time c k t) anyhow (set_realm f) (λ _, True).
Proof. by apply triple_set_realm. Qed.

Lemma timed_try_finally_perform k t {A} (c1 : Call A) (c2 : Call unit) :
  triple (at_time c k t) (at_time c k t) anyhow
    (try_finally (perform c1) (perform c2)) (λ _, True).
Proof.
  apply triple_try_finally_perform. intros s o1 w1 o2 w2 Hs _ _.
  by destruct o1, o2.
Qed.

Lemma timed_stamp k t update :
  triple (at_time c k t) (at_time c (S k) (update (c k) t)) anyhow
    (stamp update) (λ _, True).
Proof.
  apply triple_stamp.
  - intros s [_ Ht] Hnone. congruence.
  - intros s t' [Hclock Ht] Ht'. simplify_eq. split; simpl.
    + intros n. rewrite Hclock. f_equal. lia.
    + rewrite Hclock. do 3 f_equal. lia.
Qed.

Lemma timed_get_timingStats k t :
  triple (at_time c k t) (at_time c k t) anyhow get_timingStats (λ a, a = Some t).
Proof. intros s Hs. simpl. split; [done|]. by destruct Hs. Qed.

Lemma timed_when k t k' t' (b : bool) (m : M unit) :
  triple (at_time c k t) (at_time c k' t') anyhow m (λ _, True) →
  triple (at_time c k t) (at_time c (if b then k' else k) (if b then t' else t)) anyhow
    (when b m) (λ _, True).
Proof. intros Hm. destruct b; [done | by intros s Hs]. Qed.

Lemma timed_declare s :
  triple (eq s) (at_time (clock s) 0 new_TimingStatistics) anyhow
    (declare_timingStats true) (λ _, True).
Proof. intros s' <-. by simpl. Qed.

End Timed.

(** Walks through a method body, counting the readings of the clock. *)
Ltac timed_step :=
  first
    [ progress (intros; cbv beta)
    | lazymatch goal with
      | |- triple _ _ _ (bind (gets _) _) _ => eapply triple_bind; [apply triple_gets|]
      | |- triple _ _ _ (bind get_timingStats _) _ =>
          eapply triple_bind; [apply timed_get_timingStats|]
      | |- triple _ _ _ (bind (invariant _) _) _ =>
          eapply triple_bind; [by apply triple_invariant|]
      | |- triple _ _ _ (bind _ _) _ => eapply triple_bind with (Φ1 := λ _, True)
      | |- triple _ _ _ (when _ (perform _)) _ => apply triple_when
      | |- triple _ _ _ (when _ _) _ => apply timed_when
      | |- triple _ _ _ (for_each _ _) _ => apply triple_for_each
      | |- triple _ _ _ (traverseFast _ _) _ => apply triple_traverseFast
      | |- triple _ _ _ (perform _) _ => apply timed_perform
      | |- triple _ _ _ (return_if_errors _ _) _ => apply timed_return_if_errors
      | |- triple _ _ _ (invariant_no_errors _) _ => apply timed_invariant_no_errors
      | |- triple _ _ _ (try_finally _ _) _ => apply timed_try_finally_perform
      | |- triple _ _ _ (stamp _) _ => apply timed_stamp
      | |- triple _ _ _ (declare_timingStats true) _ => apply timed_declare
      | |- triple _ _ _ (set_realm _) _ => apply timed_set_realm
      | |- triple _ _ _ (throw _) _ => by apply triple_throw
      | |- triple _ _ _ (ret _) (λ _, True) =>
          apply triple_ret; [intros ? HP; exact HP | exact I]
      | |- triple _ _ _ (if ?b then _ else _) _ => destruct b eqn:?
      | |- triple _ _ _ (match ?o with Some _ => _ | None => _ end) _ => destruct o eqn:?
      | |- triple _ _ _ (match ?c with AbruptCompletion _ _ => _ | NormalValue _ => _ end) _ =>
          destruct c eqn:?
      end ].

Ltac timed_walk := repeat timed_step.

Lemma timing_values this sources sm s res :
  profile (options this) = true →
  fst (init this sources sm s) = Ok (Some res) →
  let im := if initializeMoreModules (options this) then 2 else 0 in
  let rc := if inlineExpressions (options this) then 2 else 0 in
  (∀ n, clock (snd (init this sources sm s)) n = clock s (8 + im + rc + n)) ∧
  ∃ t, result_timingStats res = Some t ∧
    totalTime t = (clock s (7 + im + rc) - clock s 0)%Z ∧
    globalCodeTime t = (clock s 2 - clock s 1)%Z ∧
    initializeMoreModulesTime t =
      (if initializeMoreModules (options this) then clock s 4 - clock s 3 else 0)%Z ∧
    deepTraversalTime t = (clock s (4 + im) - clock s (3 + im))%Z ∧
    referenceCountsTime t =
      (if inlineExpressions (options this)
       then clock s (6 + im) - clock s (5 + im) else 0)%Z ∧
    serializePassTime t = (clock s (6 + im + rc) - clock s (5 + im + rc))%Z.
Proof.
  intros Hprofile Hres.
  eassert (Hbody : triple (eq s) (at_time (clock s) _ _) anyhow
            (bind (init_before_execute this) (λ _,
             bind (_execute this sources) (λ code,
             init_after_execute this code sm)))
            (λ a, ∀ res, a = Some res → result_timingStats res = Some _)).
  { unfold init_before_execute, _execute, executeSources, reserve_identifiers,
      reserve_node, init_after_execute, init_with_cutoff, build_heapGraph,
      reference_counts_pass, serialize_pass.
    rewrite Hprofile. timed_walk.
    apply triple_ret; [intros ? HP; exact HP|]. intros ? ?. simplify_eq/=. done. }
  apply (λ H, triple_init (eq s) _ _ _ _ _ _ H s eq_refl) in Hbody.
  rewrite Hres in Hbody. destruct Hbody as [[Hclock _] Ht].
  specialize (Ht res eq_refl).
  split.
  - intros n. rewrite Hclock.
    by destruct (initializeMoreModules (options this)),
      (inlineExpressions (options this)), (logStatistics (options this)).
  - eexists. split; [exact Ht|].
    by destruct (initializeMoreModules (options this)),
      (inlineExpressions (options this)), (logStatistics (options this)).
Qed.

(** X4: in a profiled run that returns a result, every time of the timing
    statistics is the difference of the two readings of the clock around its
    phase, the total time that of the first and last reading, and the time
    of a phase that did not run is zero. *)
Theorem timing_statistics_values this sources sm s res :
  profile (options this) = true →
  fst (init this sources sm s) = Ok (Some res) →
  let im := if initializeMoreModules (options this) then 2 else 0 in
  let rc := if inlineExpressions (options this) then 2 else 0 in
  (∀ n, clock (snd (init this sources sm s)) n = clock s (8 + im + rc + n)) ∧
  ∃ t, result_timingStats res = Some t ∧
    totalTime t = (clock s (7 + im + rc) - clock s 0)%Z ∧
    globalCodeTime t = (clock s 2 - clock s 1)%Z ∧
    initializeMoreModulesTime t =
      (if initializeMoreModules (options this) then clock s 4 - clock s 3 else 0)%Z ∧
    deepTraversalTime t = (clock s (4 + im) - clock s (3 + im))%Z ∧
    referenceCountsTime t =
      (if inlineExpressions (options this)
       then clock s (6 + im) - clock s (5 + im) else 0)%Z ∧
    serializePassTime t = (clock s (6 + im + rc) - clock s (5 + im + rc))%Z.
Proof. apply timing_values. Qed.

Lemma monotone_clock (c : nat → Z) (a b : nat) :
  (∀ n, (c n ≤ c (S n))%Z) → a ≤ b → (c a ≤ c b)%Z.
Proof.
  intros Hc Hab. induction Hab as [|b Hab IH]; [done|].
  etrans; [exact IH | apply Hc].
Qed.

(** X5: when the clock never goes back, the six times of a profiled run that
    returns a result are not negative, and the total time is at least the
    sum of the five others. *)
Theorem timing_is_additive this sources sm s res :
  profile (options this) = true →
  fst (init this sources sm s) = Ok (Some res) →
  (∀ n, (clock s n ≤ clock s (S n))%Z) →
  ∃ t, result_timingStats res = Some t ∧
    (0 ≤ globalCodeTime t)%Z ∧ (0 ≤ initializeMoreModulesTime t)%Z ∧
    (0 ≤ deepTraversalTime t)%Z ∧ (0 ≤ referenceCountsTime t)%Z ∧
    (0 ≤ serializePassTime t)%Z ∧
    (globalCodeTime t + initializeMoreModulesTime t + deepTraversalTime t +
     referenceCountsTime t + serializePassTime t ≤ totalTime t)%Z.
Proof.
  intros Hprofile Hres Hclock.
  destruct (timing_values this sources sm s res Hprofile Hres)
    as (_ & t & Ht & Htotal & Hglobal & Hmore & Hdeep & Hcounts & Hpass).
  exists t. split; [done|]. revert Htotal Hglobal Hmore Hdeep Hcounts Hpass.
  assert (Hle : ∀ a b, a ≤ b → (clock s a ≤ clock s b)%Z)
    by (intros; by apply monotone_clock).
  destruct (initializeMoreModules (options this)), (inlineExpressions (options this));
    simpl.
  - pose proof (Hle 0 1). pose proof (Hle 1 2). pose proof (Hle 2 3).
    pose proof (Hle 3 4). pose proof (Hle 4 5). pose proof (Hle 5 6).
    pose proof (Hle 6 7). pose proof (Hle 7 8). pose proof (Hle 8 9).
    pose proof (Hle 9 10). pose proof (Hle 10 11). intros. lia.
  - pose proof (Hle 0 1). pose proof (Hle 1 2). pose proof (Hle 2 3).
    pose proof (Hle 3 4). pose proof (Hle 4 5). pose proof (Hle 5 6).
    pose proof (Hle 6 7). pose proof (Hle 7 8). pose proof (Hle 8 9). intros. lia.
  - pose proof (Hle 0 1). pose proof (Hle 1 2). pose proof (Hle 2 3).
    pose proof (Hle 3 4). pose proof (Hle 4 5). pose proof (Hle 5 6).
    pose proof (Hle 6 7). pose proof (Hle 7 8). pose proof (Hle 8 9). intros. lia.
  - pose proof (Hle 0 1). pose proof (Hle 1 2). pose proof (Hle 2 3).
    pose proof (Hle 3 4). pose proof (Hle 4 5). pose proof (Hle 5 6).
    pose proof (Hle 6 7). pose proof (Hle 7 8). intros. lia.
Qed.

(** ** The heap graph and the clock *)



(** ** Assertions on the events logged since a given state *)

Lemma since_start s0 (J : St Heap → list Event → Prop) :
  J s0 [] → since s0 J s0.
Proof. intros HJ. exists []. by rewrite app_nil_r. Qed.

Lemma since_called s0 (J J' : St Heap → list Event → Prop) s {R} (c : Call R) o w :
  since s0 J s →
  (∀ evs, log s = log s0 ++ evs → J s evs → J' (called s c o w) (evs ++ [ECall c o])) →
  since s0 J' (called s c o w).
Proof.
  intros (evs & Hlog & HJ) Hstep. exists (evs ++ [ECall c o]). split.
  - simpl. by rewrite Hlog, app_assoc.
  - by apply Hstep.
Qed.

Lemma since_checked s0 (J J' : St Heap → list Event → Prop) s cp b :
  since s0 J s →
  (∀ evs, log s = log s0 ++ evs → J s evs → J' (checked s cp b) (evs ++ [ECheck cp b])) →
  since s0 J' (checked s cp b).
Proof.
  intros (evs & Hlog & HJ) Hstep. exists (evs ++ [ECheck cp b]). split.
  - simpl. by rewrite Hlog, app_assoc.
  - by apply Hstep.
Qed.

Lemma since_silent s0 (J J' : St Heap → list Event → Prop) s s' :
  since s0 J s → log s' = log s →
  (∀ evs, log s = log s0 ++ evs → J s evs → J' s' evs) →
  since s0 J' s'.
Proof.
  intros (evs & Hlog & HJ) Hsame Hstep. exists evs. split.
  - by rewrite Hsame.
  - by apply Hstep.
Qed.

Lemma since_called2 s0 (J J' : St Heap → list Event → Prop) s {R1 R2}
    (c1 : Call R1) o1 w1 (c2 : Call R2) o2 w2 :
  since s0 J s →
  (∀ evs, log s = log s0 ++ evs → J s evs →
     J' (called (called s c1 o1 w1) c2 o2 w2) (evs ++ [ECall c1 o1; ECall c2 o2])) →
  since s0 J' (called (called s c1 o1 w1) c2 o2 w2).
Proof.
  intros (evs & Hlog & HJ) Hstep. exists (evs ++ [ECall c1 o1; ECall c2 o2]). split.
  - simpl. by rewrite Hlog, <- !app_assoc.
  - by apply Hstep.
Qed.

Lemma since_called_realm s0 (J J' : St Heap → list Event → Prop) s {R}
    (c : Call R) o w r :
  since s0 J s →
  (∀ evs, log s = log s0 ++ evs → J s evs →
     J' (with_realm (called s c o w) r) (evs ++ [ECall c o])) →
  since s0 J' (with_realm (called s c o w) r).
Proof.
  intros (evs & Hlog & HJ) Hstep. exists (evs ++ [ECall c o]). split.
  - simpl. by rewrite Hlog, app_assoc.
  - by apply Hstep.
Qed.

(** Reduces an assertion on the state after a step to one on the events. *)
Ltac since_step :=
  lazymatch goal with
  | H : since _ _ ?s |- since _ _ (called (called ?s _ _ _) _ _ _) =>
      eapply since_called2; [exact H|]
  | H : since _ _ ?s |- since _ _ (called ?s _ _ _) => eapply since_called; [exact H|]
  | H : since _ _ ?s |- since _ _ (with_realm (called ?s _ _ _) _) =>
      eapply since_called_realm; [exact H|]
  | H : since _ _ ?s |- since _ _ (checked ?s _ _) => eapply since_checked; [exact H|]
  | H : since _ _ ?s |- since _ _ _ => eapply since_silent; [exact H | reflexivity | ]
  end.

(** Takes apart the ways a step can end. *)
Ltac outcomes :=
  intros;
  repeat match goal with
  | |- match ?o with Returns _ => _ | Throws _ => _ end => destruct o
  | |- match finally_result ?o1 ?o2 with Ok _ => _ | Throw _ => _ | ReturnUndefined => _ end =>
      destruct o1, o2; simpl
  | |- if ?b then _ else _ => destruct b
  | u : unit |- _ => destruct u
  end;
  try exact I.

(** The check for a prelude generator of lines 75-76, 135-136 and 161-162. *)
Lemma triple_prelude_check (P Q : St Heap → Prop) X {B} (k : M B) (Φ : B → Prop) :
  (∀ s, P s → preludeGenerator (realm (world s)) = None →
     X (Some InvariantViolation) s) →
  ((∃ s, P s ∧ is_Some (preludeGenerator (realm (world s)))) → triple P Q X k Φ) →
  triple P Q X
    (bind (gets (λ w, preludeGenerator (realm w)))
       (λ p, bind (invariant (bool_decide (is_Some p))) (λ _, k))) Φ.
Proof.
  intros HX Hk s HP. unfold bind at 1. simpl. unfold bind. simpl.
  destruct (preludeGenerator (realm (world s))) as [p|] eqn:Hp; simpl.
  - apply Hk; [|done]. exists s. by rewrite Hp.
  - by apply HX.
Qed.

(** Lines 95-96: the diagnostic is reported, then [FatalError] is thrown. *)
Lemma triple_report_fatal (P Q : St Heap → Prop) X diagnostic {B} (Φ : B → Prop) :
  (∀ s o w, P s → handle unit (Realm_handleError diagnostic) (world s) = (o, w) →
     match o with
     | Returns _ => X (Some FatalError) (called s (Realm_handleError diagnostic) o w)
     | Throws e => X (Some e) (called s (Realm_handleError diagnostic) o w)
     end) →
  triple P Q X (bind (perform (Realm_handleError diagnostic)) (λ _, throw FatalError)) Φ.
Proof.
  intros Hc s HP. specialize (Hc s _ _ HP (surjective_pairing _)).
  unfold bind, perform, throw, called in *. simpl in *.
  by destruct (fst (handle unit _ (world s))).
Qed.

(** ** The exceptions of [init] *)

(** X6: [init] ends by an exception only in three ways: by [FatalError],
    right after it reported the diagnostic of line 94; by an invariant
    violation, when the realm has no prelude generator or the logger has
    errors at line 259; or by an exception that a collaborator threw. *)
Theorem init_throws_because this sources sm s x :
  fst (init this sources sm s) = Throw x →
  ∃ evs,
    log (snd (init this sources sm s)) = log s ++ evs ∧
    thrown_because x (world (snd (init this sources sm s))) evs.
Proof.
  intros Hthrows.
  pose (X := λ (o : option Exn) (s' : St Heap),
          match o with
          | Some x => since s (λ s' evs, thrown_because x (world s') evs) s'
          | None => True
          end).
  assert (Hbody : triple (since s (λ _ _, True)) (since s (λ _ _, True)) X
            (bind (init_before_execute this) (λ _,
             bind (_execute this sources) (λ code,
             init_after_execute this code sm))) (λ _, True)).
  { unfold init_before_execute, _execute, executeSources, reserve_identifiers,
      reserve_node, init_after_execute, init_with_cutoff, build_heapGraph,
      reference_counts_pass, serialize_pass.
    triple_walk_with ltac:(
      idtac; lazymatch goal with
      | |- triple _ _ _ (bind (gets (λ w, preludeGenerator (realm w))) _) _ =>
          apply triple_prelude_check; [|intros _]
      | |- triple _ _ _ (bind (perform (Realm_handleError _)) _) _ =>
          apply triple_report_fatal
      end).
    all: subst X; simpl; outcomes; try done.
    all: since_step; intros; unfold thrown_because, ends_with;
      rewrite ?Exists_app, ?Exists_cons; simpl; naive_solver. }
  apply (λ H, triple_init (since s (λ _ _, True)) _ _ _ _ _ _ H s) in Hbody;
    [|by apply since_start].
  rewrite Hthrows in Hbody. exact Hbody.
Qed.

(** ** Returning [undefined] *)

(** X7: [init] returns [undefined] exactly when the last thing it did was to
    read [hasErrors()] at one of the four checkpoints and find errors. *)
Theorem undefined_iff_errors_at_checkpoint this sources sm s :
  ∃ evs,
    log (snd (init this sources sm s)) = log s ++ evs ∧
    (fst (init this sources sm s) = Ok None ↔
     ∃ cp, cp ≠ BeforeReturn ∧ ends_with evs (ECheck cp true)).
Proof.
  destruct (init_checked this sources sm s) as (evs & Hlog & r0 & [Hchecked _] & Hr).
  exists evs. split; [done|]. split.
  - intros Hnone.
    pose (X := λ (o : option Exn) (s' : St Heap),
            match o with
            | Some _ => True
            | None => since s (λ _ evs, ∃ cp, cp ≠ BeforeReturn ∧
                                  ends_with evs (ECheck cp true)) s'
            end).
    assert (Hbody : triple (since s (λ _ _, True)) (since s (λ _ _, True)) X
              (bind (init_before_execute this) (λ _,
               bind (_execute this sources) (λ code,
               init_after_execute this code sm))) (λ a, a ≠ None)).
    { unfold init_before_execute, _execute, executeSources, reserve_identifiers,
        reserve_node, init_after_execute, init_with_cutoff, build_heapGraph,
        reference_counts_pass, serialize_pass.
      triple_walk.
      all: subst X; simpl; outcomes; try done.
      all: since_step; intros; unfold ends_with; naive_solver. }
    apply (λ H, triple_init (since s (λ _ _, True)) _ _ _ _ _ _ H s) in Hbody;
      [|by apply since_start].
    rewrite Hnone in Hbody. destruct Hbody as [(evs' & Hlog' & Hcp)|[_ ?]]; [|done].
    rewrite Hlog in Hlog'. by apply app_inv_head in Hlog' as <-.
  - intros (cp & Hcp & pre & ->). rewrite Hr, Hchecked; [done|].
    apply Exists_app. right. constructor. by destruct cp.
Qed.

(** ** A realm without a prelude generator *)

Lemma triple_for_each_never (P : St Heap → Prop) X {A} (xs : list A)
    (body : A → M unit) :
  (∀ x, triple P (λ _, False) X (body x) (λ _, True)) →
  triple P P X (for_each xs body) (λ _, xs = []).
Proof.
  intros Hbody. destruct xs as [|x xs]; [by intros s HP|].
  intros s HP. simpl. unfold bind. specialize (Hbody x s HP).
  destruct (fst (body x s)); [by destruct Hbody | done..].
Qed.

(** X8: when the realm has no prelude generator and no collaborator installs
    one, [init] returns no result, evaluates no program that has a tree, and
    makes none of the calls that follow the check of line 136. *)
Theorem no_prelude_generator_no_result this sources sm s :
  (∀ R (c : Call R) w, preludeGenerator (realm w) = None →
     preludeGenerator (realm (snd (handle R c w))) = None) →
  preludeGenerator (realm (world s)) = None →
  (∀ res, fst (init this sources sm s) ≠ Ok (Some res)) ∧
  ∃ evs,
    log (snd (init this sources sm s)) = log s ++ evs ∧
    Forall (λ e, evaluates_a_tree e = false ∧ after_prelude_check e = false) evs.
Proof.
  intros Hframe Hnone.
  pose (Inv := since s (λ s' evs,
          preludeGenerator (realm (world s')) = None ∧
          Forall (λ e, evaluates_a_tree e = false ∧ after_prelude_check e = false) evs)).
  assert (Hbody : triple Inv Inv (λ _, Inv)
            (bind (init_before_execute this) (λ _,
             bind (_execute this sources) (λ code,
             init_after_execute this code sm))) (λ _, False)).
  { unfold init_before_execute, _execute, executeSources, reserve_identifiers,
      reserve_node, init_after_execute, init_with_cutoff, build_heapGraph,
      reference_counts_pass, serialize_pass.
    triple_walk_with ltac:(
      idtac; lazymatch goal with
      | |- triple _ _ _ (bind (gets (λ w, preludeGenerator (realm w))) _) _ =>
          apply triple_prelude_check;
          [ done
          | let H := fresh in
            intros (? & (? & _ & H & _) & [? ?]); congruence ]
      | |- triple _ _ _ (bind (for_each _ _) _) _ =>
          eapply triple_bind; [apply triple_for_each_never|]
      end).
    all: subst Inv; simpl; outcomes; try done.
    all: repeat match goal with
         | Hcall : handle ?R ?c ?w0 = (_, ?w) |- _ =>
             assert (w = snd (handle R c w0)) as -> by (by rewrite Hcall); clear Hcall
         end.
    all: since_step; intros ? ? [? ?]; simpl;
      (split; [by auto | rewrite ?Forall_app, ?Forall_cons; simpl; simplify_eq/=;
                         repeat match goal with
                         | H : fst ?p = [] |- _ => rewrite H
                         end; by auto]). }
  apply (λ H, triple_init Inv _ _ _ _ _ _ H s) in Hbody;
    [|by apply since_start].
  split.
  - intros res Hres. rewrite Hres in Hbody. by destruct Hbody.
  - destruct (fst (init this sources sm s)) as [[res|]| |]; subst Inv.
    + by destruct Hbody.
    + destruct Hbody as [(evs & ? & _ & ?)|[_ []]]. eauto.
    + destruct Hbody as (evs & ? & _ & ?). eauto.
    + done.
Qed.

(** ** The constructor, call by call *)

Lemma new_Serializer_yields serializerOptions :
  yields (new_Serializer serializerOptions)
    (λ this evs,
       options this = serializerOptions ∧
       ∃ realm_generator tracer,
         evs = constructor_calls serializerOptions this realm_generator tracer).
Proof.
  unfold new_Serializer, constructor_calls.
  eapply yields_weaken; [yields_walk | ].
  intros this evs Hevs. simpl in Hevs.
  destruct (trace serializerOptions); unpack.
  - split; [done|]. by do 2 eexists.
  - split; [done|]. eexists _, 0. reflexivity.
Qed.

(** X9: a constructor call that returns found [useAbstractInterpretation] set,
    made the calls of lines 42-61 in order, each collaborator getting the
    objects created before it, and its fields are what these calls returned. *)
Theorem constructor_wiring serializerOptions s this :
  fst (new_Serializer serializerOptions s) = Ok this →
  useAbstractInterpretation (realm (world s)) = true ∧
  options this = serializerOptions ∧
  ∃ realm_generator tracer,
    log (snd (new_Serializer serializerOptions s)) =
      log s ++ constructor_calls serializerOptions this realm_generator tracer.
Proof.
  intros Hthis. split.
  - destruct (useAbstractInterpretation (realm (world s))) eqn:Habstract; [done|].
    revert Hthis. unfold new_Serializer. unfold bind at 1. simpl.
    unfold bind at 1. by rewrite Habstract.
  - destruct (new_Serializer_yields serializerOptions s this Hthis)
      as (evs & Hlog & Hoptions & realm_generator & tracer & ->). eauto.
Qed.

Lemma logged_tracers_app evs1 evs2 :
  logged_tracers (evs1 ++ evs2) = logged_tracers evs1 ++ logged_tracers evs2.
Proof. apply omap_app. Qed.

(** Line 56: the tracer is created, then pushed. *)
Lemma triple_push_tracer (P Q : St Heap → Prop) X (b : bool) :
  (b = false → ∀ s, P s → Q s) →
  (b = true → ∀ s o w, P s → handle Obj New_LoggingTracer (world s) = (o, w) →
     match o with
     | Returns tracer =>
         Q (with_realm (called s New_LoggingTracer o w) (push_tracer tracer (realm w)))
     | Throws e => X (Some e) (called s New_LoggingTracer o w)
     end) →
  triple P Q X
    (when b (bind (perform New_LoggingTracer) (λ tracer, set_realm (push_tracer tracer))))
    (λ _, True).
Proof.
  intros Hoff Hon s HP. destruct b; simpl; [|by auto].
  specialize (Hon eq_refl s _ _ HP (surjective_pairing _)).
  unfold bind, perform, set_realm, called, with_realm in *. simpl in *.
  by destruct (fst (handle Obj New_LoggingTracer (world s))).
Qed.

(** X10: provided the constructors of the collaborators leave [realm.tracers]
    alone, the constructor appends to it the logging tracers it creates and
    nothing else: none unless [trace] is set, and then one if it returns. *)
Theorem constructor_pushes_tracer serializerOptions s :
  (∀ R (c : Call R) w, constructor_call c = true →
     tracers (realm (snd (handle R c w))) = tracers (realm w)) →
  ∃ evs,
    log (snd (new_Serializer serializerOptions s)) = log s ++ evs ∧
    tracers (realm (world (snd (new_Serializer serializerOptions s)))) =
      tracers (realm (world s)) ++ logged_tracers evs ∧
    (trace serializerOptions = false → logged_tracers evs = []) ∧
    ∀ this, fst (new_Serializer serializerOptions s) = Ok this →
      length (logged_tracers evs) = if trace serializerOptions then 1 else 0.
Proof.
  intros Hframe.
  pose (Before := since s (λ s' evs,
          tracers (realm (world s')) = tracers (realm (world s)) ∧
          logged_tracers evs = [])).
  pose (Anyway := λ (s' : St Heap) (evs : list Event),
          tracers (realm (world s')) = tracers (realm (world s)) ++ logged_tracers evs ∧
          (trace serializerOptions = false → logged_tracers evs = [])).
  pose (After := since s (λ s' evs,
          Anyway s' evs ∧
          length (logged_tracers evs) = if trace serializerOptions then 1 else 0)).
  assert (Hbody : triple Before After (λ _, since s Anyway)
            (new_Serializer serializerOptions) (λ _, True)).
  { unfold new_Serializer.
    triple_walk_with ltac:(
      idtac; lazymatch goal with
      | |- triple _ _ _ (bind (when _ _) _) _ =>
          eapply (triple_bind Before After) with (Φ1 := λ _, True);
          [apply triple_push_tracer|]
      end).
    all: subst Before After Anyway; simpl; outcomes; try done.
    all: repeat match goal with
         | Hcall : handle ?R ?c ?w0 = (_, ?w) |- _ =>
             assert (tracers (realm w) = tracers (realm w0))
               by (by rewrite <- (Hframe R c w0), Hcall);
             clear Hcall
         end.
    all: since_step; intros ? ? HJ; cbv beta in HJ; destruct_and?;
      rewrite ?logged_tracers_app; simpl; rewrite ?length_app; simpl;
      repeat match goal with
      | H : logged_tracers _ = [] |- _ => rewrite H
      | H : tracers (realm ?w) = _ |- context [tracers (realm ?w)] => rewrite H
      | H : trace _ = _ |- _ => rewrite H
      end; simpl; rewrite ?app_nil_r, <- ?app_assoc, ?Nat.add_0_r;
      repeat split; auto; try congruence. }
  specialize (Hbody s (since_start _ _ (conj eq_refl eq_refl))).
  subst Before After Anyway.
  destruct (fst (new_Serializer serializerOptions s)) as [this| |] eqn:Hthis.
  - destruct Hbody as [(evs & Hlog & [Htracers Hoff] & Hlen) _].
    exists evs. repeat split; [done..|]. by intros ? _.
  - destruct Hbody as (evs & Hlog & Htracers & Hoff).
    exists evs. by repeat split.
  - destruct Hbody as (evs & Hlog & Htracers & Hoff).
    exists evs. by repeat split.
Qed.

(** ** The artifacts of a run that returns a result *)

Lemma inside_here part after (Φ : list Event → list Event → Prop) :
  Φ [] after → inside (part ++ after) part Φ.
Proof. intros HΦ. by exists [], after. Qed.

Lemma inside_skip pre rest part (Φ : list Event → list Event → Prop) :
  inside rest part (λ before after, Φ (pre ++ before) after) →
  inside (pre ++ rest) part Φ.
Proof.
  intros (before & after & -> & HΦ). exists (pre ++ before), after.
  by rewrite <- app_assoc.
Qed.

Lemma init_without_heapGraph this sources sm :
  heapGraphFormat (options this) = None →
  emits (init this sources sm)
    (λ evs r, ∃ r0, Every (λ e, builds_heapGraph e = false) _ evs r0 ∧ r = at_boundary r0).
Proof.
  intros Hoff. apply emits_init; [exact _ | ..].
  - unfold init_before_execute. sat_walk; by repeat constructor.
  - unfold _execute, executeSources. sat_walk; by repeat constructor.
  - intros code cutoff.
    unfold init_with_cutoff, build_heapGraph, reference_counts_pass, serialize_pass.
    rewrite Hoff. sat_walk; by repeat constructor.
Qed.

(** X11: without [heapGraphFormat] no run of [init] calls the reference
    counter or the graph generator, and a result has no heap graph; with it,
    a run that returns a result made the six calls of lines 170-190 in a
    row, the graph generator getting the reference counts of the counter and
    the identifiers table, effects and referentializer that the final
    serializer gets, and the result's heap graph is what [generateResult]
    returned for that format. *)
Theorem heapGraph_follows_format this sources sm s :
  ∃ evs,
    log (snd (init this sources sm s)) = log s ++ evs ∧
    (heapGraphFormat (options this) = None →
     Forall (λ e, builds_heapGraph e = false) evs) ∧
    ∀ res, fst (init this sources sm s) = Ok (Some res) →
      match heapGraphFormat (options this) with
      | Some format =>
          ∃ afve rf ids vis counter refCounts graphGenerator graph serializer,
            result_heapGraph res = Some graph ∧
            inside evs
              (heapGraph_calls this afve rf ids format counter refCounts
                 graphGenerator graph)
              (λ before after,
                 ECall (New_ResidualHeapValueIdentifiers vis) (Returns ids) ∈ before ∧
                 ECall (New_Serializer (TargetSerializer (options this))
                          (serializer_args this ids vis afve rf))
                   (Returns serializer) ∈ after)
      | None => result_heapGraph res = None
      end.
Proof.
  destruct (heapGraphFormat (options this)) as [format|] eqn:Hformat.
  - destruct (fst (init this sources sm s)) as [[res|]| |] eqn:Hres.
    2-4: destruct (emits_init (Every (λ _, True)) this sources sm) with (s := s)
           as (evs & Hlog & _);
         [unfold init_before_execute; sat_walk; by repeat constructor
         |unfold _execute, executeSources; sat_walk; by repeat constructor
         |intros; unfold init_with_cutoff, build_heapGraph, reference_counts_pass,
            serialize_pass; sat_walk; by repeat constructor
         |exists evs; by repeat split].
    destruct (init_success this sources sm s res Hres) as (evs & Hlog & Hpost).
    exists evs. split; [done|]. split; [done|]. intros ? [= <-].
    destruct Hpost as (verbose0 & asts & value & code & cutoff & pipeline & -> & Hpost).
    destruct Hpost as (rs & afve & scopeNames & referentializedNames & rf & verbose1 & vis
                       & verbose2 & ids & hg & graphEvents & pass1 & pass2
                       & -> & Hgraph & Hpass1 & Hpass2).
    destruct Hpass2 as (serializer & ast & strip & generated & logged & st & timing
                        & -> & [= ->]).
    unfold heapGraph_post in Hgraph. rewrite Hformat in Hgraph.
    destruct Hgraph as (counter & refCounts & graphGenerator & graph & -> & ->).
    exists afve, rf, ids, vis, counter, refCounts, graphGenerator, graph, serializer.
    split; [done|].
    do 10 apply inside_skip. apply inside_here. split.
    + set_solver.
    + unfold pass2_calls. set_solver.
  - destruct (init_without_heapGraph this sources sm Hformat s)
      as (evs & Hlog & r0 & Hevery & Hr).
    exists evs. split; [done|]. split; [done|]. intros res Hres.
    destruct (init_success this sources sm s res Hres) as (evs' & Hlog' & Hpost).
    destruct Hpost as (verbose0 & asts & value & code & cutoff & pipeline & -> & Hpost).
    destruct Hpost as (rs & afve & scopeNames & referentializedNames & rf & verbose1 & vis
                       & verbose2 & ids & hg & graphEvents & pass1 & pass2
                       & -> & Hgraph & Hpass1 & Hpass2).
    destruct Hpass2 as (serializer & ast & strip & generated & logged & st & timing
                        & -> & [= ->]).
    unfold heapGraph_post in Hgraph. rewrite Hformat in Hgraph.
    by destruct Hgraph as [_ ->].
Qed.

(** X12: a run that returns a result ends with the final pass: the final
    serializer is constructed and run, the tree it returns is stripped of
    its type annotations if at all, then handed to [generate] with the
    [sourceMaps] flag of the call and the [code] object the parser returned;
    errors are read once more, the statistics are logged if [logStatistics]
    is set, and nothing follows.  The code and the map of the result are
    those of [generate]. *)
Theorem run_ends_with_final_pass this sources sm s res :
  fst (init this sources sm s) = Ok (Some res) →
  ∃ before asts code ids vis afve rf serializer ast strip generated logged,
    log (snd (init this sources sm s)) =
      log s ++ before ++
      pass2_calls this code sm ids vis afve rf serializer ast strip generated logged ∧
    ECall (GlobalEnv_parse sources "script") (Returns (asts, code)) ∈ before ∧
    result_code res = gen_code generated ∧
    result_map res = gen_map generated.
Proof.
  intros Hres.
  destruct (init_success this sources sm s res Hres) as (evs & Hlog & Hpost).
  destruct Hpost as (verbose0 & asts & value & code & cutoff & pipeline & -> & Hpost).
  destruct Hpost as (rs & afve & scopeNames & referentializedNames & rf & verbose1 & vis
                     & verbose2 & ids & hg & graphEvents & pass1 & pass2
                     & -> & Hgraph & Hpass1 & Hpass2).
  destruct Hpass2 as (serializer & ast & strip & generated & logged & st & timing
                      & -> & [= ->]).
  match type of Hlog with
  | _ = _ ++ ?a1 ++ ?a2 ++ ?a3 ++ ?a4 ++ ?a5 ++ ?a6 ++ ?a7 ++ ?a8 ++ ?a9 ++ ?a10
          ++ graphEvents ++ pass1 ++ ?final =>
      exists (a1 ++ a2 ++ a3 ++ a4 ++ a5 ++ a6 ++ a7 ++ a8 ++ a9 ++ a10
              ++ graphEvents ++ pass1)
  end.
  exists asts, code, ids, vis, afve, rf, serializer, ast, strip, generated, logged.
  split_and!; [|set_solver|done|done].
  rewrite Hlog. by rewrite <- !app_assoc.
Qed.

(** X13: in a run that returns a result the four calls of lines 131-143 come
    in a row: the effects of the additional functions are fetched, a name
    generator is created for the prefix [__scope_] and one for [$], and the
    referentializer gets the options, these two generators in this order and
    the statistics of the serializer; the visitor that follows gets these
    effects and this referentializer. *)
Theorem referentializer_wiring this sources sm s res :
  fst (init this sources sm s) = Ok (Some res) →
  ∃ evs afve scopeNames referentializedNames rf vis,
    log (snd (init this sources sm s)) = log s ++ evs ∧
    inside evs (referentializer_calls this afve scopeNames referentializedNames rf)
      (λ before after,
         Forall (λ e, after_prelude_check e = false) before ∧
         ECall (New_ResidualHeapVisitor (logger this) (modules this) afve rf)
           (Returns vis) ∈ after ∧
         ECall (ResidualHeapVisitor_visitRoots vis) (Returns tt) ∈ after).
Proof.
  intros Hres.
  destruct (init_success this sources sm s res Hres) as (evs & Hlog & Hpost).
  destruct Hpost as (verbose0 & asts & value & code & cutoff & pipeline & -> & Hpost).
  destruct Hpost as (rs & afve & scopeNames & referentializedNames & rf & verbose1 & vis
                     & verbose2 & ids & hg & graphEvents & pass1 & pass2
                     & -> & Hgraph & Hpass1 & Hpass2).
  eexists _, afve, scopeNames, referentializedNames, rf, vis. split; [exact Hlog|].
  do 5 apply inside_skip. apply inside_here. split_and!; [|set_solver..].
  rewrite !Forall_app. split_and!;
    unfold optional, react_calls; repeat (case_match; simpl); by repeat constructor.
Qed.

(** ** What the reservation of identifiers leaves alone *)

Lemma only_more_forbiddenNames_refl s : only_more_forbiddenNames s s.
Proof. by repeat split. Qed.

(** X14: the callback of lines 74-84, run on any trees, changes nothing but
    the forbidden names of the prelude generator, and only adds to them: the
    call log, the clock, the heap, the counter of environment records and
    every other field of the realm stay as they were, however the walk ends. *)
Theorem reservation_only_adds_names asts s :
  only_more_forbiddenNames s (snd (for_each asts reserve_identifiers s)).
Proof.
  assert (Hbody : triple (only_more_forbiddenNames s) (only_more_forbiddenNames s)
            (λ _, only_more_forbiddenNames s)
            (for_each asts reserve_identifiers) (λ _, True)).
  { unfold reserve_identifiers, reserve_node. triple_walk; try done.
    unfold only_more_forbiddenNames, forbiddenNames_of in *. simpl.
    destruct_and?. split_and!; try done.
    - match goal with Hsome : is_Some _ ↔ _ |- _ => rewrite <- Hsome end.
      destruct (preludeGenerator (realm (world s0))); [by split | done].
    - destruct (preludeGenerator (realm (world s0))); simpl; set_solver. }
  specialize (Hbody s (only_more_forbiddenNames_refl s)).
  by destruct (fst (for_each asts reserve_identifiers s)); [destruct Hbody|..].
Qed.

(** ** Optional steps *)

Lemma ends_with_one e : ends_with [e] e.
Proof. by exists []. Qed.

Lemma ends_with_cons x evs e : ends_with evs e → ends_with (x :: evs) e.
Proof. intros [pre ->]. by exists (x :: pre). Qed.

Lemma ends_with_app_r pre evs e : ends_with evs e → ends_with (pre ++ evs) e.
Proof. intros [pre' ->]. exists (pre ++ pre'). by rewrite app_assoc. Qed.


(** A step that is switched off. *)
Ltac skipped_step :=
  idtac;
  lazymatch goal with
  | |- sat _ (when false _) => apply sat_silent; [exact _ | by intros ?]
  end.

Lemma init_without_more_modules this sources sm :
  initializeMoreModules (options this) = false →
  emits (init this sources sm)
    (λ evs r, ∃ r0, Every (λ e, initializes_more_modules e = false) _ evs r0 ∧
                    r = at_boundary r0).
Proof.
  intros Hoff. apply emits_init; [exact _ | ..].
  - unfold init_before_execute. sat_walk; by repeat constructor.
  - unfold _execute, executeSources. sat_walk; by repeat constructor.
  - intros code cutoff.
    unfold init_with_cutoff, build_heapGraph, reference_counts_pass, serialize_pass.
    rewrite Hoff. sat_walk_with skipped_step; by repeat constructor.
Qed.

Lemma init_without_logStatistics this sources sm :
  logStatistics (options this) = false →
  emits (init this sources sm)
    (λ evs r, ∃ r0, Every (λ e, logs_statistics e = false) _ evs r0 ∧
                    r = at_boundary r0).
Proof.
  intros Hoff. apply emits_init; [exact _ | ..].
  - unfold init_before_execute. sat_walk; by repeat constructor.
  - unfold _execute, executeSources. sat_walk; by repeat constructor.
  - intros code cutoff.
    unfold init_with_cutoff, build_heapGraph, reference_counts_pass, serialize_pass.
    rewrite Hoff. sat_walk_with skipped_step; by repeat constructor.
Qed.

(** X15: [modules.initializeMoreModules()] and its checkpoint occur in no run
    unless [initializeMoreModules] is set, [statistics.log()] in no run unless
    [logStatistics] is set; and a run that returns a result with the option
    set did make the call. *)
Theorem optional_steps_follow_options this sources sm s :
  ∃ evs,
    log (snd (init this sources sm s)) = log s ++ evs ∧
    (initializeMoreModules (options this) = false →
     Forall (λ e, initializes_more_modules e = false) evs) ∧
    (logStatistics (options this) = false →
     Forall (λ e, logs_statistics e = false) evs) ∧
    ∀ res, fst (init this sources sm s) = Ok (Some res) →
      (initializeMoreModules (options this) = true →
       ECall (Modules_initializeMoreModules (modules this)) (Returns tt) ∈ evs) ∧
      (logStatistics (options this) = true →
       ∃ logged, ends_with evs (ECall (Statistics_log logged) (Returns tt))).
Proof.
  destruct (emits_init (Every (λ _, True)) this sources sm) with (s := s)
    as (evs & Hlog & _).
  { unfold init_before_execute. sat_walk; by repeat constructor. }
  { unfold _execute, executeSources. sat_walk; by repeat constructor. }
  { intros. unfold init_with_cutoff, build_heapGraph, reference_counts_pass,
      serialize_pass. sat_walk; by repeat constructor. }
  exists evs. split; [done|]. split_and!.
  - intros Hoff.
    destruct (init_without_more_modules this sources sm Hoff s)
      as (evs' & Hlog' & r0 & Hevery & _).
    rewrite Hlog in Hlog'. by apply app_inv_head in Hlog' as ->.
  - intros Hoff.
    destruct (init_without_logStatistics this sources sm Hoff s)
      as (evs' & Hlog' & r0 & Hevery & _).
    rewrite Hlog in Hlog'. by apply app_inv_head in Hlog' as ->.
  - intros res Hres.
    destruct (init_success this sources sm s res Hres) as (evs' & Hlog' & Hpost).
    rewrite Hlog in Hlog'. apply app_inv_head in Hlog' as <-.
    destruct Hpost as (verbose0 & asts & value & code & cutoff & pipeline & -> & Hpost).
    destruct Hpost as (rs & afve & scopeNames & referentializedNames & rf & verbose1 & vis
                       & verbose2 & ids & hg & graphEvents & pass1 & pass2
                       & -> & Hgraph & Hpass1 & Hpass2).
    destruct Hpass2 as (serializer & ast & strip & generated & logged & st & timing
                        & -> & [= ->]).
    split.
    + intros ->. simpl. set_solver.
    + intros Hon. exists logged. unfold pass2_calls. rewrite Hon.
      repeat first [by apply ends_with_one | apply ends_with_cons | apply ends_with_app_r].
Qed.

(** ** The flags of the realm *)

Lemma triple_when_perform (P Q : St Heap → Prop) X (b : bool) (c : Call unit) :
  (b = false → ∀ s, P s → Q s) →
  (b = true → ∀ s o w, P s → handle unit c (world s) = (o, w) →
     match o with
     | Returns _ => Q (called s c o w)
     | Throws e => X (Some e) (called s c o w)
     end) →
  triple P Q X (when b (perform c)) (λ _, True).
Proof.
  intros Hoff Hon. destruct b; simpl.
  - by apply triple_perform, Hon.
  - intros s HP. simpl. auto.
Qed.

Lemma respects_flags_nil strip verbose0 enabled0 :
  respects_flags strip verbose0 enabled0 [].
Proof. by repeat split. Qed.

Lemma respects_flags_app strip verbose0 enabled0 evs evs' :
  respects_flags strip verbose0 enabled0 evs →
  respects_flags strip verbose0 enabled0 evs' →
  respects_flags strip verbose0 enabled0 (evs ++ evs').
Proof.
  intros (Hs & Hv & He) (Hs' & Hv' & He').
  repeat split; intros ?; apply Forall_app; split; auto.
Qed.

(** Brings out what the reads of the realm returned. *)
Ltac flag_facts :=
  repeat match goal with
  | H : (λ _, _) _ |- _ => cbv beta in H
  | H : ∃ s0, since _ _ s0 ∧ ?a = _ |- _ =>
      let Hs := fresh in
      let Hr := fresh in
      let Ha := fresh in
      destruct H as (? & (? & _ & Hs & Hr & _) & Ha); cbv beta in Ha;
      rewrite ?Hs, ?Hr in Ha; clear Hs Hr
  end.

(** X16: provided no collaborator changes [realm.stripFlow] or [realm.react],
    these flags, as they are when [init] is called, decide the steps that
    depend on them: without [stripFlow] no run strips type annotations,
    without [react.verbose] no run logs a message, without [react.enabled]
    no run makes a React call; and a run that returns a result has stripped
    the type annotations exactly when [stripFlow] is set, and its result has
    React statistics exactly when [react.enabled] is set. *)
Theorem realm_flags_decide this sources sm s :
  (∀ R (c : Call R) w,
     stripFlow (realm (snd (handle R c w))) = stripFlow (realm w) ∧
     realm_react (realm (snd (handle R c w))) = realm_react (realm w)) →
  ∃ evs,
    log (snd (init this sources sm s)) = log s ++ evs ∧
    respects_flags (stripFlow (realm (world s)))
      (verbose (realm_react (realm (world s))))
      (enabled (realm_react (realm (world s)))) evs ∧
    ∀ res, fst (init this sources sm s) = Ok (Some res) →
      (Exists (λ e, strips_types e = true) evs ↔ stripFlow (realm (world s)) = true) ∧
      (is_Some (result_reactStatistics res) ↔
       enabled (realm_react (realm (world s))) = true).
Proof.
  intros Hframe.
  pose (J := λ (s' : St Heap) (evs : list Event),
          stripFlow (realm (world s')) = stripFlow (realm (world s)) ∧
          realm_react (realm (world s')) = realm_react (realm (world s)) ∧
          respects_flags (stripFlow (realm (world s)))
            (verbose (realm_react (realm (world s))))
            (enabled (realm_react (realm (world s)))) evs).
  pose (J' := λ (s' : St Heap) (evs : list Event),
          J s' evs ∧
          (stripFlow (realm (world s)) = true → Exists (λ e, strips_types e = true) evs)).
  assert (Hbody : triple (since s J) (since s J') (λ _, since s J)
            (bind (init_before_execute this) (λ _,
             bind (_execute this sources) (λ code,
             init_after_execute this code sm)))
            (λ a, ∀ res, a = Some res →
               is_Some (result_reactStatistics res) ↔
               enabled (realm_react (realm (world s))) = true)).
  { unfold init_before_execute, _execute, executeSources, reserve_identifiers,
      reserve_node, init_after_execute, init_with_cutoff, build_heapGraph,
      reference_counts_pass, serialize_pass.
    triple_walk_with ltac:(
      idtac; lazymatch goal with
      | |- triple _ _ _ (bind (when _ (perform (stripFlowTypeAnnotations _))) _) _ =>
          eapply (triple_bind (since s J) (since s J')) with (Φ1 := λ _, True);
          [apply triple_when_perform|]
      | |- triple _ _ _ (bind (if _ then _ else _) _) _ =>
          eapply (triple_bind (since s J) (since s J))
            with (Φ1 := λ rs : option Obj,
                    is_Some rs ↔ enabled (realm_react (realm (world s))) = true)
      end).
    all: subst J J'; simpl; outcomes; try done.
    all: flag_facts.
    all: repeat match goal with
         | Hcall : handle ?R ?c ?w0 = (_, ?w) |- _ =>
             assert (w = snd (handle R c w0)) as -> by (by rewrite Hcall); clear Hcall
         end.
    all: try (since_step; intros ? ? HJ; cbv beta in HJ; destruct_and?; simpl;
           rewrite ?(proj1 (Hframe _ _ _)), ?(proj2 (Hframe _ _ _));
           split_and?; try done;
           try (apply respects_flags_app; [done|];
                repeat split; intros; repeat constructor; simpl; congruence);
           try (intros; rewrite Exists_app; first [by left; auto | by right; left])).
    all: intros; simplify_eq/=; try done; try congruence.
    all: split; [intros [? ?] | intros ?]; first [congruence | by eexists]. }
  apply (λ H, triple_init (since s J) _ _ _ _ _ _ H s) in Hbody;
    [|apply since_start; subst J; simpl; by auto using respects_flags_nil].
  subst J J'.
  destruct (fst (init this sources sm s)) as [[res|]| |] eqn:Hres.
  - destruct Hbody as [(evs & Hlog & (_ & _ & Hflags) & Hstrip) Hreact].
    exists evs. split; [done|]. split; [done|]. intros ? [= <-]. split; [|by apply Hreact].
    split; [|done]. intros Hstripped.
    destruct (stripFlow (realm (world s))); [done|].
    destruct Hflags as [Hnone _]. specialize (Hnone eq_refl).
    apply Exists_exists in Hstripped as (e & He & Hyes).
    rewrite Forall_forall in Hnone. specialize (Hnone e He). congruence.
  - destruct Hbody as [(evs & Hlog & _ & _ & Hflags)|[(evs & Hlog & (_ & _ & Hflags) & _) _]];
      exists evs; split_and!; by try intros ? ?.
  - destruct Hbody as (evs & Hlog & _ & _ & Hflags).
    exists evs; split_and!; by try intros ? ?.
  - done.
Qed.

(** ** The constructor, then [init] *)

(** X17: in [new Serializer(realm, options).init(sources)] that returns a
    result, the logger, the modules, the statistics and the React state that
    the constructor created are the ones the visitor and the final serializer
    get, and the options the final serializer is chosen by and gets are those
    given to the constructor. *)
Theorem constructed_collaborators_are_used serializerOptions sources sm s this res :
  fst (new_Serializer serializerOptions s) = Ok this →
  fst (init this sources sm (snd (new_Serializer serializerOptions s))) = Ok (Some res) →
  ∃ realm_generator tracer evs afve rf vis ids serializer,
    log (snd (init this sources sm (snd (new_Serializer serializerOptions s)))) =
      log s ++ constructor_calls serializerOptions this realm_generator tracer ++ evs ∧
    ECall (New_ResidualHeapVisitor (logger this) (modules this) afve rf)
      (Returns vis) ∈ evs ∧
    ECall (New_Serializer (TargetSerializer serializerOptions)
             {| sa_logger := logger this;
                sa_modules := modules this;
                sa_residualHeapValueIdentifiers := ids;
                sa_visitor := vis;
                sa_options := serializerOptions;
                sa_additionalFunctionValuesAndEffects := afve;
                sa_statistics := statistics this;
                sa_react := react this;
                sa_referentializer := rf |}) (Returns serializer) ∈ evs.
Proof.
  intros Hthis Hres.
  destruct (new_Serializer_yields serializerOptions s this Hthis)
    as (evs0 & Hlog0 & Hoptions & realm_generator & tracer & ->).
  destruct (init_success this sources sm _ res Hres) as (evs & Hlog & Hpost).
  destruct Hpost as (verbose0 & asts & value & code & cutoff & pipeline & -> & Hpost).
  destruct Hpost as (rs & afve & scopeNames & referentializedNames & rf & verbose1 & vis
                     & verbose2 & ids & hg & graphEvents & pass1 & pass2
                     & -> & Hgraph & Hpass1 & Hpass2).
  destruct Hpass2 as (serializer & ast & strip & generated & logged & st & timing
                      & -> & [= ->]).
  eexists realm_generator, tracer, _, afve, rf, vis, ids, serializer. split_and!.
  - rewrite Hlog, Hlog0. by rewrite <- app_assoc.
  - set_solver.
  - unfold pass2_calls, serializer_args. rewrite Hoptions. set_solver.
Qed.

End Serializer.

(** ** The statements on the sample world *)

Local Abbreviation sample_collaborators := (sample_handle [sample_ast] (NormalValue 0)).

Local Abbreviation abrupt_collaborators :=
  (sample_handle [sample_ast] (AbruptCompletion (Some {| line := 1; column := 16 |}) 7)).

(** The state the constructor leaves. *)
Local Abbreviation constructed o := (snd (new_Serializer sample_collaborators o (sample_state true))).

(** [new Serializer(realm, o).init(sample_sources)] *)
Local Abbreviation sample_init o :=
  (init sample_collaborators sample_hasErrors sample_statistics_of (sample_this o)
     sample_sources false (constructed o)).

(** On [var x: Foo = 1; f(y);] the realm has a prelude generator, the
    callback ends normally and [y], three levels down, is reserved. *)
Lemma reserve_identifiers_outermost_witness :
  is_Some (preludeGenerator (realm (world (sample_state true)))) ∧
  fst (for_each [sample_ast] reserve_identifiers (sample_state true)) = Ok tt ∧
  "y" ∈ forbiddenNames_of
          (world (snd (for_each [sample_ast] reserve_identifiers (sample_state true)))).
Proof.
  assert (Hp : is_Some (preludeGenerator (realm (world (sample_state true)))))
    by (eexists; reflexivity).
  destruct (reserve_identifiers_outermost [sample_ast] (sample_state true) Hp)
    as [Hok Hnames].
  split; [exact Hp|]. split; [exact Hok|].
  apply Hnames. right. exists sample_ast, (mkNode "Identifier" "y" []).
  split; [apply list_elem_of_here|]. split; [|split; reflexivity].
  eapply outermost_below; [reflexivity | apply list_elem_of_further, list_elem_of_here | ].
  eapply outermost_below; [reflexivity | apply list_elem_of_here | ].
  eapply outermost_below; [reflexivity | apply list_elem_of_further, list_elem_of_here | ].
  apply outermost_here.
Defined.

(** C10 as stated fails on [var x: Foo = 1; f(y);]: the identifier [Foo]
    occurs in the tree, below the identifier [x], and its name is not in the
    forbidden set once the callback has run on the tree. *)
Lemma nested_identifier_not_reserved :
  occurs_in (mkNode "Identifier" "Foo" []) sample_ast ∧
  isIdentifier (mkNode "Identifier" "Foo" []) = true ∧
  fst (for_each [sample_ast] reserve_identifiers (sample_state true)) = Ok tt ∧
  "Foo" ∉ forbiddenNames_of
            (world (snd (for_each [sample_ast] reserve_identifiers (sample_state true)))).
Proof.
  split; [|split; [reflexivity|split; [reflexivity|]]].
  - do 6 (eapply occurs_below; [apply list_elem_of_here|]). apply occurs_here.
  - apply (bool_decide_unpack _). by vm_compute.
Qed.

(** The constructor on the sample realm, without and with abstract
    interpretation: with it, the generator the sample constructor of
    [Generator] returns is the realm's generator in the end. *)
Lemma constructor_installs_generator_witness :
  useAbstractInterpretation (realm (world (sample_state false))) = false ∧
  new_Serializer sample_collaborators sample_options (sample_state false) =
    (Throw InvariantViolation, sample_state false) ∧
  useAbstractInterpretation (realm (world (sample_state true))) = true ∧
  fst (sample_collaborators Obj (New_Generator "main") (world (sample_state true))) =
    Returns 300 ∧
  generator (realm (world (constructed sample_options))) = Some 300 ∧
  ∃ evs,
    log (constructed sample_options) =
      ECall (New_Generator "main") (Returns 300) ::
      ECall (New_Logger false) (Returns 0) :: evs ∧
    Forall (λ e, executes_sources e = false) evs.
Proof.
  split; [reflexivity|]. split.
  - apply (constructor_installs_generator sample_collaborators sample_options
             (sample_state false)). reflexivity.
  - split; [reflexivity|]. split; [reflexivity|].
    destruct (proj2 (constructor_installs_generator sample_collaborators sample_options
                       (sample_state true)) eq_refl) as (evs & Hlog & Hevs & Hgenerator).
    split.
    + apply Hgenerator. intros R c w Hc. destruct c; try discriminate Hc; reflexivity.
    + exists evs. split; [exact Hlog | exact Hevs].
Defined.

(** C9 as stated fails on a realm that uses abstract interpretation but has
    no prelude generator: there the constructor of [Generator] fails on its
    invariant, so that the constructor of [Serializer] throws, having
    constructed no collaborator, and the realm still has no generator. *)
Lemma no_generator_without_prelude_generator :
  useAbstractInterpretation (realm (world bare_state)) = true ∧
  new_Serializer sample_collaborators sample_options bare_state =
    (Throw InvariantViolation,
     called bare_state (New_Generator "main") (Throws InvariantViolation)
       (world bare_state)) ∧
  generator (realm (world (snd (new_Serializer sample_collaborators sample_options
                                  bare_state)))) = None.
Proof. by vm_compute. Qed.

(** A sample run whose global code ends abruptly. *)
Lemma abrupt_completion_is_fatal_witness :
  fst (init_before_execute abrupt_collaborators (sample_this sample_options)
         (sample_state true)) = Ok tt ∧
  fst (executeSources abrupt_collaborators sample_sources "script" reserve_identifiers
         (snd (init_before_execute abrupt_collaborators (sample_this sample_options)
                 (sample_state true)))) =
    Ok (AbruptCompletion (Some {| line := 1; column := 16 |}) 7, sample_code sample_sources) ∧
  ∃ e, fst (init abrupt_collaborators sample_hasErrors sample_statistics_of
              (sample_this sample_options) sample_sources false (sample_state true)) = Throw e.
Proof.
  split; [by vm_compute|]. split; [by vm_compute|].
  destruct (abrupt_completion_is_fatal abrupt_collaborators sample_hasErrors
              sample_statistics_of (sample_this sample_options) sample_sources false
              (sample_state true) (Some {| line := 1; column := 16 |}) 7
              (sample_code sample_sources)
              (snd (executeSources abrupt_collaborators sample_sources "script"
                      reserve_identifiers
                      (snd (init_before_execute abrupt_collaborators
                              (sample_this sample_options) (sample_state true))))))
    as (e & evs & He & _); [by vm_compute | by vm_compute |].
  exists e. exact He.
Defined.

(** The sample run records the cutoff 1: the interpreter created one
    environment record, the module resolution creates the next one later. *)
Lemma cutoff_recorded_after_execution_witness :
  fst (init_before_execute sample_collaborators (sample_this sample_options)
         (constructed sample_options)) = Ok tt ∧
  fst (_execute sample_collaborators (sample_this sample_options) sample_sources
         (snd (init_before_execute sample_collaborators (sample_this sample_options)
                 (constructed sample_options)))) = Ok (sample_code sample_sources) ∧
  ∃ evs,
    Forall (uses_cutoff 1) evs ∧
    ECall (Functions_checkThatFunctionsAreIndependent 3 1) (Returns tt) ∈ evs.
Proof.
  split; [by vm_compute|]. split; [by vm_compute|].
  destruct (cutoff_recorded_after_execution sample_collaborators sample_hasErrors
              sample_statistics_of (sample_this sample_options) sample_sources false
              (constructed sample_options) (sample_code sample_sources)
              (snd (_execute sample_collaborators (sample_this sample_options)
                      sample_sources
                      (snd (init_before_execute sample_collaborators
                              (sample_this sample_options) (constructed sample_options))))))
    as (evs & _ & Hcutoff & Hcalls); [by vm_compute | by vm_compute |].
  exists evs. split; [exact Hcutoff|].
  eapply Hcalls. by vm_compute.
Defined.

(** The sample run returns a result, and the logger has no errors then. *)
Lemma errors_mean_no_result_witness :
  (∃ res, fst (sample_init sample_options) = Ok (Some res)) ∧
  sample_hasErrors (logger (sample_this sample_options))
    (world (snd (sample_init sample_options))) = false.
Proof.
  split; [eexists; by vm_compute|].
  destruct (errors_mean_no_result sample_collaborators sample_hasErrors
              sample_statistics_of (sample_this sample_options) sample_sources false
              (constructed sample_options)) as (evs & _ & _ & Hres).
  eapply Hres; [by vm_compute|]. intros st w. reflexivity.
Defined.

(** The sample run without [inlineExpressions]. *)
Lemma two_passes_iff_inlineExpressions_witness :
  inlineExpressions (options (sample_this plain_options)) = false ∧
  (∃ res, fst (sample_init plain_options) = Ok (Some res)) ∧
  ∃ evs,
    log (snd (sample_init plain_options)) = log (constructed plain_options) ++ evs ∧
    Forall (λ e, two_pass_event e = false) evs ∧
    ∀ identifiers referenceCount,
      naming_decision (table_state identifiers evs) referenceCount = BindOnce.
Proof.
  split; [reflexivity|]. split; [eexists; by vm_compute|].
  destruct (two_passes_iff_inlineExpressions sample_collaborators sample_hasErrors
              sample_statistics_of (sample_this plain_options) sample_sources false
              (constructed plain_options)) as (evs & Hlog & Hoff & _).
  exists evs. split; [exact Hlog|]. apply Hoff. reflexivity.
Defined.

(** The sample run with a lazy-objects runtime: the final serializer is a
    [LazyObjectsSerializer], made of the collaborators of the sample
    serializer and of the objects the run created. *)
Lemma final_serializer_class_witness :
  (∃ res, fst (sample_init sample_options) = Ok (Some res)) ∧
  lazyObjectsRuntime (options (sample_this sample_options)) ≠ None ∧
  TargetSerializer (options (sample_this sample_options)) = LazyObjectsSerializer ∧
  ∃ afve rf vis ids serializer,
    ECall (New_ResidualHeapVisitor 0 2 afve rf) (Returns vis)
      ∈ log (snd (sample_init sample_options)) ∧
    ECall (New_ResidualHeapValueIdentifiers vis) (Returns ids)
      ∈ log (snd (sample_init sample_options)) ∧
    ECall (New_Serializer LazyObjectsSerializer
             {| sa_logger := 0;
                sa_modules := 2;
                sa_residualHeapValueIdentifiers := ids;
                sa_visitor := vis;
                sa_options := sample_options;
                sa_additionalFunctionValuesAndEffects := afve;
                sa_statistics := 1;
                sa_react := 5;
                sa_referentializer := rf |}) (Returns serializer)
      ∈ log (snd (sample_init sample_options)).
Proof.
  destruct (fst (sample_init sample_options)) as [[res|]| |] eqn:Hres;
    [|by vm_compute in Hres..].
  destruct (final_serializer_class sample_collaborators sample_hasErrors
              sample_statistics_of (sample_this sample_options) sample_sources false
              (constructed sample_options) res Hres)
    as (Hlazy & _ & before & pass1 & after & code & afve & scopeNames
        & referentializedNames & rf & vis & ids & serializer & ast & generated
        & Hlog & _ & _ & _ & _ & _ & _ & _ & Hvis & Hids).
  split; [by exists res|]. split; [discriminate|].
  split; [apply Hlazy; discriminate|].
  exists afve, rf, vis, ids, serializer. rewrite Hlog. split_and!.
  - apply elem_of_app. right. apply elem_of_app. left. exact Hvis.
  - apply elem_of_app. right. apply elem_of_app. left. exact Hids.
  - apply elem_of_app. right. apply elem_of_app. right. apply elem_of_app. right.
    apply list_elem_of_here.
Defined.

(** C6 as stated fails on the sample run with [initializeMoreModules] on: the
    run returns a result, and its events are not in the stated order, the
    module initialization and its checkpoint coming before the visitor. *)
Lemma initializeMoreModules_precedes_visitation :
  (∃ res, fst (sample_init sample_options) = Ok (Some res)) ∧
  (∃ before middle after,
     log (snd (sample_init sample_options)) =
       before ++ [ECall (Modules_initializeMoreModules 2) (Returns tt);
                  ECheck AfterInitializeMoreModules false] ++ middle ++
       [ECall (ResidualHeapVisitor_visitRoots 11) (Returns tt);
        ECheck AfterHeapVisitation false] ++ after) ∧
  ¬ in_order stated_order (log (snd (sample_init sample_options))).
Proof.
  split; [eexists; by vm_compute|]. split.
  - eexists (take 15 (log (snd (sample_init sample_options)))),
            (take 6 (drop 17 (log (snd (sample_init sample_options))))),
            (drop 25 (log (snd (sample_init sample_options)))).
    by vm_compute.
  - unfold in_order. apply (bool_decide_unpack _). by vm_compute.
Qed.



(** ** The further statements on the sample world *)

(** A run that returns [undefined]: the logger has errors from the start. *)
Lemma undefined_iff_errors_at_checkpoint_witness :
  fst (init sample_collaborators sample_hasErrors sample_statistics_of
         (sample_this sample_options) sample_sources false failed_state) = Ok None ∧
  ∃ evs cp,
    log (snd (init sample_collaborators sample_hasErrors sample_statistics_of
                (sample_this sample_options) sample_sources false failed_state)) = evs ∧
    ends_with evs (ECheck cp true).
Proof.
  destruct (undefined_iff_errors_at_checkpoint sample_collaborators sample_hasErrors
              sample_statistics_of (sample_this sample_options) sample_sources false
              failed_state) as (evs & Hlog & Hiff).
  assert (Hnone : fst (init sample_collaborators sample_hasErrors sample_statistics_of
                         (sample_this sample_options) sample_sources false failed_state)
                  = Ok None) by (by vm_compute).
  split; [exact Hnone|].
  destruct (proj1 Hiff Hnone) as (cp & _ & Hends).
  exists evs, cp. split; [exact Hlog | exact Hends].
Defined.

(** The abrupt sample run ends by [FatalError]. *)
Lemma init_throws_because_witness :
  fst (init abrupt_collaborators sample_hasErrors sample_statistics_of
         (sample_this sample_options) sample_sources false (sample_state true)) =
    Throw FatalError ∧
  ∃ evs,
    thrown_because FatalError
      (world (snd (init abrupt_collaborators sample_hasErrors sample_statistics_of
                     (sample_this sample_options) sample_sources false
                     (sample_state true)))) evs.
Proof.
  assert (Hthrows : fst (init abrupt_collaborators sample_hasErrors sample_statistics_of
                           (sample_this sample_options) sample_sources false
                           (sample_state true)) = Throw FatalError) by (by vm_compute).
  split; [exact Hthrows|].
  destruct (init_throws_because abrupt_collaborators sample_hasErrors
              sample_statistics_of (sample_this sample_options) sample_sources false
              (sample_state true) FatalError Hthrows) as (evs & _ & Hbecause).
  exists evs. exact Hbecause.
Defined.

(** The sample run in a realm without a prelude generator. *)
Lemma no_prelude_generator_no_result_witness :
  preludeGenerator (realm (world bare_state)) = None ∧
  fst (init sample_collaborators sample_hasErrors sample_statistics_of
         (sample_this sample_options) sample_sources false bare_state) =
    Throw InvariantViolation ∧
  ∀ res, fst (init sample_collaborators sample_hasErrors sample_statistics_of
                (sample_this sample_options) sample_sources false bare_state)
         ≠ Ok (Some res).
Proof.
  split; [reflexivity|]. split; [by vm_compute|].
  apply (no_prelude_generator_no_result sample_collaborators sample_hasErrors
           sample_statistics_of (sample_this sample_options) sample_sources false
           bare_state); [|reflexivity].
  intros R c w Hnone. destruct c; exact Hnone.
Defined.

(** The profiled sample run, with both optional timed steps: twelve
    readings of a clock that ticks by one. *)
Lemma timing_statistics_values_witness :
  profile (options (sample_this sample_options)) = true ∧
  (∃ res, fst (sample_init sample_options) = Ok (Some res)) ∧
  clock (snd (sample_init sample_options)) 0 = clock (constructed sample_options) 12.
Proof.
  split; [reflexivity|]. split; [eexists; by vm_compute|].
  eapply (timing_statistics_values sample_collaborators sample_hasErrors
            sample_statistics_of (sample_this sample_options) sample_sources false
            (constructed sample_options)); [reflexivity | by vm_compute].
Defined.

(** The constructor on the sample realm, with [trace] set. *)
Lemma constructor_wiring_witness :
  fst (new_Serializer sample_collaborators sample_options (sample_state true)) =
    Ok (sample_this sample_options) ∧
  log (constructed sample_options) =
    constructor_calls sample_options (sample_this sample_options) 300 4.
Proof.
  assert (Hthis : fst (new_Serializer sample_collaborators sample_options
                         (sample_state true)) = Ok (sample_this sample_options))
    by (by vm_compute).
  split; [exact Hthis|].
  destruct (constructor_wiring sample_collaborators sample_options (sample_state true)
              (sample_this sample_options) Hthis) as (_ & _ & realm_generator & tracer & Hlog).
  by vm_compute.
Defined.

(** The sample constructors leave [realm.tracers] alone; one tracer is pushed. *)
Lemma constructor_pushes_tracer_witness :
  tracers (realm (world (sample_state true))) = [] ∧
  ∃ evs,
    tracers (realm (world (constructed sample_options))) = logged_tracers evs ∧
    length (logged_tracers evs) = 1.
Proof.
  split; [reflexivity|].
  destruct (constructor_pushes_tracer sample_collaborators sample_options
              (sample_state true)) as (evs & _ & Htracers & _ & Hlength).
  { intros R c w Hc. destruct c; try discriminate Hc; reflexivity. }
  exists evs. split; [exact Htracers|].
  eapply Hlength. by vm_compute.
Defined.

(** The sample run with every optional step switched off. *)
Lemma run_ends_with_final_pass_witness :
  ∃ res before asts code ids vis afve rf serializer ast strip generated logged,
    fst (sample_init plain_options) = Ok (Some res) ∧
    log (snd (sample_init plain_options)) =
      log (constructed plain_options) ++ before ++
      pass2_calls (sample_this plain_options) code false
        ids vis afve rf serializer ast strip generated logged ∧
    ECall (GlobalEnv_parse sample_sources "script") (Returns (asts, code)) ∈ before ∧
    result_code res = gen_code generated.
Proof.
  destruct (fst (sample_init plain_options)) as [[res|]| |] eqn:Hres;
    [|by vm_compute in Hres..].
  destruct (run_ends_with_final_pass sample_collaborators sample_hasErrors
              sample_statistics_of (sample_this plain_options) sample_sources false
              (constructed plain_options) res Hres)
    as (before & asts & code & ids & vis & afve & rf & serializer & ast & strip
        & generated & logged & Hlog & Hparse & Hcode & _).
  exists res, before, asts, code, ids, vis, afve, rf, serializer, ast, strip,
    generated, logged.
  split; [reflexivity|]. split; [exact Hlog|]. split; [exact Hparse | exact Hcode].
Defined.

(** The same run: the four calls in a row. *)
Lemma referentializer_wiring_witness :
  ∃ res evs afve scopeNames referentializedNames rf,
    fst (sample_init plain_options) = Ok (Some res) ∧
    inside evs
      (referentializer_calls (sample_this plain_options) afve scopeNames
         referentializedNames rf) (λ _ _, True).
Proof.
  destruct (fst (sample_init plain_options)) as [[res|]| |] eqn:Hres;
    [|by vm_compute in Hres..].
  destruct (referentializer_wiring sample_collaborators sample_hasErrors
              sample_statistics_of (sample_this plain_options) sample_sources false
              (constructed plain_options) res Hres)
    as (evs & afve & scopeNames & referentializedNames & rf & vis & _
        & before & after & Hevs & _).
  exists res, evs, afve, scopeNames, referentializedNames, rf.
  split; [reflexivity|]. exists before, after. split; [exact Hevs | exact I].
Defined.

(** The sample collaborators leave the realm alone; the sample realm strips
    types and has React enabled. *)
Lemma realm_flags_decide_witness :
  (∀ R (c : Call R) w,
     stripFlow (realm (snd (sample_collaborators R c w))) = stripFlow (realm w) ∧
     realm_react (realm (snd (sample_collaborators R c w))) = realm_react (realm w)) ∧
  ∃ res evs,
    fst (sample_init sample_options) = Ok (Some res) ∧
    Exists (λ e, strips_types e = true) evs ∧
    is_Some (result_reactStatistics res).
Proof.
  assert (Hframe : ∀ R (c : Call R) w,
     stripFlow (realm (snd (sample_collaborators R c w))) = stripFlow (realm w) ∧
     realm_react (realm (snd (sample_collaborators R c w))) = realm_react (realm w)).
  { intros R c w. destruct c; split; reflexivity. }
  split; [exact Hframe|].
  destruct (fst (sample_init sample_options)) as [[res|]| |] eqn:Hres;
    [|by vm_compute in Hres..].
  destruct (realm_flags_decide sample_collaborators sample_hasErrors
              sample_statistics_of (sample_this sample_options) sample_sources false
              (constructed sample_options) Hframe) as (evs & _ & _ & Hflags).
  destruct (Hflags res Hres) as [Hstrip Hreact].
  exists res, evs. split; [reflexivity|]. split.
  - apply Hstrip. by vm_compute.
  - apply Hreact. by vm_compute.
Defined.

(** The constructor, then [init], on the sample realm. *)
Lemma constructed_collaborators_are_used_witness :
  ∃ res realm_generator tracer evs,
    fst (new_Serializer sample_collaborators sample_options (sample_state true)) =
      Ok (sample_this sample_options) ∧
    fst (sample_init sample_options) = Ok (Some res) ∧
    log (snd (sample_init sample_options)) =
      constructor_calls sample_options (sample_this sample_options) realm_generator tracer
        ++ evs.
Proof.
  assert (Hthis : fst (new_Serializer sample_collaborators sample_options
                         (sample_state true)) = Ok (sample_this sample_options))
    by (by vm_compute).
  destruct (fst (sample_init sample_options)) as [[res|]| |] eqn:Hres;
    [|by vm_compute in Hres..].
  destruct (constructed_collaborators_are_used sample_collaborators sample_hasErrors
              sample_statistics_of sample_options sample_sources false
              (sample_state true) (sample_this sample_options) res Hthis Hres)
    as (realm_generator & tracer & evs & _ & _ & _ & _ & _ & Hlog & _).
  exists res, realm_generator, tracer, evs.
  split; [exact Hthis|]. split; [reflexivity | exact Hlog].
Defined.

(** The profiled sample run under a clock that ticks by one. *)
Lemma timing_is_additive_witness :
  ∃ res t,
    fst (sample_init sample_options) = Ok (Some res) ∧
    result_timingStats res = Some t ∧
    (0 ≤ globalCodeTime t)%Z.
Proof.
  destruct (fst (sample_init sample_options)) as [[res|]| |] eqn:Hres;
    [|by vm_compute in Hres..].
  destruct (timing_is_additive sample_collaborators sample_hasErrors
              sample_statistics_of (sample_this sample_options) sample_sources false
              (constructed sample_options) res eq_refl Hres)
    as (t & Ht & Hglobal & _).
  { intros n. simpl. lia. }
  exists res, t. split; [reflexivity|]. split; [exact Ht | exact Hglobal].
Defined.
